(** * KaamSetu job lifecycle: a shallow embedding of [jobController.js]

    The controllers of [src/controllers/jobController.js] are embedded as
    pure functions over an explicit document store.  Every handler takes
    the store and the request data ([req.params], [req.body], [req.query],
    [req.user.userId]) and returns the new store with the HTTP response:
    the request run from its first [await] to its answer with no other
    request in between.  [acceptJob] and [startJob] are also given
    [await] by [await], for the requests that interleave.

    Conventions.
    - A Mongo [ObjectId] is a [positive]; a [Date] is a number of
      milliseconds, a [Z].
    - A JavaScript number that is only compared (ratings, coordinates,
      distances) is a rational: every finite double is one and [<], [<=]
      agree on them.  Where the code computes with numbers (the
      completion code), each operation is rounded to the nearest double.
    - A field that can be [null] or [undefined] is an [option].
    - The collections are [gmap]s keyed by [_id]; the fields follow the
      schemas of [models/Job.js], [models/Worker.js], [models/Review.js].
    - [res.status(c).json({success:false, message})] is [Fail c message];
      [res.json(body)] is [Ok body] (status 200). *)

From Stdlib Require Import ZArith QArith Qabs Qround Qpower Lqa String List Sorted Lia.
From stdpp Require Import base gmap strings list fin_maps sorting pretty.

Open Scope string_scope.
Open Scope list_scope.

(** ** Data model *)

Definition ObjectId := positive.
Definition Date := Z.

(** [status: { enum: ['posted','assigned','active','completed'] }] *)
Inductive Status := posted | assigned | active | completed.

#[global] Instance Status_eq_dec : EqDecision Status.
Proof. solve_decision. Defined.

Definition status_name (s : Status) : string :=
  match s with
  | posted => "posted" | assigned => "assigned"
  | active => "active" | completed => "completed"
  end.

(** [paymentStatus: { enum: ['pending','completed','failed'] }] *)
Inductive PaymentStatus := pay_pending | pay_completed | pay_failed.

(** [location: { lat: Number, lon: Number }] *)
Record Location := mkLocation { lat : option Q; lon : option Q }.

(** [address: { city: String, location: {...} }] *)
Record Address := mkAddress { city : option string; location : option Location }.

Module Job.
Record t := mk {
  clientId : ObjectId;
  workerId : option ObjectId;
  title : string;
  description : string;
  image : option string;
  imagePublicId : option string;
  skill : string;
  urgency : bool;
  address : Address;
  status : Status;
  completionDate : option Date;
  completionOTP : option string;
  paymentStatus : PaymentStatus;
  paymentId : option string;
  createdAt : Date
}.

Definition set_workerId (w : option ObjectId) (j : t) : t :=
  mk (clientId j) w (title j) (description j) (image j) (imagePublicId j)
     (skill j) (urgency j) (address j) (status j) (completionDate j)
     (completionOTP j) (paymentStatus j) (paymentId j) (createdAt j).

Definition set_status (s : Status) (j : t) : t :=
  mk (clientId j) (workerId j) (title j) (description j) (image j)
     (imagePublicId j) (skill j) (urgency j) (address j) s (completionDate j)
     (completionOTP j) (paymentStatus j) (paymentId j) (createdAt j).

Definition set_completionOTP (o : option string) (j : t) : t :=
  mk (clientId j) (workerId j) (title j) (description j) (image j)
     (imagePublicId j) (skill j) (urgency j) (address j) (status j)
     (completionDate j) o (paymentStatus j) (paymentId j) (createdAt j).

Definition set_image (url pid : option string) (j : t) : t :=
  mk (clientId j) (workerId j) (title j) (description j) url pid
     (skill j) (urgency j) (address j) (status j) (completionDate j)
     (completionOTP j) (paymentStatus j) (paymentId j) (createdAt j).

Definition set_payment (p : PaymentStatus) (pid : option string) (j : t) : t :=
  mk (clientId j) (workerId j) (title j) (description j) (image j)
     (imagePublicId j) (skill j) (urgency j) (address j) (status j)
     (completionDate j) (completionOTP j) p pid (createdAt j).
End Job.

Module Worker.
(** Only the paths the job controller reads: [skills] and [address]. *)
Record t := mk { skills : list string; address : Address }.
End Worker.

Inductive ReviewType := worker_to_client | client_to_worker.

#[global] Instance ReviewType_eq_dec : EqDecision ReviewType.
Proof. solve_decision. Defined.

Module Review.
Record t := mk {
  clientId : ObjectId;
  workerId : ObjectId;
  jobId : ObjectId;
  reviewType : ReviewType;
  rating : Q;
  review : string
}.
End Review.

(** The document store.  [released] logs the media handles passed to
    [deleteFromCloudinary]. *)
Record Store := mkStore {
  jobs : gmap ObjectId Job.t;
  workers : gmap ObjectId Worker.t;
  reviews : list Review.t;
  released : list string
}.

Definition set_jobs (js : gmap ObjectId Job.t) (st : Store) : Store :=
  mkStore js (workers st) (reviews st) (released st).

Definition add_review (r : Review.t) (st : Store) : Store :=
  mkStore (jobs st) (workers st) (reviews st ++ [r]) (released st).

(** ** Responses *)

Inductive Response (A : Type) :=
| Ok (body : A)
| Fail (code : Z) (message : string).
Arguments Ok {A} body.
Arguments Fail {A} code message.

Definition status_code {A} (r : Response A) : Z :=
  match r with Ok _ => 200 | Fail c _ => c end.

Definition is_ok {A} (r : Response A) : bool :=
  match r with Ok _ => true | Fail _ _ => false end.

(** ** JavaScript helpers *)

(** Truthiness of a string-or-undefined value: [undefined], [null] and the
    empty string are falsy. *)
Definition truthy (s : option string) : bool :=
  match s with
  | Some EmptyString => false
  | Some _ => true
  | None => false
  end.

Definition Qlt_bool (a b : Q) : bool := negb (Qle_bool b a).

(** [arr.includes(x)] on an array of strings. *)
Definition includes (l : list string) (x : string) : bool :=
  existsb (String.eqb x) l.

(** The document of [jobId] owned by [clientId]:
    [Job.findOne({ _id: jobId, clientId })]. *)
Definition findOne_client (st : Store) (jobId clientId : ObjectId) : option Job.t :=
  match jobs st !! jobId with
  | Some job => if decide (Job.clientId job = clientId) then Some job else None
  | None => None
  end.

(** [Job.findOne({ _id: jobId, workerId })]. *)
Definition findOne_worker (st : Store) (jobId workerId : ObjectId) : option Job.t :=
  match jobs st !! jobId with
  | Some job => if decide (Job.workerId job = Some workerId) then Some job else None
  | None => None
  end.

(** [Job.find(query)]: the matching documents with their ids. *)
Definition find_jobs (st : Store) (q : ObjectId -> Job.t -> bool) : list (ObjectId * Job.t) :=
  List.filter (fun kv => q kv.1 kv.2) (map_to_list (jobs st)).

(** [status: { $in: ['assigned', 'active'] }] *)
Definition held (s : Status) : bool :=
  match s with assigned | active => true | _ => false end.

(** ASCII white space removed by [String.prototype.trim] (the schema's
    [trim: true] on [title]). *)
Definition is_space (a : Ascii.ascii) : bool :=
  let n := Ascii.nat_of_ascii a in
  (n =? 9)%nat || (n =? 10)%nat || (n =? 11)%nat || (n =? 12)%nat
  || (n =? 13)%nat || (n =? 32)%nat.

Fixpoint trim_start (s : string) : string :=
  match s with
  | String a s' => if is_space a then trim_start s' else s
  | EmptyString => EmptyString
  end.

Definition trim (s : string) : string :=
  String.rev (trim_start (String.rev (trim_start s))).

(** [shared/constants.js] *)
Definition SKILLS : list string :=
  [ "ac-repair"; "car-wash"; "cleaner"; "cook"; "driver"; "electrician";
    "furniture-assembler"; "gardener"; "helper"; "interior-decorator";
    "mason"; "mechanic"; "nurse"; "pest-control"; "plumber";
    "sofa-cleaning"; "tailor"; "tiler"; "tutor"; "appliance-repair";
    "painter"; "security-guard"; "carpenter"; "moving-packing" ].

(** ** [createJob] *)

(** [req.body.address]: missing, a string [JSON.parse] rejects, or an
    object (given directly or parsed from a string). *)
Inductive AddressInput :=
| addr_absent
| addr_bad_json
| addr_value (a : Address).

Record CreateJobReq := mkCreateJobReq {
  cj_clientId : ObjectId;
  cj_skill : option string;
  cj_title : option string;
  cj_description : option string;
  cj_urgency : option bool;
  cj_address : AddressInput;
  (** [req.file]: [None] when no file was sent, [Some None] when
      [uploadJobImage] throws, [Some (Some (url, publicId))] otherwise *)
  cj_file : option (option (string * string));
  (** the [_id] that [new Job] draws, the clock and [crypto.randomUUID()] *)
  cj_newId : ObjectId;
  cj_now : Date;
  cj_uuid : string
}.

Record CreatedJob := mkCreatedJob {
  cr_id : ObjectId; cr_title : string; cr_status : Status; cr_image : option string
}.

(** Validation run by the first [job.save()]: [title] is trimmed and
    required, [skill] must be one of [SKILLS], and [_id] must be unused.
    A failure throws and the [catch] answers 500. *)
Definition createJob (st : Store) (req : CreateJobReq) : Store * Response CreatedJob :=
  if negb (truthy (cj_skill req)) || negb (truthy (cj_title req))
     || negb (truthy (cj_description req))
  then (st, Fail 400 "Skill, title, and description are required")
  else
    match cj_address req with
    | addr_bad_json => (st, Fail 400 "Invalid address format")
    | addr_absent => (st, Fail 400 "Address is required for job posting")
    | addr_value a =>
      if negb (truthy (city a)) && negb (bool_decide (is_Some (location a)))
      then (st, Fail 400 "Address is required for job posting")
      else
        let skill := default EmptyString (cj_skill req) in
        let title := trim (default EmptyString (cj_title req)) in
        if negb (includes SKILLS skill) || negb (truthy (Some title))
           || bool_decide (is_Some (jobs st !! cj_newId req))
        then (st, Fail 500 "Server error while creating job")
        else
          let job0 :=
            Job.mk (cj_clientId req) None title
                   (default EmptyString (cj_description req))
                   None None skill (default false (cj_urgency req)) a
                   posted None None pay_pending None (cj_now req) in
          let job1 :=
            match cj_file req with
            | Some (Some (url, pid)) => Job.set_image (Some url) (Some pid) job0
            | _ => job0
            end in
          let job2 :=
            Job.set_payment pay_completed (Some ("pay_" +:+ cj_uuid req)) job1 in
          (set_jobs (<[cj_newId req := job2]> (jobs st)) st,
           Ok (mkCreatedJob (cj_newId req) (Job.title job2) (Job.status job2)
                            (Job.image job2)))
    end.

(** ** [cancelJob] (client) *)

Record JobStatusBody := mkJobStatusBody { jb_id : ObjectId; jb_status : Status }.

Definition cancelJob (st : Store) (jobId clientId : ObjectId)
  : Store * Response JobStatusBody :=
  match findOne_client st jobId clientId with
  | None => (st, Fail 404 "Job not found")
  | Some job =>
    if negb (bool_decide (Job.status job ∈ [posted; assigned]))
    then (st, Fail 400 ("Cannot cancel a job that is already "
                          +:+ status_name (Job.status job)))
    else
      let rel :=
        if truthy (Job.imagePublicId job)
        then (released st ++ [default EmptyString (Job.imagePublicId job)])%list
        else released st in
      (mkStore (delete jobId (jobs st)) (workers st) (reviews st) rel,
       Ok (mkJobStatusBody jobId (Job.status job)))
  end.

(** ** [startJob] (client) *)

(** [job.startedAt] is not a path of the schema, so the assignment is not
    persisted; the body carries the (populated) worker reference. *)
Definition startJob (st : Store) (jobId clientId : ObjectId)
  : Store * Response (option ObjectId) :=
  match findOne_client st jobId clientId with
  | None => (st, Fail 404 "Job not found")
  | Some job =>
    if negb (bool_decide (Job.status job = assigned))
    then (st, Fail 400 "Job must be assigned to start")
    else
      let job' := Job.set_status active job in
      (set_jobs (<[jobId := job']> (jobs st)) st, Ok (Job.workerId job'))
  end.

(** *** [startJob] between its [await]s

    The handler awaits [Job.findOne] and then [job.save()].  The save
    writes the modified path of the document that was read, here
    [status], to the document stored under its [_id], whatever that
    document has become in between, and throws when it is gone (the
    [catch] answers 500). *)
Inductive StartPC :=
| AtFind                                         (* before [Job.findOne] *)
| AtSave (job : Job.t)                           (* before [job.save()] *)
| Started (resp : Response (option ObjectId)).

Definition startJob_step (jobId clientId : ObjectId) (st : Store) (pc : StartPC)
  : Store * StartPC :=
  match pc with
  | AtFind =>
    match findOne_client st jobId clientId with
    | None => (st, Started (Fail 404 "Job not found"))
    | Some job =>
      if negb (bool_decide (Job.status job = assigned))
      then (st, Started (Fail 400 "Job must be assigned to start"))
      else (st, AtSave job)
    end
  | AtSave job =>
    match jobs st !! jobId with
    | Some stored =>
      (set_jobs (<[jobId := Job.set_status active stored]> (jobs st)) st,
       Started (Ok (Job.workerId job)))
    | None => (st, Started (Fail 500 "Error starting job"))
    end
  | Started _ => (st, pc)
  end.

(** ** [completeJob] (client) *)

Record CompletedBody := mkCompletedBody {
  cb_id : ObjectId; cb_status : Status; cb_completedAt : Date
}.

(** [job.completedAt = new Date()] is assigned on the document and
    returned in the body; the schema has no such path ([completionDate]
    is the declared one, and nothing writes it), so [save()] stores the
    changes of [status] and [completionOTP] only.  Likewise [worker.completedJobs] is no path of the worker
    schema: the increment that follows the save persists nothing and the
    worker collection is unchanged. *)
Definition completeJob (st : Store) (jobId clientId : ObjectId)
    (otp : option string) (now : Date) : Store * Response CompletedBody :=
  if negb (truthy otp)
  then (st, Fail 400 "OTP is required to complete the job")
  else
    match findOne_client st jobId clientId with
    | None => (st, Fail 404 "Job not found")
    | Some job =>
      if negb (bool_decide (Job.status job = active))
      then (st, Fail 400 "Job must be active to complete")
      else if negb (truthy (Job.completionOTP job))
      then (st, Fail 400 "No OTP generated for this job. Ask the worker to generate one.")
      else if negb (bool_decide (Job.completionOTP job = otp))
      then (st, Fail 400 "Invalid OTP. Please check and try again.")
      else
        let job' := Job.set_completionOTP None (Job.set_status completed job) in
        (set_jobs (<[jobId := job']> (jobs st)) st,
         Ok (mkCompletedBody jobId (Job.status job') now))
    end.

(** ** [rateWorker] and [rateClient] *)

(** [!rating || rating < 1 || rating > 5] for a rating that is missing
    ([None]: [undefined] or [null]) or a JSON number. *)
Definition rating_rejected (rating : option Q) : bool :=
  match rating with
  | None => true
  | Some q => Qeq_bool q 0 || Qlt_bool q 1 || Qlt_bool 5 q
  end.

(** Validators of the review schema run by [newReview.save()]:
    [rating: { min: 1, max: 5 }] and [review: { maxlength: 500 }]; a
    failure throws and the [catch] answers 500. *)
Definition review_valid (r : Review.t) : bool :=
  Qle_bool 1 (Review.rating r) && Qle_bool (Review.rating r) 5
  && (String.length (Review.review r) <=? 500)%nat.

Definition findOne_review (st : Store) (p : Review.t -> bool) : option Review.t :=
  List.find p (reviews st).

Record RatedBody := mkRatedBody { rb_rating : Q }.

Definition rateWorker (st : Store) (jobId clientId : ObjectId)
    (rating : option Q) (review : option string) : Store * Response RatedBody :=
  if rating_rejected rating
  then (st, Fail 400 "Rating must be between 1 and 5")
  else
    match findOne_client st jobId clientId with
    | None => (st, Fail 404 "Job not found")
    | Some job =>
      if negb (bool_decide (Job.status job = completed))
      then (st, Fail 400 "Can only rate completed jobs")
      else
        match Job.workerId job with
        | None => (st, Fail 400 "No worker assigned to this job")
        | Some w =>
          match findOne_review st (fun r =>
                  bool_decide (Review.jobId r = jobId)
                  && bool_decide (Review.clientId r = clientId)
                  && bool_decide (Review.reviewType r = client_to_worker)) with
          | Some _ => (st, Fail 400 "Worker already rated for this job")
          | None =>
            let newReview :=
              Review.mk clientId w jobId client_to_worker
                        (default 0%Q rating)
                        (if truthy review then default EmptyString review
                         else EmptyString) in
            if negb (review_valid newReview)
            then (st, Fail 500 "Error rating worker")
            else (add_review newReview st,
                  Ok (mkRatedBody (Review.rating newReview)))
          end
        end
    end.

Definition rateClient (st : Store) (jobId workerId : ObjectId)
    (rating : option Q) (review : option string) : Store * Response RatedBody :=
  if rating_rejected rating
  then (st, Fail 400 "Rating must be between 1 and 5")
  else
    match findOne_worker st jobId workerId with
    | None => (st, Fail 404 "Job not found")
    | Some job =>
      if negb (bool_decide (Job.status job = completed))
      then (st, Fail 400 "Can only rate completed jobs")
      else
        match findOne_review st (fun r =>
                bool_decide (Review.jobId r = jobId)
                && bool_decide (Review.workerId r = workerId)
                && bool_decide (Review.reviewType r = worker_to_client)) with
        | Some _ => (st, Fail 400 "Client already rated for this job")
        | None =>
          let newReview :=
            Review.mk (Job.clientId job) workerId jobId worker_to_client
                      (default 0%Q rating)
                      (if truthy review then default EmptyString review
                       else EmptyString) in
          if negb (review_valid newReview)
          then (st, Fail 500 "Error rating client")
          else (add_review newReview st,
                Ok (mkRatedBody (Review.rating newReview)))
        end
    end.

(** ** [getCompletionOTP] (worker) *)

(** *** Arithmetic on doubles

    A product or sum of two doubles is the exact result rounded to the
    nearest double, ties to the even significand (IEEE 754 binary64).
    The doubles of the binade [2^e <= x < 2^(e+1)] are spaced [2^(e-52)]
    apart, and [2^-1074] apart below [2^-1022]; overflow does not arise
    for the magnitudes met here. *)
Definition pow2 (e : Z) : Q := (2 ^ e)%Q.

(** The binade of a positive [x]: [2^e <= x < 2^(e+1)]. *)
Definition binade (x : Q) : Z :=
  let e := (Z.log2 (Qnum x) - Z.log2 (Z.pos (Qden x)))%Z in
  if Qle_bool (pow2 e) x then e else (e - 1)%Z.

(** The nearest whole number, ties to even. *)
Definition round_even (x : Q) : Z :=
  let f := Qfloor x in
  match (x - inject_Z f ?= 1 # 2)%Q with
  | Lt => f
  | Gt => (f + 1)%Z
  | Eq => if Z.even f then f else (f + 1)%Z
  end.

(** The spacing of the doubles around a positive [x]. *)
Definition ulp (x : Q) : Q := pow2 (Z.max (binade x - 52) (-1074)).

Definition round_pos (x : Q) : Q :=
  (inject_Z (round_even (x / ulp x)) * ulp x)%Q.

(** The double nearest to [x]. *)
Definition round_double (x : Q) : Q :=
  match (x ?= 0)%Q with
  | Eq => 0%Q
  | Gt => round_pos x
  | Lt => (- round_pos (- x))%Q
  end.

(** [x] is a double. *)
Definition is_double (x : Q) : Prop := (round_double x == x)%Q.

(** [Math.floor(100000 + Math.random() * 900000).toString()], with the
    draw of [Math.random()] as the argument [r]: the product and the sum
    are rounded, the floor of a double is exact, and a whole number
    below [2^53] prints as its decimal digits. *)
Definition mint (r : Q) : string :=
  pretty (Qfloor (round_double (100000 + round_double (r * 900000)))).

Definition getCompletionOTP (st : Store) (jobId workerId : ObjectId) (r : Q)
  : Store * Response string :=
  match findOne_worker st jobId workerId with
  | None => (st, Fail 404 "Job not found or you are not assigned to this job")
  | Some job =>
    if negb (bool_decide (Job.status job = active))
    then (st, Fail 400 "Job must be active to generate completion OTP")
    else
      let completionOTP := mint r in
      let job' := Job.set_completionOTP (Some completionOTP) job in
      (set_jobs (<[jobId := job']> (jobs st)) st, Ok completionOTP)
  end.

(** ** [cancelJobByWorker] *)

(** [job.assignedAt] is no path of the schema; [status], [workerId] and
    [completionOTP] are the persisted changes. *)
Definition cancelJobByWorker (st : Store) (jobId workerId : ObjectId)
  : Store * Response JobStatusBody :=
  match findOne_worker st jobId workerId with
  | None => (st, Fail 404 "Job not found or you are not assigned to this job")
  | Some job =>
    if bool_decide (Job.status job ≠ assigned) && bool_decide (Job.status job ≠ active)
    then (st, Fail 400 ("Cannot cancel a job with status: "
                          +:+ status_name (Job.status job)))
    else
      let job' :=
        Job.set_completionOTP None
          (Job.set_workerId None (Job.set_status posted job)) in
      (set_jobs (<[jobId := job']> (jobs st)) st,
       Ok (mkJobStatusBody jobId (Job.status job')))
  end.

(** ** [acceptJob] (worker) *)

Record AcceptedBody := mkAcceptedBody {
  ab_id : ObjectId; ab_title : string; ab_status : Status;
  ab_workerId : option ObjectId
}.

(** [Job.find({ workerId, status: { $in: ['assigned', 'active'] } })] *)
Definition activeJobs (st : Store) (workerId : ObjectId) : list (ObjectId * Job.t) :=
  find_jobs st (fun _ job =>
    bool_decide (Job.workerId job = Some workerId) && held (Job.status job)).

(** The conditional update
    [Job.findOneAndUpdate({ _id: jobId, status: 'posted', workerId: null },
                          { workerId, status: 'assigned' }, { new: true })]:
    one indivisible operation of the store, returning the updated document
    or [null]. *)
Definition claim (st : Store) (jobId workerId : ObjectId) : Store * option Job.t :=
  match jobs st !! jobId with
  | Some job =>
    if bool_decide (Job.status job = posted) && bool_decide (Job.workerId job = None)
    then
      let job' := Job.set_status assigned (Job.set_workerId (Some workerId) job) in
      (set_jobs (<[jobId := job']> (jobs st)) st, Some job')
    else (st, None)
  | None => (st, None)
  end.

(** [Job.findByIdAndUpdate(jobId, { workerId: null, status: 'posted' })] *)
Definition rollback (st : Store) (jobId : ObjectId) : Store :=
  match jobs st !! jobId with
  | Some job =>
    set_jobs (<[jobId := Job.set_status posted (Job.set_workerId None job)]> (jobs st)) st
  | None => st
  end.

(** The answer after the re-read [Job.findById(jobId)] that follows a
    claim which matched nothing. *)
Definition reread_response (existingJob : option Job.t) : Response AcceptedBody :=
  match existingJob with
  | None => Fail 404 "Job not found"
  | Some e =>
    if bool_decide (is_Some (Job.workerId e))
    then Fail 409 "Another worker selected this job before you"
    else Fail 400 "Job is no longer available"
  end.

Definition too_many : Response AcceptedBody :=
  Fail 400 "You already have an active job. Complete it before accepting a new one.".

Definition accepted (jobId : ObjectId) (job : Job.t) : Response AcceptedBody :=
  Ok (mkAcceptedBody jobId (Job.title job) (Job.status job) (Job.workerId job)).

(** The handler run without interruption. *)
Definition acceptJob (st : Store) (jobId workerId : ObjectId)
  : Store * Response AcceptedBody :=
  if (0 <? length (activeJobs st workerId))%nat
  then (st, too_many)
  else
    match claim st jobId workerId with
    | (st1, None) => (st1, reread_response (jobs st1 !! jobId))
    | (st1, Some job) =>
      match workers st1 !! workerId with
      | None => (rollback st1 jobId, Fail 404 "Worker not found")
      | Some worker =>
        if negb (includes (Worker.skills worker) (Job.skill job))
        then (rollback st1 jobId,
              Fail 400 "You do not have the required skill for this job")
        else (st1, accepted jobId job)
      end
    end.

(** *** The handler between its [await]s

    A request is suspended at each [await]; other requests run in
    between.  The program points of [acceptJob] are the five store
    operations it awaits; each is atomic in the store. *)
Inductive AcceptPC :=
| AtPrecheck                                (* before [Job.find] *)
| AtClaim                                   (* before [findOneAndUpdate] *)
| AtReread                                  (* before [Job.findById] *)
| AtWorkerLookup (job : Job.t)              (* before [Worker.findById] *)
| AtRollback (resp : Response AcceptedBody) (* before [findByIdAndUpdate] *)
| Responded (resp : Response AcceptedBody).

Definition acceptJob_step (jobId workerId : ObjectId) (st : Store) (pc : AcceptPC)
  : Store * AcceptPC :=
  match pc with
  | AtPrecheck =>
    if (0 <? length (activeJobs st workerId))%nat
    then (st, Responded too_many)
    else (st, AtClaim)
  | AtClaim =>
    match claim st jobId workerId with
    | (st1, None) => (st1, AtReread)
    | (st1, Some job) => (st1, AtWorkerLookup job)
    end
  | AtReread => (st, Responded (reread_response (jobs st !! jobId)))
  | AtWorkerLookup job =>
    match workers st !! workerId with
    | None => (st, AtRollback (Fail 404 "Worker not found"))
    | Some worker =>
      if negb (includes (Worker.skills worker) (Job.skill job))
      then (st, AtRollback (Fail 400 "You do not have the required skill for this job"))
      else (st, Responded (accepted jobId job))
    end
  | AtRollback resp => (rollback st jobId, Responded resp)
  | Responded _ => (st, pc)
  end.

(** [n] consecutive steps of one request. *)
Fixpoint steps (n : nat) (jobId w : ObjectId) (st : Store) (pc : AcceptPC)
  : Store * AcceptPC :=
  match n with
  | O => (st, pc)
  | S n => let '(st', pc') := acceptJob_step jobId w st pc in steps n jobId w st' pc'
  end.


(** Concurrent accept requests: the shared store and one program point
    per request in flight. *)
Record Request := mkRequest {
  rq_job : ObjectId; rq_worker : ObjectId; rq_pc : AcceptPC
}.

Record System := mkSystem { db : Store; requests : list Request }.

(** Request [i] runs up to its next [await]. *)
Definition sys_step (i : nat) (s : System) : System :=
  match requests s !! i with
  | Some r =>
    let '(st', pc') := acceptJob_step (rq_job r) (rq_worker r) (db s) (rq_pc r) in
    mkSystem st' (<[i := mkRequest (rq_job r) (rq_worker r) pc']> (requests s))
  | None => s
  end.

(** A schedule names the request that moves at each instant. *)
Definition run (sched : list nat) (s : System) : System :=
  foldl (fun s i => sys_step i s) s sched.

(** [ws] workers fire an accept for [jobId] at once. *)
Definition fire (st : Store) (jobId : ObjectId) (ws : list ObjectId) : System :=
  mkSystem st ((fun w => mkRequest jobId w AtPrecheck) <$> ws).

Definition answered_ok (r : Request) : bool :=
  match rq_pc r with Responded (Ok _) => true | _ => false end.

Definition answered (r : Request) : bool :=
  match rq_pc r with Responded _ => true | _ => false end.

(** The request is past a conditional update that matched. *)
Definition claimed (r : Request) : bool :=
  match rq_pc r with
  | AtWorkerLookup _ | AtRollback _ | Responded (Ok _) => true
  | _ => false
  end.

Definition count (p : Request -> bool) (s : System) : nat :=
  length (List.filter p (requests s)).

Definition b2n (b : bool) : nat := if b then 1%nat else 0%nat.

(** Worker [w] holds job [jobId]. *)
Definition holds (st : Store) (w jobId : ObjectId) : Prop :=
  ∃ job, jobs st !! jobId = Some job ∧ Job.workerId job = Some w
         ∧ held (Job.status job) = true.

(** A posted, unclaimed job. *)
Definition claimable (st : Store) (jobId : ObjectId) : Prop :=
  ∃ job, jobs st !! jobId = Some job ∧ Job.status job = posted
         ∧ Job.workerId job = None.

(** ** [getAvailableJobs] (worker) *)

(** [utils/distance.js]: [isValidCoordinates(lat, lon)] *)
Definition isValidCoordinates (lat lon : option Q) : bool :=
  match lat, lon with
  | Some la, Some lo =>
    Qle_bool (-90) la && Qle_bool la 90 && Qle_bool (-180) lo && Qle_bool lo 180
  | _, _ => false
  end.

Definition valid_location (a : Address) : option (Q * Q) :=
  match location a with
  | Some l =>
    if isValidCoordinates (lat l) (lon l)
    then match lat l, lon l with
         | Some la, Some lo => Some (la, lo)
         | _, _ => None
         end
    else None
  | None => None
  end.

(** [req.query] after parsing: [page] and [limit] as the integers they
    denote, [maxDistance] as the result of [parseFloat] ([Some None] is
    [NaN]); an absent parameter is [None] and takes the default of the
    destructuring pattern
    [{ page = 1, limit = 50, skill, maxDistance = 25, urgency, sortBy = 'distance' }]. *)
Record AvailableQuery := mkAvailableQuery {
  q_page : option Z;
  q_limit : option Z;
  q_skill : option string;
  q_maxDistance : option (option Q);
  q_urgency : option string;
  q_sortBy : option string
}.

Definition page_of (q : AvailableQuery) : Z := default 1%Z (q_page q).
Definition limit_of (q : AvailableQuery) : Z := default 50%Z (q_limit q).
Definition maxDistance_of (q : AvailableQuery) : option Q :=
  default (Some 25%Q) (q_maxDistance q).
Definition sortBy_of (q : AvailableQuery) : string :=
  default "distance" (q_sortBy q).

(** A job of the answer: the document, its [_id] and the added
    [distance] ([None] is [null]). *)
Record JobWithDistance := mkJobWithDistance {
  jd_id : ObjectId; jd_job : Job.t; distance : option Q
}.

(** The query built for [Job.find]:
    [{ status: 'posted', workerId: null }], then the skill and urgency
    filters. *)
Definition available_query (worker : Worker.t) (q : AvailableQuery)
    (_ : ObjectId) (job : Job.t) : bool :=
  bool_decide (Job.status job = posted)
  && bool_decide (Job.workerId job = None)
  && (if truthy (q_skill q)
         && negb (bool_decide (q_skill q = Some "All Services"))
         && negb (bool_decide (q_skill q = Some "For you"))
      then bool_decide (Some (Job.skill job) = q_skill q)
      else if bool_decide (q_skill q = Some "For you")
      then includes (Worker.skills worker) (Job.skill job)
      else true)
  && (if bool_decide (q_urgency q = Some "true") then Job.urgency job else true).

(** [Array.prototype.sort(cmp)]: the sort is stable, and for a comparator
    that is a total preorder its result is the one stable ordering;
    insertion from the right computes it.  [cmp a b <= 0] keeps [a]
    before [b]. *)
Fixpoint insert_sorted {A} (cmp : A -> A -> Q) (x : A) (l : list A) : list A :=
  match l with
  | [] => [x]
  | y :: l' => if Qle_bool (cmp x y) 0 then x :: l else y :: insert_sorted cmp x l'
  end.

Definition sort {A} (cmp : A -> A -> Q) (l : list A) : list A :=
  foldr (insert_sorted cmp) [] l.

(** [a] may stand before [b] for the comparator [cmp]. *)
Definition keeps {A} (cmp : A -> A -> Q) (a b : A) : Prop :=
  Qle_bool (cmp a b) 0 = true.

(** [new Date(b.createdAt) - new Date(a.createdAt)] *)
Definition newest_first (a b : Job.t) : Q :=
  inject_Z (Job.createdAt b - Job.createdAt a).

(** The comparator passed to [.sort] in [getAvailableJobs]. *)
Definition compare_available (sortBy : string) (a b : JobWithDistance) : Q :=
  if String.eqb sortBy "distance" then
    match distance a, distance b with
    | None, None => newest_first (jd_job a) (jd_job b)
    | None, Some _ => 1
    | Some _, None => -1
    | Some da, Some db => da - db
    end
  else newest_first (jd_job a) (jd_job b).

(** [arr.slice(start, end)] with its treatment of negative and
    out-of-range bounds. *)
Definition slice {A} (l : list A) (start finish : Z) : list A :=
  let len := Z.of_nat (length l) in
  let k := if (start <? 0)%Z then Z.max (len + start) 0 else Z.min start len in
  let final := if (finish <? 0)%Z then Z.max (len + finish) 0 else Z.min finish len in
  take (Z.to_nat (final - k)) (drop (Z.to_nat k) l).

Record Pagination := mkPagination {
  pg_page : Z; pg_limit : Z; pg_total : Z;
  (** [Math.ceil(total / limit)]; [None] when [limit] is 0 *)
  pg_pages : option Z
}.

Record AvailableBody := mkAvailableBody {
  av_jobs : list JobWithDistance;
  av_pagination : Pagination;
  av_availableSkills : list string;
  av_currentCity : option string;
  av_workerLocation : option Location
}.

Section Available.

(** [calculateRoadDistance(lat1, lon1, lat2, lon2)]: the road distance
    in kilometres, answered by the routing service or by the haversine
    fallback. *)
Variable calculateRoadDistance : Q -> Q -> Q -> Q -> Q.

(** [calculateJobDistances(workerLocation, jobs)]: an object from job
    id to distance, with an entry for each job that has valid
    coordinates.  [w] is a worker location that [isValidCoordinates]
    accepts: the handler checks it before the call, so the guard at the
    head of the function does not fire. *)
Definition calculateJobDistances (w : Q * Q) (js : list (ObjectId * Job.t))
  : gmap ObjectId Q :=
  foldl (fun distances kv =>
           match valid_location (Job.address kv.2) with
           | Some (la, lo) =>
             <[kv.1 := calculateRoadDistance w.1 w.2 la lo]> distances
           | None => distances
           end) ∅ js.

(** [distances[job._id] || null] *)
Definition or_null (d : option Q) : option Q :=
  match d with
  | Some x => if Qeq_bool x 0 then None else Some x
  | None => None
  end.

(** [job.distance === null || job.distance <= parseFloat(maxDistance)] *)
Definition within (maxDistance : option Q) (j : JobWithDistance) : bool :=
  match distance j with
  | None => true
  | Some d =>
    match maxDistance with
    | Some m => Qle_bool d m
    | None => false
    end
  end.

(** [jobsWithDistance], the list that is then paginated.  [Job.find]
    returns the matches sorted by [{ createdAt: -1 }]; the client
    reference that [populate] expands stays an id here. *)
Definition jobsWithDistance (st : Store) (worker : Worker.t) (q : AvailableQuery)
  : list JobWithDistance :=
  let found :=
    sort (fun a b => newest_first a.2 b.2) (find_jobs st (available_query worker q)) in
  match valid_location (Worker.address worker) with
  | Some w =>
    let distances := calculateJobDistances w found in
    sort (compare_available (sortBy_of q))
      (List.filter (within (maxDistance_of q))
         ((fun kv => mkJobWithDistance kv.1 kv.2 (or_null (distances !! kv.1)))
            <$> found))
  | None => (fun kv => mkJobWithDistance kv.1 kv.2 None) <$> found
  end.

(** The distance that the answer shows for [job] to a worker at [w]. *)
Definition job_distance (w : Q * Q) (job : Job.t) : option Q :=
  or_null (match valid_location (Job.address job) with
           | Some (la, lo) => Some (calculateRoadDistance w.1 w.2 la lo)
           | None => None
           end).

Definition getAvailableJobs (st : Store) (workerId : ObjectId) (q : AvailableQuery)
  : Response AvailableBody :=
  match workers st !! workerId with
  | None => Fail 404 "Worker not found"
  | Some worker =>
    let all := jobsWithDistance st worker q in
    let skip := ((page_of q - 1) * limit_of q)%Z in
    let paginatedJobs := slice all skip (skip + limit_of q) in
    let total := Z.of_nat (length all) in
    Ok (mkAvailableBody paginatedJobs
          (mkPagination (page_of q) (limit_of q) total
             (if (limit_of q =? 0)%Z then None
              else Some (- ((- total) / limit_of q))%Z))
          (Worker.skills worker)
          (city (Worker.address worker))
          (location (Worker.address worker)))
  end.

End Available.

(** Newest first. *)
Definition by_recency (a b : JobWithDistance) : Prop :=
  (Job.createdAt (jd_job b) ≤ Job.createdAt (jd_job a))%Z.

(** Closest first, the jobs without distance last and newest first among
    themselves. *)
Definition by_distance (a b : JobWithDistance) : Prop :=
  match distance a, distance b with
  | Some da, Some db => (da <= db)%Q
  | Some _, None => True
  | None, Some _ => False
  | None, None => by_recency a b
  end.

(** ** The operations that write to the job collection *)

Inductive Op :=
| OpCreateJob (req : CreateJobReq)
| OpCancelJob (jobId clientId : ObjectId)
| OpStartJob (jobId clientId : ObjectId)
| OpCompleteJob (jobId clientId : ObjectId) (otp : option string) (now : Date)
| OpRateWorker (jobId clientId : ObjectId) (rating : option Q) (review : option string)
| OpAcceptJob (jobId workerId : ObjectId)
| OpGetCompletionOTP (jobId workerId : ObjectId) (r : Q)
| OpCancelJobByWorker (jobId workerId : ObjectId)
| OpRateClient (jobId workerId : ObjectId) (rating : option Q) (review : option string).

(** The store after a request has been served from its first [await] to
    its answer with no other request in between. *)
Definition exec (st : Store) (op : Op) : Store :=
  match op with
  | OpCreateJob req => (createJob st req).1
  | OpCancelJob j c => (cancelJob st j c).1
  | OpStartJob j c => (startJob st j c).1
  | OpCompleteJob j c otp now => (completeJob st j c otp now).1
  | OpRateWorker j c r t => (rateWorker st j c r t).1
  | OpAcceptJob j w => (acceptJob st j w).1
  | OpGetCompletionOTP j w r => (getCompletionOTP st j w r).1
  | OpCancelJobByWorker j w => (cancelJobByWorker st j w).1
  | OpRateClient j w r t => (rateClient st j w r t).1
  end.

(** ** Requests in flight

    One request is suspended at an [await] while others are served.
    [Resume] runs the suspended request up to its next [await];
    [Whole op] serves another request from its first [await] to its
    answer, which is one of the ways that request can run. *)
Inductive Pending :=
| PendingAccept (jobId workerId : ObjectId) (pc : AcceptPC)
| PendingStart (jobId clientId : ObjectId) (pc : StartPC).

Inductive Move := Resume | Whole (op : Op).

Definition move (s : Store * Pending) (m : Move) : Store * Pending :=
  match m with
  | Whole op => (exec s.1 op, s.2)
  | Resume =>
    match s.2 with
    | PendingAccept jobId w pc =>
      let '(st', pc') := acceptJob_step jobId w s.1 pc in
      (st', PendingAccept jobId w pc')
    | PendingStart jobId c pc =>
      let '(st', pc') := startJob_step jobId c s.1 pc in
      (st', PendingStart jobId c pc')
    end
  end.

Definition interleave (st : Store) (p : Pending) (ms : list Move)
  : Store * Pending :=
  foldl move (st, p) ms.

(** ** The invariants of the data model *)

(** [completionOTP] is non-null only while [status = active]. *)
Definition otp_only_active (st : Store) : Prop :=
  ∀ id job, jobs st !! id = Some job →
    is_Some (Job.completionOTP job) → Job.status job = active.

(** [workerId] is non-null iff [status] is assigned, active or completed. *)
Definition worker_iff_taken (st : Store) : Prop :=
  ∀ id job, jobs st !! id = Some job →
    (is_Some (Job.workerId job) ↔ Job.status job ∈ [assigned; active; completed]).

(** Every stored completion code was produced by [getCompletionOTP]. *)
Definition otps_minted (st : Store) : Prop :=
  ∀ id job c, jobs st !! id = Some job →
    Job.completionOTP job = Some c → ∃ r, c = mint r.

(** ** The life cycle of a job document

    [job_step before after] relates the document stored under one id
    before and after a request: the transitions of the life cycle, each
    with its guard. *)
Inductive job_step : option Job.t → option Job.t → Prop :=
| step_none o : job_step o o
| step_create job :
    Job.status job = posted → Job.workerId job = None →
    Job.completionOTP job = None →
    job_step None (Some job)
| step_claim job w :
    Job.status job = posted → Job.workerId job = None →
    job_step (Some job)
             (Some (Job.set_status assigned (Job.set_workerId (Some w) job)))
| step_start job :
    Job.status job = assigned →
    job_step (Some job) (Some (Job.set_status active job))
| step_mint job r :
    Job.status job = active →
    job_step (Some job) (Some (Job.set_completionOTP (Some (mint r)) job))
| step_complete job :
    Job.status job = active →
    job_step (Some job)
             (Some (Job.set_completionOTP None (Job.set_status completed job)))
| step_release job :
    held (Job.status job) = true →
    job_step (Some job)
             (Some (Job.set_completionOTP None
                      (Job.set_workerId None (Job.set_status posted job))))
| step_delete job :
    Job.status job ∈ [posted; assigned] →
    job_step (Some job) None.

(** A request touches the document of one id. *)
Definition touches (st st' : Store) (id : ObjectId) : Prop :=
  job_step (jobs st !! id) (jobs st' !! id)
  ∧ ∀ id', id' ≠ id → jobs st' !! id' = jobs st !! id'.

(** The stores reached from the empty job collection by serving
    requests one after the other. *)
Definition serve (workers0 : gmap ObjectId Worker.t) (ops : list Op) : Store :=
  foldl exec (mkStore ∅ workers0 [] []) ops.

(** ** The steps of an accept request as a relation

    One rule for each way a request gets from an [await] to the next. *)
Inductive accept_trans (jobId w : ObjectId)
  : Store → AcceptPC → Store → AcceptPC → Prop :=
| t_busy st :
    (∃ id, holds st w id) →
    accept_trans jobId w st AtPrecheck st (Responded too_many)
| t_free st :
    (∀ id, ¬ holds st w id) →
    accept_trans jobId w st AtPrecheck st AtClaim
| t_claim st job :
    jobs st !! jobId = Some job → Job.status job = posted →
    Job.workerId job = None →
    accept_trans jobId w st AtClaim
      (set_jobs (<[jobId := Job.set_status assigned (Job.set_workerId (Some w) job)]>
                   (jobs st)) st)
      (AtWorkerLookup (Job.set_status assigned (Job.set_workerId (Some w) job)))
| t_lost st :
    ¬ claimable st jobId →
    accept_trans jobId w st AtClaim st AtReread
| t_reread st :
    accept_trans jobId w st AtReread st
      (Responded (reread_response (jobs st !! jobId)))
| t_no_worker st job :
    workers st !! w = None →
    accept_trans jobId w st (AtWorkerLookup job) st
      (AtRollback (Fail 404 "Worker not found"))
| t_no_skill st job worker :
    workers st !! w = Some worker →
    includes (Worker.skills worker) (Job.skill job) = false →
    accept_trans jobId w st (AtWorkerLookup job) st
      (AtRollback (Fail 400 "You do not have the required skill for this job"))
| t_accept st job worker :
    workers st !! w = Some worker →
    includes (Worker.skills worker) (Job.skill job) = true →
    accept_trans jobId w st (AtWorkerLookup job) st (Responded (accepted jobId job))
| t_rollback st resp :
    accept_trans jobId w st (AtRollback resp) (rollback st jobId) (Responded resp)
| t_done st resp :
    accept_trans jobId w st (Responded resp) st (Responded resp).

(** The answers [acceptJob] gives: success, or 400, 404, 409. *)
Definition known_answer (resp : Response AcceptedBody) : Prop :=
  is_ok resp = true ∨ status_code resp ∈ [400%Z; 404%Z; 409%Z].

(** What holds of the requests for [jobId] whatever the workers are: a
    request waits for the rollback only with an error to send, at most
    one request is past a matching claim, and none while the job can be
    claimed. *)
Definition accept_inv (jobId : ObjectId) (s : System) : Prop :=
  Forall (λ r, rq_job r = jobId
               ∧ match rq_pc r with
                 | AtRollback resp => is_ok resp = false ∧ known_answer resp
                 | Responded resp => known_answer resp
                 | _ => True
                 end) (requests s)
  ∧ (count claimed s ≤ 1)%nat
  ∧ (claimable (db s) jobId → count claimed s = 0%nat).

(** A worker who may take [job]: registered, skilled, without a job. *)
Definition eligible (st : Store) (job : Job.t) (w : ObjectId) : Prop :=
  (∃ worker, workers st !! w = Some worker
             ∧ includes (Worker.skills worker) (Job.skill job) = true)
  ∧ ∀ id, ¬ holds st w id.

(** What holds when all the requests for the posted [job] come from
    eligible workers: either nobody has claimed yet and every request is
    before its claim, or the job is assigned, one request is past its
    claim, none rolls back and the others were or will be turned away
    with 400 or 409. *)
Definition race_inv (st : Store) (jobId : ObjectId) (job : Job.t) (s : System) : Prop :=
  workers (db s) = workers st
  ∧ Forall (λ r, rq_job r = jobId ∧ eligible st job (rq_worker r)) (requests s)
  ∧ ((jobs (db s) = jobs st
      ∧ Forall (λ r, rq_pc r = AtPrecheck ∨ rq_pc r = AtClaim) (requests s))
     ∨ (∃ w, jobs (db s)
             = <[jobId := Job.set_status assigned (Job.set_workerId (Some w) job)]>
                 (jobs st))
       ∧ count claimed s = 1%nat
       ∧ Forall (λ r, match rq_pc r with
                      | AtRollback _ => False
                      | AtWorkerLookup j => Job.skill j = Job.skill job
                      | Responded resp =>
                        is_ok resp = true ∨ status_code resp ∈ [400%Z; 409%Z]
                      | _ => True
                      end) (requests s)).

(** ** Sample data *)

Definition no_address : Address := mkAddress None None.

(** A job of client 10 with skill [plumber]. *)
Definition sample_job (w : option ObjectId) (s : Status) (otp : option string) : Job.t :=
  Job.mk 10%positive w "Fix the kitchen tap" "The tap drips" None None "plumber"
         false (mkAddress (Some "Pune") None) s None otp pay_completed
         (Some "pay_0001") 1000%Z.

Definition plumber : Worker.t := Worker.mk ["plumber"] no_address.
Definition electrician : Worker.t := Worker.mk ["electrician"] no_address.

(** Workers 20 (a plumber) and 21 (an electrician). *)
Definition sample_workers : gmap ObjectId Worker.t :=
  <[20%positive := plumber]> (<[21%positive := electrician]> ∅).

(** Job 1 alone, in the given state. *)
Definition store_with (w : option ObjectId) (s : Status) (otp : option string) : Store :=
  mkStore (<[1%positive := sample_job w s otp]> ∅) sample_workers [] [].

(** Job 1 posted; job 2 assigned to worker 20. *)
Definition store_busy : Store :=
  mkStore (<[1%positive := sample_job None posted None]>
             (<[2%positive := sample_job (Some 20%positive) assigned None]> ∅))
          sample_workers [] [].

(** A stand-in for the distance estimator: 111 km per degree along the
    axes. *)
Definition grid_distance (lat1 lon1 lat2 lon2 : Q) : Q :=
  (111 * (Qabs (lat2 - lat1) + Qabs (lon2 - lon1)))%Q.

Definition job_at (la lo : Q) (created : Date) : Job.t :=
  Job.mk 10%positive None "Fix the kitchen tap" "The tap drips" None None "plumber"
         false (mkAddress (Some "Pune") (Some (mkLocation (Some la) (Some lo))))
         posted None None pay_completed (Some "pay_0001") created.

(** A plumber in Pune; job 1 is older and 1.11 km away, job 2 is newer
    and 11.1 km away. *)
Definition store_near_far : Store :=
  mkStore (<[1%positive := job_at (185 # 10) (7381 # 100) 1000%Z]>
             (<[2%positive := job_at (185 # 10) (739 # 10) 2000%Z]> ∅))
          (<[20%positive :=
               Worker.mk ["plumber"]
                 (mkAddress (Some "Pune")
                    (Some (mkLocation (Some (185 # 10)) (Some (738 # 10)))))]> ∅)
          [] [].

Definition no_query : AvailableQuery := mkAvailableQuery None None None None None None.

(** ** Further definitions: the life cycle as a whole *)

(** The parties of a request on a job: the client or the worker named
    by the token. *)
Inductive Actor := ClientActor (c : ObjectId) | WorkerActor (w : ObjectId).

Definition actor (op : Op) : Actor :=
  match op with
  | OpCreateJob req => ClientActor (cj_clientId req)
  | OpCancelJob _ c | OpStartJob _ c | OpCompleteJob _ c _ _
  | OpRateWorker _ c _ _ => ClientActor c
  | OpAcceptJob _ w | OpGetCompletionOTP _ w _ | OpCancelJobByWorker _ w
  | OpRateClient _ w _ _ => WorkerActor w
  end.

(** The actor is a party of the document. *)
Definition party (a : Actor) (job : Job.t) : Prop :=
  match a with
  | ClientActor c => Job.clientId job = c
  | WorkerActor w => Job.workerId job = Some w
  end.

(** The fields of a job that no request writes after creation. *)
Definition same_posting (a b : Job.t) : Prop :=
  Job.clientId a = Job.clientId b ∧ Job.title a = Job.title b
  ∧ Job.description a = Job.description b ∧ Job.image a = Job.image b
  ∧ Job.imagePublicId a = Job.imagePublicId b ∧ Job.skill a = Job.skill b
  ∧ Job.urgency a = Job.urgency b ∧ Job.address a = Job.address b
  ∧ Job.paymentStatus a = Job.paymentStatus b
  ∧ Job.paymentId a = Job.paymentId b ∧ Job.createdAt a = Job.createdAt b.

(** A worker holds at most one job. *)
Definition one_job_per_worker (st : Store) : Prop :=
  ∀ w id1 id2, holds st w id1 → holds st w id2 → id1 = id2.

(** Every review is about a completed job, names its client and its
    worker, and satisfies the validators of the review schema. *)
Definition reviews_sound (st : Store) : Prop :=
  ∀ r, r ∈ reviews st →
    review_valid r = true
    ∧ ∃ job, jobs st !! Review.jobId r = Some job
             ∧ Job.status job = completed
             ∧ Job.clientId job = Review.clientId r
             ∧ Job.workerId job = Some (Review.workerId r).

(** At most one review for each job and direction. *)
Definition reviews_unique (st : Store) : Prop :=
  NoDup ((λ r, (Review.jobId r, Review.reviewType r)) <$> reviews st).


(** A string of white space only. *)
Fixpoint blank (s : string) : bool :=
  match s with
  | EmptyString => true
  | String a s' => is_space a && blank s'
  end.

(** A request to post a plumbing job in Pune, without image. *)
Definition sample_req (title : string) (newId : ObjectId) : CreateJobReq :=
  mkCreateJobReq 10%positive (Some "plumber") (Some title) (Some "The tap drips")
                 None (addr_value (mkAddress (Some "Pune") None)) None newId
                 1000%Z "0001".

(** Worker 20 takes the job that client 10 posts, and the job is
    completed and rated. *)
Definition sample_history : list Op :=
  [ OpCreateJob (sample_req "Fix the tap" 1%positive);
    OpAcceptJob 1%positive 20%positive;
    OpStartJob 1%positive 10%positive;
    OpGetCompletionOTP 1%positive 20%positive (1 # 2);
    OpCompleteJob 1%positive 10%positive (Some (mint (1 # 2))) 5000%Z;
    OpRateWorker 1%positive 10%positive (Some 5%Q) (Some "Quick and clean") ].



(** ** [utils/distance.js]: road distances and their cache *)

(** The coordinates of [location], when it has both and
    [isValidCoordinates] accepts them. *)
Definition valid_coordinates (l : option Location) : option (Q * Q) :=
  valid_location (mkAddress None l).

Module Distance.
Section RoadDistance.
Context {K : Type} `{Countable K}.

(** The cache key [`${lat1},${lon1}-${lat2},${lon2}`]; how numbers print
    is left open. *)
Variable cacheKey : Q → Q → Q → Q → K.

(** [calculateHaversineDistance], a formula in floating-point sines and
    square roots. *)
Variable calculateHaversineDistance : Q → Q → Q → Q → Q.

(** The answer to the [n]-th request to the routing service: the length
    in metres of the first segment of the first route, or nothing when
    the request fails, times out or the answer has no route. *)
Variable route : nat → option Q.

(** The module state: [distanceCache] and the number of requests sent so
    far. *)
Record Routing := mkRouting { distanceCache : gmap K Q; requests : nat }.

Definition calculateRoadDistance (r : Routing) (lat1 lon1 lat2 lon2 : Q)
  : Routing * Q :=
  let key := cacheKey lat1 lon1 lat2 lon2 in
  match distanceCache r !! key with
  | Some d => (r, d)
  | None =>
    let distance :=
      match route (requests r) with
      | Some distanceMeters => (distanceMeters / 1000)%Q
      | None => calculateHaversineDistance lat1 lon1 lat2 lon2
      end in
    (mkRouting (<[key := distance]> (distanceCache r)) (S (requests r)), distance)
  end.

(** One turn of the loop of [calculateJobDistances]. *)
Definition job_distance_step (w : Q * Q) (acc : Routing * gmap ObjectId Q)
    (kv : ObjectId * Job.t) : Routing * gmap ObjectId Q :=
  match valid_location (Job.address kv.2) with
  | Some (la, lo) =>
    let (r', distance) := calculateRoadDistance acc.1 w.1 w.2 la lo in
    (r', <[kv.1 := distance]> acc.2)
  | None => acc
  end.

(** [calculateJobDistances(workerLocation, jobs)] with the cache it reads
    and writes. *)
Definition calculateJobDistances (r : Routing) (workerLocation : option Location)
    (js : list (ObjectId * Job.t)) : Routing * gmap ObjectId Q :=
  match valid_coordinates workerLocation with
  | None => (r, ∅)
  | Some w => foldl (job_distance_step w) (r, ∅) js
  end.

(** The distances that a cache holds, read as an estimator. *)
Definition cached (c : gmap K Q) (lat1 lon1 lat2 lon2 : Q) : Q :=
  default 0%Q (c !! cacheKey lat1 lon1 lat2 lon2).

End RoadDistance.
End Distance.

(** A key for the samples: numerators and denominators. *)
Definition sample_key (lat1 lon1 lat2 lon2 : Q) : list Z :=
  (Qnum <$> [lat1; lon1; lat2; lon2])
  ++ ((λ q : Q, Z.pos (Qden q)) <$> [lat1; lon1; lat2; lon2]).

(** ** [middleware/auth.js] and the accounts it reads *)

Module Auth.

(** The fields of a [Client] or [Worker] document that the middleware
    and the admin controller read and write. *)
Record User := mkUser {
  name : string;
  email : string;
  isTemporary : bool;
  blocked : bool
}.

Definition set_blocked (b : bool) (u : User) : User :=
  mkUser (name u) (email u) (isTemporary u) b.

(** The collections [Client] and [Worker]. *)
Record Accounts := mkAccounts {
  clients : gmap ObjectId User;
  workers : gmap ObjectId User
}.

(** What [jwt.verify] gives: the payload [{ userId, role }], or an
    error, which is a [TokenExpiredError] or another one. *)
Inductive Verified :=
| Decoded (userId : ObjectId) (role : string)
| TokenExpiredError
| JsonWebTokenError.

(** The parts of a request that the middleware reads: the header
    [authorization] and the cookies. *)
Record Req := mkReq {
  authorization : option string;
  access_token : option string;
  token : option string;
  refresh_token : option string
}.

(** [req.user] *)
Record ReqUser := mkReqUser {
  userId : ObjectId;
  role : string;
  user_email : string;
  user_name : string
}.

(** The middleware calls [next()], with [req.user] and the cookies it
    has set, or answers itself.  A token that [jwt.verify] has accepted
    or found expired was checked against the configured secret, so
    [jwt.sign] with that secret succeeds and the cookies are set. *)
Inductive Outcome :=
| Next (user : ReqUser) (cookies : list string)
| Deny (code : Z) (message : string).

(** [a || b] on strings that may be undefined. *)
Definition or_else (a b : option string) : option string :=
  if truthy a then a else b.

(** The token of a request: what follows ["Bearer "] in the header, or
    else the cookie [access_token], or else the cookie [token]. *)
Definition token_of (req : Req) : option string :=
  match authorization req with
  | Some authHeader =>
    if String.prefix "Bearer " authHeader
    then Some (String.substring 7 (String.length authHeader - 7) authHeader)
    else or_else (access_token req) (token req)
  | None => or_else (access_token req) (token req)
  end.

(** [Client.findById] or [Worker.findById], by [decoded.role]; no user
    for another role.  A [userId] that is no [ObjectId] makes [findById]
    throw, which the middleware answers as it answers a missing user. *)
Definition find_user (accts : Accounts) (role : string) (id : ObjectId)
  : option User :=
  if String.eqb role "client" then clients accts !! id
  else if String.eqb role "worker" then workers accts !! id
  else None.

Definition restricted : string :=
  "Your account has been restricted. Contact support for assistance.".

Section Middleware.

(** [jwt.verify(·, JWT_SECRET)] and
    [jwt.verify(·, JWT_REFRESH_SECRET || JWT_SECRET)] at the time of the
    request. *)
Variable verify : string → Verified.
Variable verify_refresh : string → Verified.

Definition refreshAndContinue (accts : Accounts) (req : Req) : Outcome :=
  if negb (truthy (refresh_token req))
  then Deny 401 "Access denied. No refresh token."
  else
    match verify_refresh (default EmptyString (refresh_token req)) with
    | Decoded id r =>
      match find_user accts r id with
      | Some user =>
        if isTemporary user
        then Deny 401 "Invalid refresh token."
        else Next (mkReqUser id r (email user) (name user))
                  ["access_token"; "refresh_token"]
      | None => Deny 401 "Invalid refresh token."
      end
    | _ => Deny 401 "Invalid refresh token."
    end.

Definition authenticateToken (accts : Accounts) (req : Req) : Outcome :=
  if negb (truthy (token_of req))
  then Deny 401 "Access denied. No token provided."
  else
    match verify (default EmptyString (token_of req)) with
    | Decoded id r =>
      match find_user accts r id with
      | Some user =>
        if isTemporary user then Deny 401 "Invalid token."
        else if blocked user then Deny 403 restricted
        else Next (mkReqUser id r (email user) (name user)) ["access_token"]
      | None => Deny 401 "Invalid token."
      end
    | TokenExpiredError =>
      if truthy (refresh_token req)
      then refreshAndContinue accts req
      else Deny 401 "Invalid token."
    | JsonWebTokenError => Deny 401 "Invalid token."
    end.

(** [requireRole(role)] *)
Definition requireRole (role0 : string) (user : ReqUser) : option (Z * string) :=
  if negb (String.eqb (role user) role0)
  then Some (403%Z, "Access denied. " +:+ role0 +:+ " role required.")
  else None.

(** The chain [authenticateToken, requireRole(role)] in front of every
    handler of [routes/jobs.js]. *)
Definition guard (role0 : string) (accts : Accounts) (req : Req) : Outcome :=
  match authenticateToken accts req with
  | Next user cookies =>
    match requireRole role0 user with
    | Some (code, message) => Deny code message
    | None => Next user cookies
    end
  | Deny code message => Deny code message
  end.

End Middleware.
End Auth.

(** ** [controllers/adminController.js]: blocking and unblocking *)

Module Admin.

(** [Model.findByIdAndUpdate(id, { blocked })]: nothing happens when no
    document has the id. *)
Definition findByIdAndUpdate_blocked (b : bool) (id : ObjectId)
    (users : gmap ObjectId Auth.User) : gmap ObjectId Auth.User :=
  match users !! id with
  | Some u => <[id := Auth.set_blocked b u]> users
  | None => users
  end.

(** The body of [blockUser] and [unblockUser]: [role] is [req.body.role]
    of the parsed body, [id] the parameter of the path cast to an
    [ObjectId], if it can be; the cast fails inside [findByIdAndUpdate]
    and ends in the [catch]. *)
Definition set_user_blocked (b : bool) (failure : string) (accts : Auth.Accounts)
    (id : option ObjectId) (role : option string) : Auth.Accounts * Response unit :=
  if bool_decide (role = Some "client") then
    match id with
    | Some id =>
      (Auth.mkAccounts (findByIdAndUpdate_blocked b id (Auth.clients accts))
                       (Auth.workers accts), Ok tt)
    | None => (accts, Fail 500 failure)
    end
  else if bool_decide (role = Some "worker") then
    match id with
    | Some id =>
      (Auth.mkAccounts (Auth.clients accts)
                       (findByIdAndUpdate_blocked b id (Auth.workers accts)), Ok tt)
    | None => (accts, Fail 500 failure)
    end
  else (accts, Fail 400 "Invalid role. Must be client or worker.").

Definition blockUser := set_user_blocked true "Failed to block user.".

End Admin.

(** Client 10 and workers 20 and 21, all verified; worker 21 is
    blocked. *)
Definition sample_accounts : Auth.Accounts :=
  Auth.mkAccounts
    (<[10%positive := Auth.mkUser "Asha" "asha@example.com" false false]> ∅)
    (<[20%positive := Auth.mkUser "Ravi" "ravi@example.com" false false]>
       (<[21%positive := Auth.mkUser "Sunil" "sunil@example.com" false true]> ∅)).

(** Tokens are read as ["<role>:<id>"], with a prefix ["old:"] once they
    have expired. *)
Definition sample_verify (t : string) : Auth.Verified :=
  if String.eqb t "client:10" then Auth.Decoded 10%positive "client"
  else if String.eqb t "worker:20" then Auth.Decoded 20%positive "worker"
  else if String.eqb t "worker:21" then Auth.Decoded 21%positive "worker"
  else if String.prefix "old:" t then Auth.TokenExpiredError
  else Auth.JsonWebTokenError.

(** ** [utils/cloudinaryUpload.js]: [extractPublicId] *)

Module Cloudinary.

(** The characters ['/'] and ['.']. *)
Definition slash : Ascii.ascii := Ascii.ascii_of_nat 47.
Definition dot : Ascii.ascii := Ascii.ascii_of_nat 46.

(** [s.includes(sub)] *)
Fixpoint str_includes (sub s : string) : bool :=
  String.prefix sub s
  || match s with
     | EmptyString => false
     | String _ s' => str_includes sub s'
     end.

(** [s.split(sep)] for a separator of one character. *)
Fixpoint split (sep : Ascii.ascii) (s : string) : list string :=
  match s with
  | EmptyString => [EmptyString]
  | String c s' =>
    if Ascii.eqb c sep then EmptyString :: split sep s'
    else match split sep s' with
         | part :: parts => String c part :: parts
         | [] => [String c EmptyString]
         end
  end.

(** [parts.findIndex(p)], with [None] for -1. *)
Fixpoint findIndex (p : string → bool) (parts : list string) : option nat :=
  match parts with
  | [] => None
  | part :: parts' => if p part then Some 0%nat else S <$> findIndex p parts'
  end.

(** [parts.join(sep)] *)
Fixpoint join (sep : string) (parts : list string) : string :=
  match parts with
  | [] => EmptyString
  | [part] => part
  | part :: parts' => part +:+ sep +:+ join sep parts'
  end.

(** [s.lastIndexOf(c)], with [None] for -1. *)
Fixpoint lastIndexOf (c : Ascii.ascii) (s : string) : option nat :=
  match s with
  | EmptyString => None
  | String a s' =>
    match lastIndexOf c s' with
    | Some i => Some (S i)
    | None => if Ascii.eqb a c then Some 0%nat else None
    end
  end.

Definition extractPublicId (url : option string) : option string :=
  match url with
  | Some url =>
    if negb (truthy (Some url)) || negb (str_includes "cloudinary.com" url)
    then None
    else
      let parts := split slash url in
      match findIndex (String.eqb "upload") parts with
      | None => None
      | Some uploadIndex =>
        let afterVersion := drop (uploadIndex + 2) parts in
        let publicIdWithExtension := join "/" afterVersion in
        match lastIndexOf dot publicIdWithExtension with
        | Some lastDotIndex =>
          Some (String.substring 0 lastDotIndex publicIdWithExtension)
        | None => Some publicIdWithExtension
        end
      end
  | None => None
  end.

End Cloudinary.

(** The string has the character. *)
Fixpoint has_char (c : Ascii.ascii) (s : string) : bool :=
  match s with
  | EmptyString => false
  | String a s' => Ascii.eqb a c || has_char c s'
  end.

(** A delivery URL: [<base>/upload/<version>/<publicId>.<format>] *)
Definition delivery_url (base version publicId format : string) : string :=
  base +:+ "/upload/" +:+ version +:+ "/" +:+ publicId +:+ "." +:+ format.

(** * Properties *)

(** ** Basic facts *)

Lemma truthy_Some s : truthy (Some s) = true ↔ s ≠ EmptyString.
Proof. destruct s; simpl; split; congruence. Qed.

Lemma elem_of_2 {A} (x a b : A) : x ∈ [a; b] ↔ x = a ∨ x = b.
Proof. rewrite !elem_of_cons, elem_of_nil. tauto. Qed.

Lemma elem_of_3 {A} (x a b c : A) : x ∈ [a; b; c] ↔ x = a ∨ x = b ∨ x = c.
Proof. rewrite !elem_of_cons, elem_of_nil. tauto. Qed.

(** Membership of a status in a literal list, by cases. *)
Ltac by_status :=
  unfold not in *; rewrite ?elem_of_2, ?elem_of_3 in *;
  repeat match goal with
         | H : Job.status ?j = _ |- _ => rewrite H in *
         end;
  try match goal with
      | |- context [Job.status ?j] => destruct (Job.status j)
      | H : context [Job.status ?j] |- _ => destruct (Job.status j)
      end;
  simpl in *; intuition (try discriminate; try congruence).

Lemma jobs_set_jobs js st : jobs (set_jobs js st) = js.
Proof. done. Qed.

Lemma find_jobs_In st q id job :
  In (id, job) (find_jobs st q) ↔ jobs st !! id = Some job ∧ q id job = true.
Proof.
  unfold find_jobs. rewrite filter_In, <- list_elem_of_In, elem_of_map_to_list.
  done.
Qed.

Lemma activeJobs_In st w id job :
  In (id, job) (activeJobs st w) ↔
  jobs st !! id = Some job ∧ Job.workerId job = Some w ∧ held (Job.status job) = true.
Proof.
  unfold activeJobs. rewrite find_jobs_In, andb_true_iff, bool_decide_eq_true.
  tauto.
Qed.

(** The pre-check of [acceptJob] fires exactly when the worker holds a job. *)
Lemma precheck_true st w :
  (0 <? length (activeJobs st w))%nat = true ↔ ∃ id, holds st w id.
Proof.
  split.
  - intros H. destruct (activeJobs st w) as [|[id job] l] eqn:E; [discriminate|].
    assert (In (id, job) (activeJobs st w)) as Hin by (rewrite E; left; done).
    apply activeJobs_In in Hin. exists id, job. tauto.
  - intros (id & job & H1 & H2 & H3).
    assert (In (id, job) (activeJobs st w)) as Hin by (apply activeJobs_In; tauto).
    destruct (activeJobs st w); [destruct Hin | done].
Qed.

Lemma precheck_false st w :
  (0 <? length (activeJobs st w))%nat = false ↔ ∀ id, ¬ holds st w id.
Proof.
  rewrite <- not_true_iff_false, precheck_true. firstorder.
Qed.

(** What the conditional update does, case by case. *)
Lemma claim_Some st jobId w st' job' :
  claim st jobId w = (st', Some job') →
  ∃ job, jobs st !! jobId = Some job ∧ Job.status job = posted
         ∧ Job.workerId job = None
         ∧ job' = Job.set_status assigned (Job.set_workerId (Some w) job)
         ∧ st' = set_jobs (<[jobId := job']> (jobs st)) st.
Proof.
  unfold claim. destruct (jobs st !! jobId) as [job|] eqn:E; [|congruence].
  destruct (bool_decide _ && bool_decide _) eqn:B; [|congruence].
  apply andb_true_iff in B as [B1 B2].
  apply bool_decide_eq_true in B1, B2.
  intros [= <- <-]. eauto 10.
Qed.

Lemma claim_None st jobId w st' :
  claim st jobId w = (st', None) →
  st' = st ∧ ¬ claimable st jobId.
Proof.
  unfold claim, claimable. destruct (jobs st !! jobId) as [job|] eqn:E.
  - destruct (bool_decide _ && bool_decide _) eqn:B; [congruence|].
    intros [= <-]. split; [done|]. intros (job' & [= <-] & Hs & Hw).
    rewrite !bool_decide_eq_true_2 in B by done. discriminate.
  - intros [= <-]. split; [done|]. intros (job' & ? & _). congruence.
Qed.

Lemma claim_claimable st jobId w job :
  jobs st !! jobId = Some job → Job.status job = posted → Job.workerId job = None →
  claim st jobId w =
    (set_jobs (<[jobId := Job.set_status assigned (Job.set_workerId (Some w) job)]> (jobs st)) st,
     Some (Job.set_status assigned (Job.set_workerId (Some w) job))).
Proof.
  intros E Hs Hw. unfold claim. rewrite E.
  by rewrite !bool_decide_eq_true_2.
Qed.

(** Undoing a claim gives back the document that was claimed. *)
Lemma unclaim job w :
  Job.status job = posted → Job.workerId job = None →
  Job.set_status posted
    (Job.set_workerId None (Job.set_status assigned (Job.set_workerId (Some w) job)))
  = job.
Proof. destruct job; simpl; intros -> ->; reflexivity. Qed.

Lemma rollback_claim st jobId w st' job' :
  claim st jobId w = (st', Some job') → rollback st' jobId = st.
Proof.
  intros (job & E & Hs & Hw & -> & ->)%claim_Some.
  unfold rollback. rewrite jobs_set_jobs, lookup_insert_eq.
  rewrite unclaim by done. unfold set_jobs; simpl.
  rewrite insert_insert_eq, insert_id by done. by destruct st.
Qed.

(** The handler run alone is the handler run [await] by [await]. *)
Lemma acceptJob_steps st jobId w :
  steps 4 jobId w st AtPrecheck =
  ((acceptJob st jobId w).1, Responded (acceptJob st jobId w).2).
Proof.
  unfold acceptJob; simpl.
  destruct (0 <? length (activeJobs st w))%nat; simpl; [done|].
  destruct (claim st jobId w) as [st1 [job|]]; simpl; [|done].
  destruct (workers st1 !! w) as [worker|]; simpl; [|done].
  by destruct (negb _).
Qed.

Lemma claim_not_claimable st jobId w :
  ¬ claimable st jobId → claim st jobId w = (st, None).
Proof.
  intros H. unfold claim. destruct (jobs st !! jobId) as [job|] eqn:E; [|done].
  destruct (bool_decide _ && bool_decide _) eqn:B; [|done].
  apply andb_true_iff in B as [B1%bool_decide_eq_true B2%bool_decide_eq_true].
  destruct H. by exists job.
Qed.

(** ** The re-read after a lost claim *)

(** C2. In [acceptJob], when the conditional claim matches no record, the
    job is read again and the answer is 404 if it does not exist,
    otherwise 409 if it has a worker, otherwise 400; the store is left as
    it was.  In the last case the job is in a state other than posted. *)
Theorem acceptJob_reread_precedence (st : Store) (jobId w : ObjectId) :
  (∀ id, ¬ holds st w id) →
  ¬ claimable st jobId →
  ∃ resp,
    acceptJob st jobId w = (st, resp)
    ∧ (jobs st !! jobId = None → status_code resp = 404%Z)
    ∧ (∀ e, jobs st !! jobId = Some e → is_Some (Job.workerId e) →
            status_code resp = 409%Z)
    ∧ (∀ e, jobs st !! jobId = Some e → Job.workerId e = None →
            status_code resp = 400%Z ∧ Job.status e ≠ posted).
Proof.
  intros Hpre Hnc. exists (reread_response (jobs st !! jobId)).
  unfold acceptJob.
  rewrite (proj2 (precheck_false st w) Hpre), (claim_not_claimable _ _ _ Hnc).
  split; [done|]. unfold reread_response.
  split; [by intros ->|]. split.
  - intros e -> Hw. by rewrite bool_decide_eq_true_2.
  - intros e He Hw. rewrite He, bool_decide_eq_false_2.
    + split; [done|]. intros Hs. apply Hnc. by exists e.
    + rewrite Hw. by intros [? ?].
Qed.

Lemma acceptJob_reread_precedence_witness :
  ∃ resp,
    acceptJob (store_with (Some 21%positive) assigned None) 1%positive 20%positive
    = (store_with (Some 21%positive) assigned None, resp)
    ∧ status_code resp = 409%Z.
Proof.
  destruct (acceptJob_reread_precedence
              (store_with (Some 21%positive) assigned None) 1%positive 20%positive)
    as (resp & Hacc & _ & H409 & _).
  - intros id (job & Hj & Hw & Hh).
    destruct (decide (id = 1%positive)) as [->|Hne].
    + vm_compute in Hj. injection Hj as <-. discriminate.
    + unfold store_with in Hj; simpl in Hj.
      rewrite lookup_insert_ne, lookup_empty in Hj by done. discriminate.
  - intros (job & Hj & Hs & _). vm_compute in Hj. injection Hj as <-. discriminate.
  - exists resp. split; [exact Hacc|]. eapply H409; [reflexivity|]. simpl. eauto.
Defined.

(** ** The compensating rollback *)

(** C3. When the claim succeeds but the worker record is missing or the
    worker's skills lack the job's skill, [acceptJob] performs the
    compensating write.  Await by await: after the conditional update
    the store holds the job as assigned to the worker; the guard then
    picks an error (404 or 400) and goes to the rollback; the rollback
    writes the job back to [workerId = null], [status = posted] and only
    then the error is sent, never success.  The write is by [_id]: it
    resets the two fields of whatever document the store holds by then.
    The handler run alone ends with that answer and the job posted and
    unclaimed. *)
Theorem acceptJob_rollback (st : Store) (jobId w : ObjectId) (job : Job.t) :
  (∀ id, ¬ holds st w id) →
  jobs st !! jobId = Some job → Job.status job = posted → Job.workerId job = None →
  (workers st !! w = None
   ∨ ∃ worker, workers st !! w = Some worker
               ∧ includes (Worker.skills worker) (Job.skill job) = false) →
  ∃ st1 resp,
    steps 2 jobId w st AtPrecheck
    = (st1, AtWorkerLookup (Job.set_status assigned (Job.set_workerId (Some w) job)))
    ∧ jobs st1 !! jobId
      = Some (Job.set_status assigned (Job.set_workerId (Some w) job))
    ∧ acceptJob_step jobId w st1
        (AtWorkerLookup (Job.set_status assigned (Job.set_workerId (Some w) job)))
      = (st1, AtRollback resp)
    ∧ is_ok resp = false
    ∧ (status_code resp = 404%Z ∨ status_code resp = 400%Z)
    ∧ (∀ st2,
         acceptJob_step jobId w st2 (AtRollback resp)
         = (rollback st2 jobId, Responded resp)
         ∧ jobs (rollback st2 jobId) !! jobId
           = (λ j, Job.set_status posted (Job.set_workerId None j))
               <$> jobs st2 !! jobId
         ∧ ∀ id, id ≠ jobId → jobs (rollback st2 jobId) !! id = jobs st2 !! id)
    ∧ rollback st1 jobId = st
    ∧ acceptJob st jobId w = (rollback st1 jobId, resp).
Proof.
  intros Hpre Hj Hs Hw Hguard.
  pose proof (claim_claimable st jobId w job Hj Hs Hw) as Hc.
  pose proof (rollback_claim _ _ _ _ _ Hc) as Hrb.
  set (claimed := Job.set_status assigned (Job.set_workerId (Some w) job)) in *.
  set (st1 := set_jobs (<[jobId := claimed]> (jobs st)) st) in *.
  assert (workers st1 = workers st) as Hws by done.
  assert (∃ resp,
            acceptJob_step jobId w st1 (AtWorkerLookup claimed) = (st1, AtRollback resp)
            ∧ is_ok resp = false
            ∧ (status_code resp = 404%Z ∨ status_code resp = 400%Z)
            ∧ acceptJob st jobId w = (rollback st1 jobId, resp))
    as (resp & Hstep & Hok & Hcode & Hacc).
  { destruct Hguard as [Hnone | (worker & Hwk & Hsk)].
    - exists (Fail 404 "Worker not found"). split_and!; try done.
      + cbn [acceptJob_step]. by rewrite Hws, Hnone.
      + by left.
      + unfold acceptJob.
        rewrite (proj2 (precheck_false st w) Hpre), Hc, Hws, Hnone. done.
    - exists (Fail 400 "You do not have the required skill for this job").
      split_and!; try done.
      + cbn [acceptJob_step]. rewrite Hws, Hwk.
        change (Job.skill claimed) with (Job.skill job). by rewrite Hsk.
      + by right.
      + unfold acceptJob.
        rewrite (proj2 (precheck_false st w) Hpre), Hc, Hws, Hwk.
        change (Job.skill claimed) with (Job.skill job). by rewrite Hsk. }
  exists st1, resp. split_and!; try done.
  - cbn [steps acceptJob_step].
    rewrite (proj2 (precheck_false st w) Hpre). cbn [steps acceptJob_step].
    by rewrite Hc.
  - apply lookup_insert_eq.
  - intros st2. split; [done|]. unfold rollback.
    destruct (jobs st2 !! jobId) as [j|] eqn:E; simpl.
    + split; [apply lookup_insert_eq|]. intros id Hne.
      by rewrite lookup_insert_ne.
    + by rewrite E.
Qed.

Lemma acceptJob_rollback_witness :
  ∃ st1 resp,
    steps 2 1%positive 21%positive (store_with None posted None) AtPrecheck
    = (st1, AtWorkerLookup (sample_job (Some 21%positive) assigned None))
    ∧ jobs st1 !! 1%positive = Some (sample_job (Some 21%positive) assigned None)
    ∧ is_ok resp = false
    ∧ steps 4 1%positive 21%positive (store_with None posted None) AtPrecheck
      = (store_with None posted None, Responded resp)
    ∧ acceptJob (store_with None posted None) 1%positive 21%positive
      = (store_with None posted None, resp).
Proof.
  destruct (acceptJob_rollback (store_with None posted None) 1%positive 21%positive
              (sample_job None posted None))
    as (st1 & resp & H2 & Hj & H3 & Hok & _ & H4 & Hback & Hacc).
  - intros id (job & Hj & Hw & Hh).
    destruct (decide (id = 1%positive)) as [->|Hne].
    + vm_compute in Hj. injection Hj as <-. discriminate.
    + unfold store_with in Hj; simpl in Hj.
      rewrite lookup_insert_ne, lookup_empty in Hj by done. discriminate.
  - reflexivity.
  - reflexivity.
  - reflexivity.
  - right. exists electrician. split; reflexivity.
  - exists st1, resp. split_and!; try done.
    + rewrite acceptJob_steps, Hacc, Hback. done.
    + by rewrite Hacc, Hback.
Defined.

(** ** One job at a time *)

(** C7. A worker who holds a job that is assigned or active is answered
    400 by [acceptJob] at the pre-check, before the claim is attempted,
    whatever the state of the requested job; the store, and with it the
    requested job, is unchanged. *)
Theorem acceptJob_single_active (st : Store) (jobId w other : ObjectId) :
  holds st w other →
  acceptJob st jobId w = (st, too_many)
  ∧ status_code too_many = 400%Z
  ∧ acceptJob_step jobId w st AtPrecheck = (st, Responded too_many).
Proof.
  intros H.
  assert ((0 <? length (activeJobs st w))%nat = true) as Hpre
    by (apply precheck_true; eauto).
  unfold acceptJob, acceptJob_step. by rewrite Hpre.
Qed.

Lemma acceptJob_single_active_witness :
  claimable store_busy 1%positive
  ∧ acceptJob store_busy 1%positive 20%positive = (store_busy, too_many)
  ∧ status_code too_many = 400%Z.
Proof.
  split.
  - exists (sample_job None posted None). split; [reflexivity | split; reflexivity].
  - destruct (acceptJob_single_active store_busy 1%positive 20%positive 2%positive)
      as (H1 & H2 & _).
    + exists (sample_job (Some 20%positive) assigned None).
      split; [reflexivity | split; reflexivity].
    + split; assumption.
Defined.

(** ** Cancellation *)

Lemma findOne_client_Some st jobId c job :
  findOne_client st jobId c = Some job ↔
  jobs st !! jobId = Some job ∧ Job.clientId job = c.
Proof.
  unfold findOne_client. destruct (jobs st !! jobId) as [j|]; [|naive_solver].
  case_decide; naive_solver.
Qed.

Lemma findOne_worker_Some st jobId w job :
  findOne_worker st jobId w = Some job ↔
  jobs st !! jobId = Some job ∧ Job.workerId job = Some w.
Proof.
  unfold findOne_worker. destruct (jobs st !! jobId) as [j|]; [|naive_solver].
  case_decide; naive_solver.
Qed.

Lemma findOne_client_None st jobId c :
  jobs st !! jobId = None → findOne_client st jobId c = None.
Proof. unfold findOne_client. by intros ->. Qed.

Lemma cancelJob_Ok st jobId c st' body :
  cancelJob st jobId c = (st', Ok body) →
  ∃ job, jobs st !! jobId = Some job ∧ Job.clientId job = c
         ∧ Job.status job ∈ [posted; assigned]
         ∧ jobs st' = delete jobId (jobs st).
Proof.
  unfold cancelJob.
  destruct (findOne_client st jobId c) as [job|] eqn:F; [|discriminate].
  apply findOne_client_Some in F as [F1 F2].
  destruct (bool_decide (Job.status job ∈ [posted; assigned])) eqn:B; simpl;
    [|discriminate].
  apply bool_decide_eq_true in B. intros [= <- _]. by exists job.
Qed.

Lemma cancelJob_Fail st jobId c st' code msg :
  cancelJob st jobId c = (st', Fail code msg) → st' = st.
Proof.
  unfold cancelJob.
  destruct (findOne_client st jobId c) as [job|]; [|congruence].
  destruct (negb _); [congruence | discriminate].
Qed.

Lemma cancelJobByWorker_Ok st jobId w st' body :
  cancelJobByWorker st jobId w = (st', Ok body) →
  ∃ job, jobs st !! jobId = Some job ∧ Job.workerId job = Some w
         ∧ held (Job.status job) = true
         ∧ st' = set_jobs (<[jobId := Job.set_completionOTP None
                                (Job.set_workerId None (Job.set_status posted job))]>
                             (jobs st)) st.
Proof.
  unfold cancelJobByWorker.
  destruct (findOne_worker st jobId w) as [job|] eqn:F; [|discriminate].
  apply findOne_worker_Some in F as [F1 F2].
  destruct (Job.status job) eqn:S; simpl; try discriminate;
    intros [= <- _]; exists job; rewrite S; auto.
Qed.

Lemma cancelJobByWorker_Fail st jobId w st' code msg :
  cancelJobByWorker st jobId w = (st', Fail code msg) →
  st' = st ∧ (code = 404 ∨ code = 400)%Z.
Proof.
  unfold cancelJobByWorker.
  destruct (findOne_worker st jobId w) as [job|]; [|intros [= <- <- _]; auto].
  destruct (_ && _); [intros [= <- <- _]; auto | discriminate].
Qed.

(** C8. [cancelJob] deletes the job only when its status is posted or
    assigned (and then it does); on an active or completed job it answers
    400 and on a job that does not exist 404, the store unchanged in both
    cases.  [cancelJobByWorker] succeeds only on a job of the worker that
    is assigned or active, and otherwise answers 404 or 400 with the store
    unchanged. *)
Theorem cancel_guards (st : Store) (jobId : ObjectId) :
  (∀ c st' body, cancelJob st jobId c = (st', Ok body) →
     ∃ job, jobs st !! jobId = Some job ∧ Job.clientId job = c
            ∧ Job.status job ∈ [posted; assigned]
            ∧ jobs st' !! jobId = None)
  ∧ (∀ job, jobs st !! jobId = Some job → Job.status job ∈ [posted; assigned] →
       ∃ st' body, cancelJob st jobId (Job.clientId job) = (st', Ok body)
                   ∧ jobs st' = delete jobId (jobs st))
  ∧ (∀ job, jobs st !! jobId = Some job → Job.status job ∈ [active; completed] →
       ∃ msg, cancelJob st jobId (Job.clientId job) = (st, Fail 400 msg))
  ∧ (∀ c, jobs st !! jobId = None →
       cancelJob st jobId c = (st, Fail 404 "Job not found"))
  ∧ (∀ w st' body, cancelJobByWorker st jobId w = (st', Ok body) →
       ∃ job, jobs st !! jobId = Some job ∧ Job.workerId job = Some w
              ∧ Job.status job ∈ [assigned; active])
  ∧ (∀ w job, jobs st !! jobId = Some job → Job.status job ∉ [assigned; active] →
       ∃ code msg, cancelJobByWorker st jobId w = (st, Fail code msg)
                   ∧ (code = 404 ∨ code = 400)%Z).
Proof.
  repeat split.
  - intros c st' body (job & H1 & H2 & H3 & H4)%cancelJob_Ok.
    exists job. rewrite H4, lookup_delete_eq. auto.
  - intros job Hj Hs. unfold cancelJob.
    rewrite (proj2 (findOne_client_Some st jobId _ job)) by done.
    rewrite bool_decide_eq_true_2 by done. simpl. eauto.
  - intros job Hj Hs. unfold cancelJob.
    rewrite (proj2 (findOne_client_Some st jobId _ job)) by done.
    rewrite bool_decide_eq_false_2; [simpl; eauto|]. by_status.
  - intros c Hj. unfold cancelJob. by rewrite findOne_client_None.
  - intros w st' body (job & H1 & H2 & H3 & _)%cancelJobByWorker_Ok.
    exists job. by_status.
  - intros w job Hj Hs.
    destruct (cancelJobByWorker st jobId w) as [st' [body|code msg]] eqn:E.
    + apply cancelJobByWorker_Ok in E as (job' & H1 & _ & H3 & _).
      assert (job' = job) as -> by congruence.
      by_status.
    + apply cancelJobByWorker_Fail in E as [-> ?]. eauto.
Qed.

Lemma cancel_guards_witness :
  (∃ msg, cancelJob (store_with (Some 20%positive) completed None) 1%positive 10%positive
          = (store_with (Some 20%positive) completed None, Fail 400 msg))
  ∧ cancelJob (store_with (Some 20%positive) completed None) 2%positive 10%positive
    = (store_with (Some 20%positive) completed None, Fail 404 "Job not found").
Proof.
  destruct (cancel_guards (store_with (Some 20%positive) completed None) 1%positive)
    as (_ & _ & H400 & _).
  destruct (cancel_guards (store_with (Some 20%positive) completed None) 2%positive)
    as (_ & _ & _ & H404 & _).
  split.
  - apply (H400 (sample_job (Some 20%positive) completed None)).
    + reflexivity.
    + apply elem_of_2. right. reflexivity.
  - apply H404. reflexivity.
Defined.

(** ** Every request is a transition of the life cycle *)

Lemma touches_refl st id : touches st st id.
Proof. split; [apply step_none | done]. Qed.

Lemma touches_insert st id job' :
  job_step (jobs st !! id) (Some job') →
  touches st (set_jobs (<[id := job']> (jobs st)) st) id.
Proof.
  intros H. split; simpl.
  - by rewrite lookup_insert_eq.
  - intros id' Hne. by rewrite lookup_insert_ne.
Qed.

Lemma createJob_touches st req : touches st (createJob st req).1 (cj_newId req).
Proof.
  unfold createJob.
  destruct (_ || _); [apply touches_refl|].
  destruct (cj_address req) as [| |a]; try apply touches_refl.
  destruct (_ && _); [apply touches_refl|].
  destruct (negb (includes SKILLS _) || _ || bool_decide _) eqn:B;
    [apply touches_refl|].
  apply orb_false_iff in B as [_ B%bool_decide_eq_false].
  apply touches_insert.
  assert (jobs st !! cj_newId req = None) as ->.
  { destruct (jobs st !! cj_newId req); [destruct B; eauto | done]. }
  apply step_create; by destruct (cj_file req) as [[[? ?]|]|].
Qed.

Lemma cancelJob_touches st jobId c : touches st (cancelJob st jobId c).1 jobId.
Proof.
  destruct (cancelJob st jobId c) as [st' [body|code msg]] eqn:E; simpl.
  - pose proof E as (job & H1 & H2 & H3 & H4)%cancelJob_Ok.
    split; rewrite H4.
    + rewrite lookup_delete_eq, H1. by apply step_delete.
    + intros id' Hne. by rewrite lookup_delete_ne.
  - apply cancelJob_Fail in E as ->. apply touches_refl.
Qed.

Lemma startJob_touches st jobId c : touches st (startJob st jobId c).1 jobId.
Proof.
  unfold startJob.
  destruct (findOne_client st jobId c) as [job|] eqn:F; [|apply touches_refl].
  apply findOne_client_Some in F as [F1 F2].
  destruct (bool_decide (Job.status job = assigned)) eqn:B; simpl;
    [|apply touches_refl].
  apply bool_decide_eq_true in B.
  apply touches_insert. rewrite F1. by apply step_start.
Qed.

Lemma completeJob_Ok st jobId c otp now st' body :
  completeJob st jobId c otp now = (st', Ok body) →
  ∃ job code, jobs st !! jobId = Some job ∧ Job.clientId job = c
    ∧ Job.status job = active
    ∧ Job.completionOTP job = Some code ∧ otp = Some code ∧ code ≠ EmptyString
    ∧ st' = set_jobs (<[jobId := Job.set_completionOTP None
                                   (Job.set_status completed job)]> (jobs st)) st
    ∧ body = mkCompletedBody jobId completed now.
Proof.
  unfold completeJob.
  destruct (truthy otp) eqn:T; simpl; [|discriminate].
  destruct (findOne_client st jobId c) as [job|] eqn:F; [|discriminate].
  apply findOne_client_Some in F as [F1 F2].
  destruct (bool_decide (Job.status job = active)) eqn:B; simpl; [|discriminate].
  apply bool_decide_eq_true in B.
  destruct (truthy (Job.completionOTP job)) eqn:T2; simpl; [|discriminate].
  destruct (bool_decide (Job.completionOTP job = otp)) eqn:B2; simpl; [|discriminate].
  apply bool_decide_eq_true in B2.
  intros [= <- <-].
  destruct otp as [code|]; [|discriminate].
  exists job, code. apply truthy_Some in T. auto 10.
Qed.

Lemma completeJob_Fail st jobId c otp now st' code msg :
  completeJob st jobId c otp now = (st', Fail code msg) → st' = st.
Proof.
  unfold completeJob.
  repeat (match goal with
          | |- context [if ?b then _ else _] => destruct b
          | |- context [match ?o with Some _ => _ | None => _ end] => destruct o
          end; try congruence).
Qed.

Lemma completeJob_accepts st jobId now job code :
  jobs st !! jobId = Some job → Job.status job = active →
  Job.completionOTP job = Some code → code ≠ EmptyString →
  completeJob st jobId (Job.clientId job) (Some code) now =
  (set_jobs (<[jobId := Job.set_completionOTP None
                          (Job.set_status completed job)]> (jobs st)) st,
   Ok (mkCompletedBody jobId completed now)).
Proof.
  intros Hj Hs Ho Hc. unfold completeJob.
  rewrite (proj2 (truthy_Some code) Hc). simpl.
  rewrite (proj2 (findOne_client_Some st jobId _ job)) by done.
  rewrite bool_decide_eq_true_2 by done. simpl.
  rewrite Ho, (proj2 (truthy_Some code) Hc). simpl.
  by rewrite bool_decide_eq_true_2.
Qed.

Lemma completeJob_touches st jobId c otp now :
  touches st (completeJob st jobId c otp now).1 jobId.
Proof.
  destruct (completeJob st jobId c otp now) as [st' [body|code msg]] eqn:E; simpl.
  - apply completeJob_Ok in E as (job & code & H1 & _ & H3 & _ & _ & _ & -> & _).
    apply touches_insert. rewrite H1. by apply step_complete.
  - apply completeJob_Fail in E as ->. apply touches_refl.
Qed.

Lemma getCompletionOTP_touches st jobId w r :
  touches st (getCompletionOTP st jobId w r).1 jobId.
Proof.
  unfold getCompletionOTP.
  destruct (findOne_worker st jobId w) as [job|] eqn:F; [|apply touches_refl].
  apply findOne_worker_Some in F as [F1 F2].
  destruct (bool_decide (Job.status job = active)) eqn:B; simpl;
    [|apply touches_refl].
  apply bool_decide_eq_true in B.
  apply touches_insert. rewrite F1. by apply step_mint.
Qed.

Lemma cancelJobByWorker_touches st jobId w :
  touches st (cancelJobByWorker st jobId w).1 jobId.
Proof.
  destruct (cancelJobByWorker st jobId w) as [st' [body|code msg]] eqn:E; simpl.
  - apply cancelJobByWorker_Ok in E as (job & H1 & _ & H3 & ->).
    apply touches_insert. rewrite H1. by apply step_release.
  - apply cancelJobByWorker_Fail in E as [-> _]. apply touches_refl.
Qed.

Lemma rateWorker_jobs st jobId c rating review :
  jobs (rateWorker st jobId c rating review).1 = jobs st.
Proof.
  unfold rateWorker.
  repeat (match goal with
          | |- context [if ?b then _ else _] => destruct b
          | |- context [match ?o with Some _ => _ | None => _ end] => destruct o
          end; try done).
Qed.

Lemma rateClient_jobs st jobId w rating review :
  jobs (rateClient st jobId w rating review).1 = jobs st.
Proof.
  unfold rateClient.
  repeat (match goal with
          | |- context [if ?b then _ else _] => destruct b
          | |- context [match ?o with Some _ => _ | None => _ end] => destruct o
          end; try done).
Qed.

Lemma acceptJob_touches st jobId w : touches st (acceptJob st jobId w).1 jobId.
Proof.
  unfold acceptJob.
  destruct (0 <? length (activeJobs st w))%nat; [apply touches_refl|].
  destruct (claim st jobId w) as [st1 [job'|]] eqn:C.
  - pose proof (rollback_claim _ _ _ _ _ C) as Hrb.
    apply claim_Some in C as (job & H1 & H2 & H3 & -> & ->).
    assert (touches st
              (set_jobs (<[jobId := Job.set_status assigned
                                      (Job.set_workerId (Some w) job)]> (jobs st)) st)
              jobId) as Hclaim.
    { apply touches_insert. rewrite H1. by apply step_claim. }
    destruct (workers _ !! w) as [worker|]; simpl.
    + destruct (negb _); simpl; [rewrite Hrb; apply touches_refl | apply Hclaim].
    + rewrite Hrb. apply touches_refl.
  - apply claim_None in C as [-> _]. apply touches_refl.
Qed.

(** Every request changes at most one job document, by one transition of
    the life cycle. *)
Lemma exec_touches st op : ∃ id, touches st (exec st op) id.
Proof.
  destruct op; simpl.
  - eexists; apply createJob_touches.
  - eexists; apply cancelJob_touches.
  - eexists; apply startJob_touches.
  - eexists; apply completeJob_touches.
  - exists jobId. split; rewrite rateWorker_jobs; [apply step_none | done].
  - eexists; apply acceptJob_touches.
  - eexists; apply getCompletionOTP_touches.
  - eexists; apply cancelJobByWorker_touches.
  - exists jobId. split; rewrite rateClient_jobs; [apply step_none | done].
Qed.

(** ** The two invariants of the job document *)

Lemma job_step_otp before after :
  job_step before after →
  (∀ j, before = Some j → is_Some (Job.completionOTP j) → Job.status j = active) →
  ∀ j, after = Some j → is_Some (Job.completionOTP j) → Job.status j = active.
Proof.
  intros Hs Hb j Ha Ho. destruct Hs; simplify_eq/=; eauto.
  - rewrite H1 in Ho. by destruct Ho.
  - specialize (Hb _ eq_refl Ho). congruence.
  - by destruct Ho.
  - by destruct Ho.
Qed.

Lemma job_step_worker before after :
  job_step before after →
  (∀ j, before = Some j →
        (is_Some (Job.workerId j) ↔ Job.status j ∈ [assigned; active; completed])) →
  ∀ j, after = Some j →
       (is_Some (Job.workerId j) ↔ Job.status j ∈ [assigned; active; completed]).
Proof.
  intros Hs Hb j Ha. destruct Hs; simplify_eq/=; eauto;
    try (specialize (Hb _ eq_refl); revert Hb);
    rewrite ?elem_of_3; unfold is_Some; simpl.
  all: try rewrite H; try rewrite H0; naive_solver.
Qed.

Lemma job_step_minted before after :
  job_step before after →
  (∀ j c, before = Some j → Job.completionOTP j = Some c → ∃ r, c = mint r) →
  ∀ j c, after = Some j → Job.completionOTP j = Some c → ∃ r, c = mint r.
Proof.
  intros Hs Hb j c Ha Ho. destruct Hs; simplify_eq/=; eauto.
Qed.

(** An invariant of single documents that the transitions keep is kept
    by every request. *)
Lemma exec_keeps (P : Job.t → Prop) st op :
  (∀ before after, job_step before after →
     (∀ j, before = Some j → P j) → ∀ j, after = Some j → P j) →
  (∀ id job, jobs st !! id = Some job → P job) →
  ∀ id job, jobs (exec st op) !! id = Some job → P job.
Proof.
  intros Hstep Hinv id job Hj.
  destruct (exec_touches st op) as (id0 & Hs & Hother).
  destruct (decide (id = id0)) as [->|Hne].
  - eapply Hstep; [exact Hs | | exact Hj]. intros j Hb. eapply Hinv, Hb.
  - rewrite Hother in Hj by done. eapply Hinv, Hj.
Qed.

Lemma otps_minted_exec st op : otps_minted st → otps_minted (exec st op).
Proof.
  intros Hinv id job c Hj Ho.
  assert (∀ id job, jobs (exec st op) !! id = Some job →
            ∀ c, Job.completionOTP job = Some c → ∃ r, c = mint r) as K.
  { apply (exec_keeps (λ j, ∀ c, Job.completionOTP j = Some c → ∃ r, c = mint r)).
    - intros before after Hs Hb j Ha c' Hc'.
      eapply job_step_minted; [exact Hs | | exact Ha | exact Hc'].
      intros j0 c0 H0 H1. eapply Hb; eauto.
    - intros id' job' Hj' c'. apply (Hinv id' job' c' Hj'). }
  eapply K; eauto.
Qed.

Lemma store_with_lookup w s otp id job :
  jobs (store_with w s otp) !! id = Some job →
  id = 1%positive ∧ job = sample_job w s otp.
Proof.
  unfold store_with; simpl. intros H.
  destruct (decide (id = 1%positive)) as [->|Hne].
  - rewrite lookup_insert_eq in H. by injection H as <-.
  - rewrite lookup_insert_ne, lookup_empty in H by done. discriminate.
Qed.

Lemma otp_only_active_exec st op : otp_only_active st → otp_only_active (exec st op).
Proof.
  intros Hinv id job.
  apply (exec_keeps (λ j, is_Some (Job.completionOTP j) → Job.status j = active)
           st op); [|exact Hinv].
  intros before after Hs Hb. exact (job_step_otp before after Hs Hb).
Qed.

(** C5. A request that runs from its first [await] to its answer with
    no other request in between keeps the invariant that [completionOTP]
    is non-null only while the status is active: generation writes it on
    an active job only, completion and worker cancellation clear it, and
    no other request moves a job that carries one.  The rollback of
    [acceptJob] writes [workerId] and [status] only and leaves
    [completionOTP] as it finds it. *)
Theorem completionOTP_only_while_active (st : Store) (op : Op) :
  otp_only_active st →
  otp_only_active (exec st op)
  ∧ ∀ jobId, Job.completionOTP <$> jobs (rollback st jobId) !! jobId
             = Job.completionOTP <$> jobs st !! jobId.
Proof.
  intros Hinv. split; [by apply otp_only_active_exec|].
  intros jobId. unfold rollback.
  destruct (jobs st !! jobId) as [job|] eqn:E; simpl.
  - by rewrite lookup_insert_eq.
  - by rewrite E.
Qed.

Lemma completionOTP_only_while_active_witness :
  otp_only_active
    (exec (store_with (Some 20%positive) active (Some "482913"))
          (OpCancelJobByWorker 1%positive 20%positive))
  ∧ jobs (exec (store_with (Some 20%positive) active (Some "482913"))
               (OpCancelJobByWorker 1%positive 20%positive)) !! 1%positive
    = Some (sample_job None posted None).
Proof.
  split; [|reflexivity].
  apply completionOTP_only_while_active.
  intros id job [-> ->]%store_with_lookup _. reflexivity.
Defined.

(** An accept request of electrician 21 for the plumbing job 1 is
    suspended after its claim; the client starts the job and the worker
    obtains a code; then the request finds the skill missing and rolls
    back: job 1 is posted, without worker, and carries the code. *)
Lemma completionOTP_interleaved_counterexample :
  otp_only_active (store_with None posted None)
  ∧ interleave (store_with None posted None)
      (PendingAccept 1%positive 21%positive AtPrecheck)
      [Resume; Resume; Whole (OpStartJob 1%positive 10%positive);
       Whole (OpGetCompletionOTP 1%positive 21%positive (1 # 2)); Resume; Resume]
    = (store_with None posted (Some "550000"),
       PendingAccept 1%positive 21%positive
         (Responded (Fail 400 "You do not have the required skill for this job")))
  ∧ ¬ otp_only_active (store_with None posted (Some "550000")).
Proof.
  split_and!.
  - intros id job [-> ->]%store_with_lookup [c [=]].
  - reflexivity.
  - intros H.
    specialize (H 1%positive (sample_job None posted (Some "550000")) eq_refl).
    discriminate H. by eexists.
Qed.

(** The invariant holds in every store served from an empty job
    collection. *)
Corollary otp_only_active_always workers0 ops :
  otp_only_active (serve workers0 ops).
Proof.
  unfold serve. induction ops as [|op ops IH] using rev_ind.
  - intros id job H. simpl in H. by rewrite lookup_empty in H.
  - rewrite foldl_app. simpl. by apply otp_only_active_exec.
Qed.

Lemma worker_iff_taken_exec st op : worker_iff_taken st → worker_iff_taken (exec st op).
Proof.
  intros Hinv id job.
  apply (exec_keeps (λ j, is_Some (Job.workerId j)
                          ↔ Job.status j ∈ [assigned; active; completed])
           st op); [|exact Hinv].
  intros before after Hs Hb. exact (job_step_worker before after Hs Hb).
Qed.

(** The handler run alone is the handler run [await] by [await]. *)
Lemma startJob_steps st jobId c :
  startJob_step jobId c (startJob_step jobId c st AtFind).1
                (startJob_step jobId c st AtFind).2
  = ((startJob st jobId c).1, Started (startJob st jobId c).2).
Proof.
  unfold startJob. cbn [startJob_step].
  destruct (findOne_client st jobId c) as [job|] eqn:F; [|done].
  apply findOne_client_Some in F as [F1 F2].
  destruct (negb _); simpl; [done|]. by rewrite F1.
Qed.

(** C6. A request that runs from its first [await] to its answer with
    no other request in between keeps the invariant that [workerId] is
    non-null exactly when the status is assigned, active or completed:
    creation gives a posted job without worker, a claim sets both, worker
    cancellation and the rollback of a claim clear both, start and
    completion keep the worker.  The save of [startJob] writes [status]
    only, on the document that the store holds by then, and leaves its
    [workerId] as it finds it. *)
Theorem workerId_iff_taken (st : Store) (op : Op) :
  worker_iff_taken st →
  worker_iff_taken (exec st op)
  ∧ ∀ jobId c job stored,
      jobs st !! jobId = Some stored →
      jobs (startJob_step jobId c st (AtSave job)).1 !! jobId
      = Some (Job.set_status active stored)
      ∧ Job.workerId (Job.set_status active stored) = Job.workerId stored.
Proof.
  intros Hinv. split; [by apply worker_iff_taken_exec|].
  intros jobId c job stored E. cbn [startJob_step]. rewrite E. simpl.
  by rewrite lookup_insert_eq.
Qed.

Lemma workerId_iff_taken_witness :
  worker_iff_taken
    (exec (store_with None posted None) (OpAcceptJob 1%positive 20%positive))
  ∧ jobs (exec (store_with None posted None)
               (OpAcceptJob 1%positive 20%positive)) !! 1%positive
    = Some (sample_job (Some 20%positive) assigned None).
Proof.
  split; [|reflexivity].
  apply workerId_iff_taken.
  intros id job [-> ->]%store_with_lookup. simpl.
  rewrite elem_of_3. split; [intros [? [=]] | intros [[=]|[[=]|[=]]]].
Defined.

(** A start request of client 10 for job 1, assigned to worker 20, is
    suspended after its read; the worker cancels, which posts the job
    again without worker; then the save writes [status = active]: job 1
    is active and has no worker. *)
Lemma workerId_interleaved_counterexample :
  worker_iff_taken (store_with (Some 20%positive) assigned None)
  ∧ interleave (store_with (Some 20%positive) assigned None)
      (PendingStart 1%positive 10%positive AtFind)
      [Resume; Whole (OpCancelJobByWorker 1%positive 20%positive); Resume]
    = (store_with None active None,
       PendingStart 1%positive 10%positive (Started (Ok (Some 20%positive))))
  ∧ ¬ worker_iff_taken (store_with None active None).
Proof.
  split_and!.
  - intros id job [-> ->]%store_with_lookup. simpl. rewrite elem_of_3.
    naive_solver.
  - reflexivity.
  - intros H.
    destruct (H 1%positive (sample_job None active None) eq_refl) as [_ H2].
    destruct H2 as [w Hw]; [|discriminate Hw].
    simpl. rewrite elem_of_3. auto.
Qed.

Corollary worker_iff_taken_always workers0 ops :
  worker_iff_taken (serve workers0 ops).
Proof.
  unfold serve. induction ops as [|op ops IH] using rev_ind.
  - intros id job H. simpl in H. by rewrite lookup_empty in H.
  - rewrite foldl_app. simpl. by apply worker_iff_taken_exec.
Qed.

Corollary otps_minted_always workers0 ops : otps_minted (serve workers0 ops).
Proof.
  unfold serve. induction ops as [|op ops IH] using rev_ind.
  - intros id job c H. simpl in H. by rewrite lookup_empty in H.
  - rewrite foldl_app. simpl. by apply otps_minted_exec.
Qed.

(** ** The completion code *)

Lemma pretty_N_go_length x s :
  (String.length s ≤ String.length (pretty_N_go x s))%nat.
Proof.
  revert s. induction (N.lt_wf_0 x) as [x _ IH]; intros s.
  assert (x = 0 ∨ 0 < x)%N as [->|Hx] by lia; [by rewrite pretty_N_go_0|].
  rewrite pretty_N_go_step by done.
  etrans; [|apply IH, N.div_lt; [done|lia]]. simpl. lia.
Qed.

Lemma pretty_N_nonempty (x : N) : pretty x ≠ EmptyString.
Proof.
  unfold pretty, pretty_N. case_decide as Hx; [done|].
  rewrite pretty_N_go_step by lia.
  intros E.
  pose proof (pretty_N_go_length (x `div` 10)
                (String (pretty_N_char (x `mod` 10)) EmptyString)) as L.
  rewrite E in L. simpl in L. lia.
Qed.

(** A minted code is never the empty string. *)
Lemma mint_nonempty r : mint r ≠ EmptyString.
Proof.
  unfold mint. destruct (Qfloor _) as [|p|p]; unfold pretty, pretty_Z.
  - done.
  - apply (pretty_N_nonempty (Npos p)).
  - done.
Qed.

Lemma getCompletionOTP_active st jobId w r job :
  jobs st !! jobId = Some job → Job.workerId job = Some w → Job.status job = active →
  getCompletionOTP st jobId w r =
  (set_jobs (<[jobId := Job.set_completionOTP (Some (mint r)) job]> (jobs st)) st,
   Ok (mint r)).
Proof.
  intros Hj Hw Hs. unfold getCompletionOTP.
  rewrite (proj2 (findOne_worker_Some st jobId w job)) by done.
  by rewrite bool_decide_eq_true_2.
Qed.

Lemma completeJob_wrong_code st jobId now job code otp :
  jobs st !! jobId = Some job → Job.status job = active →
  Job.completionOTP job = Some code → code ≠ EmptyString →
  otp ≠ EmptyString → otp ≠ code →
  completeJob st jobId (Job.clientId job) (Some otp) now =
  (st, Fail 400 "Invalid OTP. Please check and try again.").
Proof.
  intros Hj Hs Ho Hc Hotp Hne. unfold completeJob.
  rewrite (proj2 (truthy_Some otp) Hotp). cbn [negb].
  rewrite (proj2 (findOne_client_Some st jobId _ job)) by done.
  rewrite bool_decide_eq_true_2 by done. cbn [negb].
  rewrite Ho, (proj2 (truthy_Some code) Hc). cbn [negb].
  rewrite bool_decide_eq_false_2 by congruence. done.
Qed.

(** C4. [completeJob] answers a successful request with [completedAt],
    the time of the request, but stores no time: the assignment
    [job.completedAt = new Date()] names no path of the schema.  The
    stored document is the one that was read with [status = completed]
    and [completionOTP] cleared; [completionDate], the date path that
    the schema declares, is as before, and the store after the request
    is the same whatever the time of the request. *)
Theorem completeJob_completedAt_not_stored (st st' : Store) (jobId clientId : ObjectId)
    (otp : option string) (now : Date) (body : CompletedBody) :
  completeJob st jobId clientId otp now = (st', Ok body) →
  cb_completedAt body = now
  ∧ (∃ job, jobs st !! jobId = Some job
            ∧ jobs st' !! jobId
              = Some (Job.set_completionOTP None (Job.set_status completed job))
            ∧ ∀ job', jobs st' !! jobId = Some job' →
                      Job.completionDate job' = Job.completionDate job)
  ∧ (∀ now', (completeJob st jobId clientId otp now').1 = st').
Proof.
  intros E.
  apply completeJob_Ok in E as (job & code & H1 & H2 & H3 & H4 & -> & H6 & -> & ->).
  split; [done|]. split.
  - exists job. split; [done|]. simpl. rewrite lookup_insert_eq.
    split; [done|]. by intros job' [= <-].
  - intros now'. rewrite <- H2.
    by rewrite (completeJob_accepts st jobId now' job code).
Qed.

Lemma completeJob_completedAt_not_stored_witness :
  cb_completedAt (mkCompletedBody 1%positive completed 5000%Z) = 5000%Z
  ∧ (∃ job, jobs (store_with (Some 20%positive) active (Some "482913")) !! 1%positive
            = Some job
            ∧ jobs (store_with (Some 20%positive) completed None) !! 1%positive
              = Some (Job.set_completionOTP None (Job.set_status completed job))
            ∧ ∀ job', jobs (store_with (Some 20%positive) completed None) !! 1%positive
                      = Some job' →
                      Job.completionDate job' = Job.completionDate job)
  ∧ (∀ now', (completeJob (store_with (Some 20%positive) active (Some "482913"))
                1%positive 10%positive (Some "482913") now').1
             = store_with (Some 20%positive) completed None).
Proof.
  apply (completeJob_completedAt_not_stored
           (store_with (Some 20%positive) active (Some "482913"))
           (store_with (Some 20%positive) completed None)
           1%positive 10%positive (Some "482913") 5000%Z
           (mkCompletedBody 1%positive completed 5000%Z)).
  reflexivity.
Defined.

(** ** Ratings *)

Lemma Qlt_bool_iff a b : Qlt_bool a b = true ↔ (a < b)%Q.
Proof.
  unfold Qlt_bool. rewrite negb_true_iff, <- not_true_iff_false, Qle_bool_iff.
  split; [apply Qnot_le_lt | apply Qlt_not_le].
Qed.

Lemma rating_rejected_false rating :
  rating_rejected rating = false ↔ ∃ q, rating = Some q ∧ (1 <= q <= 5)%Q.
Proof.
  destruct rating as [q|]; simpl.
  - rewrite !orb_false_iff, <- !not_true_iff_false, !Qlt_bool_iff, Qeq_bool_iff.
    split.
    + intros ((_ & H1) & H5). exists q. split; [done|].
      split; apply Qnot_lt_le; done.
    + intros (q' & [= <-] & H1 & H5). repeat split.
      * intros E. rewrite E in H1. by apply Qle_not_lt in H1.
      * by apply Qle_not_lt.
      * by apply Qle_not_lt.
  - split; [discriminate | intros (q & [=] & _)].
Qed.

Lemma rating_rejected_true rating :
  rating_rejected rating = true ↔
  rating = None ∨ ∃ q, rating = Some q ∧ (q < 1 ∨ 5 < q)%Q.
Proof.
  destruct (rating_rejected rating) eqn:E; split; try done.
  - intros _. destruct rating as [q|]; [right | by left]. exists q. split; [done|].
    destruct (Qlt_le_dec q 1) as [?|H1]; [by left|].
    destruct (Qlt_le_dec 5 q) as [?|H5]; [by right|].
    assert (rating_rejected (Some q) = false) as K
      by (apply rating_rejected_false; eauto).
    congruence.
  - apply rating_rejected_false in E as (q & -> & H1 & H5).
    intros [[=] | (q' & [= <-] & [H|H])]; by apply Qlt_not_le in H.
Qed.

Lemma rateWorker_Ok st jobId c rating review st' body :
  rateWorker st jobId c rating review = (st', Ok body) →
  ∃ q r, rating = Some q ∧ (1 <= q <= 5)%Q ∧ rb_rating body = q
         ∧ st' = add_review r st ∧ Review.rating r = q
         ∧ Review.reviewType r = client_to_worker ∧ Review.jobId r = jobId.
Proof.
  unfold rateWorker.
  destruct (rating_rejected rating) eqn:R; [discriminate|].
  apply rating_rejected_false in R as (q & -> & Hq).
  repeat (match goal with
          | |- context [if ?b then _ else _] => destruct b
          | |- context [match ?o with Some _ => _ | None => _ end] => destruct o
          end; try discriminate).
  all: intros [= <- <-]; eauto 10.
Qed.

Lemma rateClient_Ok st jobId w rating review st' body :
  rateClient st jobId w rating review = (st', Ok body) →
  ∃ q r, rating = Some q ∧ (1 <= q <= 5)%Q ∧ rb_rating body = q
         ∧ st' = add_review r st ∧ Review.rating r = q
         ∧ Review.reviewType r = worker_to_client ∧ Review.jobId r = jobId.
Proof.
  unfold rateClient.
  destruct (rating_rejected rating) eqn:R; [discriminate|].
  apply rating_rejected_false in R as (q & -> & Hq).
  repeat (match goal with
          | |- context [if ?b then _ else _] => destruct b
          | |- context [match ?o with Some _ => _ | None => _ end] => destruct o
          end; try discriminate).
  all: intros [= <- <-]; eauto 10.
Qed.

(** The claim that accepted ratings are integers fails: 4.5 is accepted
    by [rateWorker] and stored. *)
Lemma rating_integer_counterexample :
  ∃ st' body,
    rateWorker (store_with (Some 20%positive) completed None)
               1%positive 10%positive (Some (9 # 2)) None = (st', Ok body)
    ∧ rb_rating body = (9 # 2)
    ∧ (∃ r, reviews st' = [r] ∧ Review.rating r = (9 # 2))
    ∧ ∀ z : Z, ¬ (9 # 2 == inject_Z z)%Q.
Proof.
  eexists _, _. split; [reflexivity|]. split; [reflexivity|]. split.
  - eexists. split; reflexivity.
  - intros z. unfold Qeq, inject_Z. simpl. lia.
Qed.

(** C9 (amended). [rateWorker] and [rateClient] accept a rating only when
    it is a number between 1 and 5 inclusive, whole or not, and store that
    number in the review they create; a rating that is missing or outside
    the interval is answered 400 and creates no review. *)
Theorem rating_between_1_and_5 (st : Store) (jobId actor : ObjectId)
    (rating : option Q) (review : option string) :
  (∀ st' body, rateWorker st jobId actor rating review = (st', Ok body) →
     ∃ q r, rating = Some q ∧ (1 <= q <= 5)%Q ∧ rb_rating body = q
            ∧ reviews st' = (reviews st ++ [r])%list ∧ Review.rating r = q)
  ∧ (∀ st' body, rateClient st jobId actor rating review = (st', Ok body) →
     ∃ q r, rating = Some q ∧ (1 <= q <= 5)%Q ∧ rb_rating body = q
            ∧ reviews st' = (reviews st ++ [r])%list ∧ Review.rating r = q)
  ∧ (rating = None ∨ (∃ q, rating = Some q ∧ (q < 1 ∨ 5 < q)%Q) →
     rateWorker st jobId actor rating review
     = (st, Fail 400 "Rating must be between 1 and 5")
     ∧ rateClient st jobId actor rating review
       = (st, Fail 400 "Rating must be between 1 and 5")).
Proof.
  split; [|split].
  - intros st' body (q & r & H1 & H2 & H3 & -> & H5 & _)%rateWorker_Ok.
    exists q, r. auto.
  - intros st' body (q & r & H1 & H2 & H3 & -> & H5 & _)%rateClient_Ok.
    exists q, r. auto.
  - intros H%rating_rejected_true. unfold rateWorker, rateClient. by rewrite H.
Qed.

Lemma rating_between_1_and_5_witness :
  rateWorker (store_with (Some 20%positive) completed None)
             1%positive 10%positive (Some (11 # 2)) None
  = (store_with (Some 20%positive) completed None,
     Fail 400 "Rating must be between 1 and 5")
  ∧ rateClient (store_with (Some 20%positive) completed None)
               1%positive 10%positive (Some (11 # 2)) None
    = (store_with (Some 20%positive) completed None,
       Fail 400 "Rating must be between 1 and 5").
Proof.
  apply (rating_between_1_and_5 (store_with (Some 20%positive) completed None)
           1%positive 10%positive (Some (11 # 2)) None).
  right. exists (11 # 2). split; [reflexivity|]. right. reflexivity.
Defined.

(** ** The list of available jobs *)

Section SortFacts.
Context {A : Type} (cmp : A → A → Q).

Lemma insert_sorted_perm x l : insert_sorted cmp x l ≡ₚ x :: l.
Proof.
  induction l as [|y l IH]; simpl; [done|].
  destruct (Qle_bool _ _); [done|]. rewrite IH. apply Permutation_swap.
Qed.

Lemma sort_perm l : sort cmp l ≡ₚ l.
Proof.
  induction l as [|x l IH]; simpl; [done|].
  rewrite insert_sorted_perm. by rewrite IH.
Qed.

Lemma elem_of_sort x l : x ∈ sort cmp l ↔ x ∈ l.
Proof. by rewrite sort_perm. Qed.

Hypothesis total : ∀ a b, keeps cmp a b ∨ keeps cmp b a.

Lemma insert_sorted_Sorted x l :
  Sorted (keeps cmp) l → Sorted (keeps cmp) (insert_sorted cmp x l).
Proof.
  induction 1 as [|y l Hl IH Hhd]; simpl; [by repeat constructor|].
  destruct (Qle_bool (cmp x y) 0) eqn:E.
  - by repeat constructor.
  - constructor; [done|].
    assert (keeps cmp y x) as Hyx.
    { destruct (total x y) as [H|H]; [|done]. unfold keeps in H. congruence. }
    destruct Hhd as [|z l' Hyz]; simpl; [by constructor|].
    destruct (Qle_bool (cmp x z) 0); by constructor.
Qed.

Lemma sort_Sorted l : Sorted (keeps cmp) (sort cmp l).
Proof.
  induction l as [|x l IH]; simpl; [constructor|].
  by apply insert_sorted_Sorted.
Qed.
End SortFacts.

Lemma Sorted_weaken {A} (R S : A → A → Prop) l :
  (∀ a b, R a b → S a b) → Sorted R l → Sorted S l.
Proof.
  intros HRS. induction 1 as [|x l Hl IH Hhd]; constructor; [done|].
  destruct Hhd; constructor; auto.
Qed.

Lemma filter_sublist {A} (p : A → bool) l : List.filter p l `sublist_of` l.
Proof.
  induction l as [|x l IH]; simpl; [constructor|].
  destruct (p x); by constructor.
Qed.

Lemma elem_of_List_filter {A} (p : A → bool) l x :
  x ∈ List.filter p l ↔ x ∈ l ∧ p x = true.
Proof. by rewrite !list_elem_of_In, filter_In. Qed.

(** [slice] cuts one stretch out of the list. *)
Lemma slice_stretch {A} (l : list A) start finish :
  ∃ l1 l2, l = l1 ++ slice l start finish ++ l2.
Proof.
  unfold slice. cbv zeta.
  match goal with
  | |- context [take ?n (drop ?k l)] => exists (take k l), (drop n (drop k l))
  end.
  by rewrite !take_drop.
Qed.

Lemma elem_of_slice {A} (l : list A) start finish x :
  x ∈ slice l start finish → x ∈ l.
Proof.
  destruct (slice_stretch l start finish) as (l1 & l2 & E).
  intros H. rewrite E, !elem_of_app. auto.
Qed.

Lemma StronglySorted_slice {A} (R : A → A → Prop) l start finish :
  StronglySorted R l → StronglySorted R (slice l start finish).
Proof.
  destruct (slice_stretch l start finish) as (l1 & l2 & E).
  rewrite E at 1. intros H.
  apply StronglySorted_app_1_r in H. by apply StronglySorted_app_1_l in H.
Qed.

Lemma find_jobs_elem_of st q id job :
  (id, job) ∈ find_jobs st q ↔ jobs st !! id = Some job ∧ q id job = true.
Proof. by rewrite list_elem_of_In, find_jobs_In. Qed.

Lemma find_jobs_NoDup st q : NoDup (find_jobs st q).*1.
Proof.
  unfold find_jobs.
  eapply sublist_NoDup; [apply (NoDup_fst_map_to_list (jobs st))|].
  apply fmap_sublist, filter_sublist.
Qed.

#[global] Instance by_recency_trans : Transitive by_recency.
Proof. unfold by_recency. intros a b c. lia. Qed.

#[global] Instance by_distance_trans : Transitive by_distance.
Proof.
  unfold by_distance, by_recency. intros a b c.
  destruct (distance a), (distance b), (distance c); try tauto.
  - apply Qle_trans.
  - lia.
Qed.

Lemma newest_first_keeps (a b : Job.t) :
  keeps newest_first a b ↔ (Job.createdAt b ≤ Job.createdAt a)%Z.
Proof.
  unfold keeps, newest_first. rewrite Qle_bool_iff.
  change 0%Q with (inject_Z 0). rewrite <- Zle_Qle. lia.
Qed.

Lemma compare_distance_keeps a b :
  keeps (compare_available "distance") a b ↔ by_distance a b.
Proof.
  unfold keeps, compare_available, by_distance. simpl.
  destruct (distance a) as [da|], (distance b) as [db|].
  - rewrite Qle_bool_iff.
    assert (0 + - (da - db) == db + - da)%Q as E by ring.
    rewrite (Qle_minus_iff (da - db) 0), (Qle_minus_iff da db).
    by rewrite E.
  - done.
  - split; [discriminate | done].
  - apply newest_first_keeps.
Qed.

Lemma compare_other_keeps s a b :
  s ≠ "distance" → keeps (compare_available s) a b ↔ by_recency a b.
Proof.
  intros Hs. unfold keeps, compare_available.
  destruct (String.eqb s "distance") eqn:E.
  - apply String.eqb_eq in E. done.
  - apply newest_first_keeps.
Qed.

Lemma by_recency_total a b : by_recency a b ∨ by_recency b a.
Proof. unfold by_recency. lia. Qed.

Lemma by_distance_total a b : by_distance a b ∨ by_distance b a.
Proof.
  unfold by_distance. destruct (distance a) as [da|], (distance b) as [db|]; auto.
  - destruct (Qlt_le_dec da db) as [H|H]; [left; by apply Qlt_le_weak | by right].
  - apply by_recency_total.
Qed.

Section AvailableFacts.
Variable dist : Q → Q → Q → Q → Q.

Lemma distances_skip (w : Q * Q) (l : list (ObjectId * Job.t))
    (acc : gmap ObjectId Q) id :
  id ∉ l.*1 →
  foldl (λ (distances : gmap ObjectId Q) (kv : ObjectId * Job.t),
           match valid_location (Job.address kv.2) with
           | Some (la, lo) => <[kv.1 := dist w.1 w.2 la lo]> distances
           | None => distances
           end) acc l !! id = acc !! id.
Proof.
  revert acc. induction l as [|[k v] l IH]; intros acc Hid; simpl; [done|].
  rewrite fmap_cons, not_elem_of_cons in Hid. destruct Hid as [Hk Hl].
  rewrite IH by done. simpl in Hk.
  destruct (valid_location _) as [[la lo]|]; [|done].
  by rewrite lookup_insert_ne.
Qed.

Lemma distances_hit (w : Q * Q) (l : list (ObjectId * Job.t))
    (acc : gmap ObjectId Q) id job :
  NoDup l.*1 → (id, job) ∈ l →
  foldl (λ (distances : gmap ObjectId Q) (kv : ObjectId * Job.t),
           match valid_location (Job.address kv.2) with
           | Some (la, lo) => <[kv.1 := dist w.1 w.2 la lo]> distances
           | None => distances
           end) acc l !! id
  = match valid_location (Job.address job) with
    | Some (la, lo) => Some (dist w.1 w.2 la lo)
    | None => acc !! id
    end.
Proof.
  revert acc. induction l as [|[k v] l IH]; intros acc Hnd Hin; simpl.
  - by apply elem_of_nil in Hin.
  - rewrite fmap_cons in Hnd. apply NoDup_cons in Hnd as [Hk Hnd].
    apply elem_of_cons in Hin as [[= <- <-]|Hin].
    + rewrite distances_skip by done. simpl.
      destruct (valid_location _) as [[la lo]|]; [|done].
      by rewrite lookup_insert_eq.
    + rewrite IH by done.
      destruct (valid_location (Job.address job)) as [[la lo]|]; [done|].
      simpl. destruct (valid_location _) as [[la lo]|]; [|done].
      rewrite lookup_insert_ne; [done|].
      intros <-. apply Hk. apply list_elem_of_fmap. by exists (k, job).
Qed.

Lemma distances_lookup w l id job :
  NoDup l.*1 → (id, job) ∈ l →
  or_null (calculateJobDistances dist w l !! id) = job_distance dist w job.
Proof.
  intros Hnd Hin. unfold calculateJobDistances, job_distance.
  rewrite (distances_hit w l ∅ id job) by done.
  by destruct (valid_location _) as [[la lo]|].
Qed.

Lemma found_elem_of st worker q id job :
  (id, job) ∈ sort (λ a b : ObjectId * Job.t, newest_first a.2 b.2)
                   (find_jobs st (available_query worker q))
  ↔ jobs st !! id = Some job ∧ available_query worker q id job = true.
Proof. by rewrite elem_of_sort, find_jobs_elem_of. Qed.

Lemma found_NoDup st worker q :
  NoDup (sort (λ a b : ObjectId * Job.t, newest_first a.2 b.2)
              (find_jobs st (available_query worker q))).*1.
Proof. rewrite sort_perm. apply find_jobs_NoDup. Qed.

(** Which jobs are listed, and with which distance. *)
Lemma jobsWithDistance_elem_of st worker q j :
  j ∈ jobsWithDistance dist st worker q ↔
  jobs st !! jd_id j = Some (jd_job j)
  ∧ available_query worker q (jd_id j) (jd_job j) = true
  ∧ match valid_location (Worker.address worker) with
    | Some w => distance j = job_distance dist w (jd_job j)
                ∧ within (maxDistance_of q) j = true
    | None => distance j = None
    end.
Proof.
  unfold jobsWithDistance.
  destruct (valid_location (Worker.address worker)) as [w|].
  - rewrite elem_of_sort, elem_of_List_filter, list_elem_of_fmap. split.
    + intros [([id job] & -> & Hin) Hw]. simpl in *.
      pose proof Hin as [H1 H2]%found_elem_of.
      rewrite (distances_lookup w _ id job) in * by (done || apply found_NoDup).
      auto.
    + intros (H1 & H2 & H3 & H4). split; [|done].
      exists (jd_id j, jd_job j). simpl.
      assert ((jd_id j, jd_job j) ∈
                sort (λ a b : ObjectId * Job.t, newest_first a.2 b.2)
                     (find_jobs st (available_query worker q))) as Hin
        by (by apply found_elem_of).
      split; [|done].
      rewrite (distances_lookup w _ _ (jd_job j)) by (done || apply found_NoDup).
      rewrite <- H3. by destruct j.
  - rewrite list_elem_of_fmap. split.
    + intros ([id job] & -> & Hin). simpl.
      apply found_elem_of in Hin as [H1 H2]. auto.
    + intros (H1 & H2 & H3). exists (jd_id j, jd_job j). simpl.
      split; [rewrite <- H3; by destruct j | by apply found_elem_of].
Qed.

Lemma found_sorted st worker q :
  Sorted (λ a b : ObjectId * Job.t, (Job.createdAt b.2 ≤ Job.createdAt a.2)%Z)
         (sort (λ a b : ObjectId * Job.t, newest_first a.2 b.2)
               (find_jobs st (available_query worker q))).
Proof.
  eapply Sorted_weaken; [|apply sort_Sorted].
  - intros a b H. by apply newest_first_keeps in H.
  - intros a b. unfold keeps. rewrite !Qle_bool_iff. unfold newest_first.
    change 0%Q with (inject_Z 0). rewrite <- !Zle_Qle. lia.
Qed.

Lemma jobsWithDistance_by_distance st worker q :
  sortBy_of q = "distance" →
  StronglySorted by_distance (jobsWithDistance dist st worker q).
Proof.
  intros Hs. apply Sorted_StronglySorted; [apply _|].
  unfold jobsWithDistance.
  destruct (valid_location (Worker.address worker)) as [w|].
  - rewrite Hs. eapply Sorted_weaken; [|apply sort_Sorted].
    + intros a b H. by apply compare_distance_keeps.
    + intros a b. rewrite !compare_distance_keeps. apply by_distance_total.
  - eapply Sorted_fmap; [|apply found_sorted].
    intros a b H. exact H.
Qed.

Lemma jobsWithDistance_by_recency st worker q :
  sortBy_of q ≠ "distance" →
  StronglySorted by_recency (jobsWithDistance dist st worker q).
Proof.
  intros Hs. apply Sorted_StronglySorted; [apply _|].
  unfold jobsWithDistance.
  destruct (valid_location (Worker.address worker)) as [w|].
  - eapply Sorted_weaken; [|apply sort_Sorted].
    + intros a b H. by apply (compare_other_keeps (sortBy_of q)).
    + intros a b. rewrite !(compare_other_keeps (sortBy_of q)) by done.
      apply by_recency_total.
  - eapply Sorted_fmap; [|apply found_sorted].
    intros a b H. exact H.
Qed.

Lemma available_query_true worker q id job :
  available_query worker q id job = true →
  Job.status job = posted ∧ Job.workerId job = None
  ∧ (q_skill q = Some "For you" →
     includes (Worker.skills worker) (Job.skill job) = true).
Proof.
  unfold available_query.
  rewrite !andb_true_iff, !bool_decide_eq_true.
  intros (((Hs & Hw) & Hk) & _). split; [done|]. split; [done|].
  intros E. rewrite E in Hk. simpl in Hk. exact Hk.
Qed.

Lemma available_query_all_services worker q id job :
  q_skill q = Some "All Services" →
  available_query worker q id job =
  bool_decide (Job.status job = posted) && bool_decide (Job.workerId job = None)
  && (if bool_decide (q_urgency q = Some "true") then Job.urgency job else true).
Proof.
  intros E. unfold available_query. rewrite E.
  rewrite (bool_decide_eq_true_2 (Some "All Services" = Some "All Services")) by done.
  rewrite (bool_decide_eq_false_2 (Some "All Services" = Some "For you")) by done.
  cbn [truthy negb andb]. by rewrite andb_true_r.
Qed.
End AvailableFacts.

Lemma includes_elem_of l x : includes l x = true ↔ x ∈ l.
Proof.
  unfold includes. rewrite existsb_exists, list_elem_of_In. split.
  - intros (y & Hy & ->%String.eqb_eq). done.
  - intros H. exists x. split; [done | apply String.eqb_refl].
Qed.

(** The claim that the list is newest first when [sortBy] is not
    supplied fails: for a worker with a location the older, nearer job 1
    is listed before the newer job 2. *)
Lemma available_default_order_counterexample :
  ∃ body,
    getAvailableJobs grid_distance store_near_far 20%positive no_query = Ok body
    ∧ q_sortBy no_query = None
    ∧ jd_id <$> av_jobs body = [1%positive; 2%positive]
    ∧ (λ j, Job.createdAt (jd_job j)) <$> av_jobs body = [1000%Z; 2000%Z]
    ∧ ¬ StronglySorted by_recency (av_jobs body).
Proof.
  destruct (getAvailableJobs grid_distance store_near_far 20%positive no_query)
    as [body|c m] eqn:E; vm_compute in E; [|discriminate].
  injection E as <-. eexists. split; [reflexivity|].
  split; [reflexivity|]. split; [reflexivity|]. split; [reflexivity|].
  intros H. inversion H as [|? ? _ Hf]. inversion Hf as [|? ? Hr _].
  unfold by_recency in Hr. simpl in Hr. lia.
Qed.

Section AvailableAnswer.
Variable dist : Q → Q → Q → Q → Q.

(** C10 (amended). Every listed job is posted and unclaimed;
    [skill = "For you"] keeps the jobs whose skill the worker has, and
    with ["All Services"] a posted, unclaimed job of any skill is in
    the list that is paginated, provided its distance is unknown or in
    range; a listed distance is at most [maxDistance] (25 when not
    supplied); the list is ordered by distance when [sortBy] is
    ['distance'] or is not supplied, and newest first when [sortBy] is
    supplied with another value. *)
Theorem getAvailableJobs_answer (st : Store) (workerId : ObjectId)
    (q : AvailableQuery) (worker : Worker.t) (body : AvailableBody) :
  workers st !! workerId = Some worker →
  getAvailableJobs dist st workerId q = Ok body →
  (∀ j, j ∈ av_jobs body →
     jobs st !! jd_id j = Some (jd_job j)
     ∧ Job.status (jd_job j) = posted ∧ Job.workerId (jd_job j) = None)
  ∧ (q_skill q = Some "For you" →
     ∀ j, j ∈ av_jobs body → Job.skill (jd_job j) ∈ Worker.skills worker)
  ∧ (q_skill q = Some "All Services" →
     ∀ id job, jobs st !! id = Some job →
       Job.status job = posted → Job.workerId job = None →
       (q_urgency q = Some "true" → Job.urgency job = true) →
       match valid_location (Worker.address worker) with
       | Some w => ∀ d, job_distance dist w job = Some d →
                        ∃ m, maxDistance_of q = Some m ∧ (d <= m)%Q
       | None => True
       end →
       ∃ j, j ∈ jobsWithDistance dist st worker q ∧ jd_id j = id ∧ jd_job j = job)
  ∧ av_jobs body
    = slice (jobsWithDistance dist st worker q)
            ((page_of q - 1) * limit_of q)
            ((page_of q - 1) * limit_of q + limit_of q)
  ∧ (∀ j d, j ∈ av_jobs body → distance j = Some d →
       ∃ m, maxDistance_of q = Some m ∧ (d <= m)%Q)
  ∧ (q_maxDistance q = None →
     ∀ j d, j ∈ av_jobs body → distance j = Some d → (d <= 25)%Q)
  ∧ (q_sortBy q = None ∨ q_sortBy q = Some "distance" →
     StronglySorted by_distance (av_jobs body))
  ∧ (∀ s, q_sortBy q = Some s → s ≠ "distance" →
     StronglySorted by_recency (av_jobs body)).
Proof.
  intros Hw. unfold getAvailableJobs. rewrite Hw. intros [= <-]. simpl.
  set (all := jobsWithDistance dist st worker q).
  set (page := slice all _ _).
  assert (∀ j, j ∈ page → j ∈ all) as Hpage by (intros j; apply elem_of_slice).
  assert (∀ j d, j ∈ page → distance j = Some d →
            ∃ m, maxDistance_of q = Some m ∧ (d <= m)%Q) as Hmax.
  { intros j d Hj%Hpage Hd.
    apply jobsWithDistance_elem_of in Hj as (_ & _ & Hdist).
    destruct (valid_location (Worker.address worker)) as [w|]; [|congruence].
    destruct Hdist as [_ Hin]. unfold within in Hin. rewrite Hd in Hin.
    destruct (maxDistance_of q) as [m|]; [|discriminate].
    exists m. split; [done|]. by apply Qle_bool_iff. }
  repeat split.
  - by apply Hpage, jobsWithDistance_elem_of in H as (? & ? & _).
  - by apply Hpage, jobsWithDistance_elem_of in H
      as (_ & (? & _)%available_query_true & _).
  - by apply Hpage, jobsWithDistance_elem_of in H
      as (_ & (_ & ? & _)%available_query_true & _).
  - intros Hs j Hj%Hpage.
    apply jobsWithDistance_elem_of in Hj as (_ & (_ & _ & Hk)%available_query_true & _).
    by apply includes_elem_of, Hk.
  - intros Hs id job Hj Hst Hwk Hu Hrange.
    assert (available_query worker q id job = true) as Hq.
    { rewrite (available_query_all_services worker q id job Hs).
      rewrite !bool_decide_eq_true_2 by done. simpl.
      case_bool_decide; auto. }
    destruct (valid_location (Worker.address worker)) as [w|] eqn:V.
    + exists (mkJobWithDistance id job (job_distance dist w job)).
      split; [|done]. apply jobsWithDistance_elem_of. simpl. rewrite V.
      repeat split; try done. unfold within. simpl.
      destruct (job_distance dist w job) as [d|]; [|done].
      destruct (Hrange d eq_refl) as (m & -> & Hle). by apply Qle_bool_iff.
    + exists (mkJobWithDistance id job None).
      split; [|done]. apply jobsWithDistance_elem_of. simpl. by rewrite V.
  - exact Hmax.
  - intros Hnone j d Hj Hd. destruct (Hmax j d Hj Hd) as (m & Hm & Hle).
    unfold maxDistance_of in Hm. rewrite Hnone in Hm. simpl in Hm.
    by injection Hm as <-.
  - intros Hs. apply StronglySorted_slice, jobsWithDistance_by_distance.
    unfold sortBy_of. by destruct Hs as [-> | ->].
  - intros s Hs Hne. apply StronglySorted_slice, jobsWithDistance_by_recency.
    unfold sortBy_of. by rewrite Hs.
Qed.
End AvailableAnswer.

Lemma getAvailableJobs_answer_witness :
  ∃ body,
    getAvailableJobs grid_distance store_near_far 20%positive no_query = Ok body
    ∧ StronglySorted by_distance (av_jobs body)
    ∧ ∀ j d, j ∈ av_jobs body → distance j = Some d → (d <= 25)%Q.
Proof.
  pose proof (getAvailableJobs_answer grid_distance store_near_far 20%positive no_query)
    as H.
  destruct (getAvailableJobs grid_distance store_near_far 20%positive no_query)
    as [body|c m] eqn:E.
  - exists body. split; [reflexivity|].
    destruct (H (Worker.mk ["plumber"]
                   (mkAddress (Some "Pune")
                      (Some (mkLocation (Some (185 # 10)) (Some (738 # 10))))))
                body eq_refl eq_refl)
      as (_ & _ & _ & _ & _ & H25 & Hsorted & _).
    split; [apply Hsorted; by left | apply H25; reflexivity].
  - vm_compute in E. discriminate.
Defined.

(** ** Concurrent accept requests *)

Lemma acceptJob_step_trans jobId w st pc st' pc' :
  acceptJob_step jobId w st pc = (st', pc') →
  accept_trans jobId w st pc st' pc'.
Proof.
  destruct pc as [| | |job|resp|resp]; simpl.
  - destruct (0 <? length (activeJobs st w))%nat eqn:P; intros [= <- <-].
    + apply t_busy. by apply precheck_true.
    + apply t_free. by apply precheck_false.
  - destruct (claim st jobId w) as [st1 [job'|]] eqn:C; intros [= <- <-].
    + apply claim_Some in C as (job & H1 & H2 & H3 & -> & ->). by apply t_claim.
    + apply claim_None in C as [-> H]. by apply t_lost.
  - intros [= <- <-]. apply t_reread.
  - destruct (workers st !! w) as [worker|] eqn:W.
    + destruct (includes (Worker.skills worker) (Job.skill job)) eqn:I;
        simpl; intros [= <- <-].
      * by eapply t_accept.
      * by eapply t_no_skill.
    + intros [= <- <-]. by apply t_no_worker.
  - intros [= <- <-]. apply t_rollback.
  - intros [= <- <-]. apply t_done.
Qed.

Lemma sys_step_cases i s :
  sys_step i s = s
  ∨ ∃ r st' pc',
      requests s !! i = Some r
      ∧ accept_trans (rq_job r) (rq_worker r) (db s) (rq_pc r) st' pc'
      ∧ sys_step i s
        = mkSystem st' (<[i := mkRequest (rq_job r) (rq_worker r) pc']> (requests s)).
Proof.
  unfold sys_step. destruct (requests s !! i) as [r|] eqn:E; [|by left].
  destruct (acceptJob_step _ _ _ _) as [st' pc'] eqn:S.
  right. exists r, st', pc'. by apply acceptJob_step_trans in S.
Qed.

Lemma filter_insert_length {A} (p : A → bool) (l : list A) i x y :
  l !! i = Some x →
  (length (List.filter p (<[i := y]> l)) + b2n (p x)
   = length (List.filter p l) + b2n (p y))%nat.
Proof.
  revert i. induction l as [|z l IH]; intros i Hi; [done|].
  destruct i as [|i]; simpl in *.
  - injection Hi as ->. destruct (p x), (p y); simpl; lia.
  - specialize (IH i Hi). destruct (p z); simpl; lia.
Qed.

Lemma count_step p s st' i r r' :
  requests s !! i = Some r →
  (count p (mkSystem st' (<[i := r']> (requests s))) + b2n (p r)
   = count p s + b2n (p r'))%nat.
Proof. intros H. unfold count. simpl. by apply filter_insert_length. Qed.

Lemma count_zero p s :
  Forall (λ r, p r = false) (requests s) → count p s = 0%nat.
Proof.
  unfold count. induction 1 as [|r l Hr Hl IH]; simpl; [done|]. by rewrite Hr.
Qed.

Lemma count_ext p q s :
  Forall (λ r, p r = q r) (requests s) → count p s = count q s.
Proof.
  unfold count. induction 1 as [|r l Hr Hl IH]; simpl; [done|].
  rewrite Hr. destruct (q r); simpl; congruence.
Qed.

Lemma count_le p q s :
  Forall (λ r, p r = true → q r = true) (requests s) → (count p s ≤ count q s)%nat.
Proof.
  unfold count. induction 1 as [|r l Hr Hl IH]; simpl; [done|].
  destruct (p r); [rewrite Hr by done|destruct (q r)]; simpl; lia.
Qed.

Lemma answered_ok_claimed r : answered_ok r = true → claimed r = true.
Proof. unfold answered_ok, claimed. by destruct (rq_pc r) as [| | | | |[]]. Qed.

Lemma run_snoc sched i s : run (sched ++ [i]) s = sys_step i (run sched s).
Proof. unfold run. by rewrite foldl_app. Qed.

Lemma sys_step_length i s : length (requests (sys_step i s)) = length (requests s).
Proof.
  destruct (sys_step_cases i s) as [->|(r & st' & pc' & _ & _ & ->)]; [done|].
  simpl. apply length_insert.
Qed.

Lemma run_length sched s : length (requests (run sched s)) = length (requests s).
Proof.
  induction sched as [|i sched IH] using rev_ind; [done|].
  by rewrite run_snoc, sys_step_length.
Qed.

Lemma holds_unique st w1 w2 jobId :
  holds st w1 jobId → holds st w2 jobId → w1 = w2.
Proof. intros (j1 & H1 & W1 & _) (j2 & H2 & W2 & _). congruence. Qed.

Lemma claimable_not_after_claim st jobId w job :
  ¬ claimable
      (set_jobs (<[jobId := Job.set_status assigned (Job.set_workerId (Some w) job)]>
                   (jobs st)) st) jobId.
Proof.
  intros (j & Hj & Hs & _). simpl in Hj. rewrite lookup_insert_eq in Hj.
  injection Hj as <-. discriminate.
Qed.

Lemma known_reread o : known_answer (reread_response o).
Proof.
  right. unfold reread_response. destruct o as [e|]; [case_bool_decide|]; simpl;
    rewrite elem_of_3; auto.
Qed.

Lemma reread_is_fail o : ∃ c m, reread_response o = Fail c m.
Proof.
  unfold reread_response. destruct o as [e|]; [case_bool_decide|]; eauto.
Qed.

(** The invariant that needs no assumption on the workers. *)
Lemma accept_inv_step jobId i s : accept_inv jobId s → accept_inv jobId (sys_step i s).
Proof.
  intros (Hall & Hle & Hfree).
  destruct (sys_step_cases i s) as [->|(r & st' & pc' & Hi & Ht & ->)]; [done|].
  pose proof (Forall_lookup_1 _ _ _ _ Hall Hi) as [Hjob Hpc].
  pose proof (count_step claimed s st' i r (mkRequest jobId (rq_worker r) pc') Hi) as Hc.
  destruct r as [rj rw rpc]. simpl in Hjob, Hpc, Ht. subst rj.
  unfold accept_inv. cbn [db requests rq_job rq_worker] in *.
  destruct Ht;
    try match goal with
        | Hpc : is_ok ?resp = false ∧ _ |- _ =>
          destruct Hpc as [Hfail Hknown]; destruct resp; [discriminate|]
        end;
    cbn [claimed b2n rq_pc too_many accepted] in Hc;
    (split; [apply Forall_insert; [done|split; [done|]]
            |split; [try lia|intros H'; try specialize (Hfree H'); try lia]]).
  all: try done.
  all: try apply known_reread.
  all: try (by left).
  all: try (by apply claimable_not_after_claim in H').
  all: try (assert (count claimed s = 0%nat) as Hz
              by (apply Hfree; by exists job); lia).
  all: try (right; simpl; rewrite elem_of_3; by auto).
  all: try (split; [done|]; right; simpl; rewrite elem_of_3; by auto).
  all: destruct (reread_is_fail (jobs st !! jobId)) as (c & m & E);
    rewrite E in *; cbn [b2n] in Hc; lia.
Qed.

Lemma accept_inv_fire st jobId ws : accept_inv jobId (fire st jobId ws).
Proof.
  assert (Forall (λ r, rq_job r = jobId ∧ rq_pc r = AtPrecheck)
            (requests (fire st jobId ws))) as H.
  { simpl. apply Forall_fmap, Forall_true. done. }
  assert (count claimed (fire st jobId ws) = 0%nat) as Hz.
  { apply count_zero. eapply Forall_impl; [exact H|].
    intros r [_ Hpc]. unfold claimed. by rewrite Hpc. }
  split; [|split; [lia|done]].
  eapply Forall_impl; [exact H|]. intros r [? Hpc]. by rewrite Hpc.
Qed.

Lemma accept_inv_run jobId sched st ws :
  accept_inv jobId (run sched (fire st jobId ws)).
Proof.
  induction sched as [|i sched IH] using rev_ind; [apply accept_inv_fire|].
  rewrite run_snoc. by apply accept_inv_step.
Qed.

Lemma workers_rollback st jobId : workers (rollback st jobId) = workers st.
Proof. unfold rollback. by destruct (jobs st !! jobId). Qed.

Lemma holds_jobs st st' w id : jobs st' = jobs st → holds st' w id → holds st w id.
Proof. unfold holds. by intros ->. Qed.

Lemma accept_trans_workers jobId w st pc st' pc' :
  accept_trans jobId w st pc st' pc' → workers st' = workers st.
Proof. destruct 1; try done. apply workers_rollback. Qed.

(** The invariant of a race among eligible workers. *)
Lemma race_inv_step st jobId job i s :
  jobs st !! jobId = Some job → Job.status job = posted → Job.workerId job = None →
  race_inv st jobId job s → race_inv st jobId job (sys_step i s).
Proof.
  intros Hj Hs Hw (Hwk & Hall & Hcase).
  destruct (sys_step_cases i s) as [->|(r & st' & pc' & Hi & Ht & ->)]; [done|].
  pose proof (Forall_lookup_1 _ _ _ _ Hall Hi) as [Hjob Helig].
  pose proof (count_step claimed s st' i r (mkRequest jobId (rq_worker r) pc') Hi) as Hc.
  destruct r as [rj rw rpc]. simpl in Hjob, Helig, Ht. subst rj.
  cbn [rq_job rq_worker] in *.
  destruct Helig as [(worker & Hworker & Hskill) Hidle].
  split; [|split].
  - simpl. rewrite <- Hwk. eapply accept_trans_workers, Ht.
  - simpl. apply Forall_insert; [done|]. by repeat split; eauto.
  - cbn [db requests].
    destruct Hcase as [[Hjobs HA] | ((w0 & Hjobs) & Hcount & HB)].
    + pose proof (Forall_lookup_1 _ _ _ _ HA Hi) as Hpc. simpl in Hpc.
      assert (count claimed s = 0%nat) as Hzero.
      { apply count_zero. eapply Forall_impl; [exact HA|].
        intros r [E|E]; unfold claimed; by rewrite E. }
      destruct Ht; try (by destruct Hpc).
      * destruct H as [id H]. destruct (Hidle id). by eapply holds_jobs.
      * left. split; [done|]. apply Forall_insert; auto.
      * rewrite Hjobs in H. assert (job0 = job) as -> by congruence.
        right. split; [exists rw; by rewrite jobs_set_jobs, Hjobs|].
        cbn [claimed b2n rq_pc] in Hc. split; [lia|].
        apply Forall_insert; [|done].
        eapply Forall_impl; [exact HA|]. intros r [E|E]; by rewrite E.
      * destruct H. exists job. by rewrite Hjobs.
    + pose proof (Forall_lookup_1 _ _ _ _ HB Hi) as Hpc. simpl in Hpc.
      assert (jobs (db s) !! jobId
              = Some (Job.set_status assigned (Job.set_workerId (Some w0) job)))
        as Hlook by (rewrite Hjobs; apply lookup_insert_eq).
      destruct Ht; cbn [claimed b2n rq_pc too_many accepted] in Hc.
      * right; split; [by exists w0|]; split; [lia|].
        apply Forall_insert; [done|]. right. simpl. rewrite elem_of_2. auto.
      * right; split; [by exists w0|]; split; [lia|].
        by apply Forall_insert.
      * rewrite Hlook in H. injection H as <-. discriminate.
      * right; split; [by exists w0|]; split; [lia|].
        by apply Forall_insert.
      * rewrite Hlook in *. unfold reread_response in *.
        rewrite bool_decide_eq_true_2 in * by (simpl; eauto).
        cbn [b2n] in Hc.
        right; split; [by exists w0|]; split; [lia|].
        apply Forall_insert; [done|]. right. simpl. rewrite elem_of_2. auto.
      * rewrite Hwk in H. congruence.
      * rewrite Hwk in H. assert (worker0 = worker) as -> by congruence.
        rewrite Hpc in H0. congruence.
      * right; split; [by exists w0|]; split; [lia|].
        apply Forall_insert; [done|]. by left.
      * destruct Hpc.
      * right; split; [by exists w0|]; split; [lia|].
        by apply Forall_insert.
Qed.

Lemma race_inv_fire st jobId job ws :
  Forall (eligible st job) ws → race_inv st jobId job (fire st jobId ws).
Proof.
  intros Hel. split; [done|]. split.
  - simpl. apply Forall_fmap. eapply Forall_impl; [exact Hel|]. by intros w Hw.
  - left. split; [done|]. simpl. apply Forall_fmap, Forall_true. by left.
Qed.

Lemma race_inv_run st jobId job ws sched :
  jobs st !! jobId = Some job → Job.status job = posted → Job.workerId job = None →
  Forall (eligible st job) ws →
  race_inv st jobId job (run sched (fire st jobId ws)).
Proof.
  intros Hj Hs Hw Hel.
  induction sched as [|i sched IH] using rev_ind; [by apply race_inv_fire|].
  rewrite run_snoc. by apply race_inv_step.
Qed.

(** The conditional update alone: once it has matched, it matches for
    nobody else while the job stays as it is. *)
Lemma claim_once st jobId w st' job' w' :
  claim st jobId w = (st', Some job') → claim st' jobId w' = (st', None).
Proof.
  intros (job & _ & _ & _ & -> & ->)%claim_Some.
  apply claim_not_claimable, claimable_not_after_claim.
Qed.

(** The claim that exactly one of the concurrent requests succeeds
    fails.  Request 0 is the plumber 20, request 1 the electrician 21,
    both for the posted plumbing job 1.  When the electrician claims
    first and the plumber tries before the rollback, the plumber is
    answered 409, the electrician 400, and nobody has the job.  When the
    plumber tries after the rollback, the conditional update has matched
    for both requests. *)
Lemma accept_race_counterexample :
  claimable (store_with None posted None) 1%positive
  ∧ Forall (λ r, answered r = true)
      (requests (run [1; 1; 0; 0; 0; 1; 1]%nat
                   (fire (store_with None posted None) 1%positive
                         [20%positive; 21%positive])))
  ∧ count answered_ok
      (run [1; 1; 0; 0; 0; 1; 1]%nat
         (fire (store_with None posted None) 1%positive [20%positive; 21%positive]))
    = 0%nat
  ∧ claimable
      (db (run [1; 1; 0; 0; 0; 1; 1]%nat
             (fire (store_with None posted None) 1%positive
                   [20%positive; 21%positive]))) 1%positive
  ∧ claimed <$> requests (run [1; 1]%nat
                            (fire (store_with None posted None) 1%positive
                                  [20%positive; 21%positive]))
    = [false; true]
  ∧ claimed <$> requests (run [1; 1; 1; 1; 0; 0]%nat
                            (fire (store_with None posted None) 1%positive
                                  [20%positive; 21%positive]))
    = [true; false].
Proof.
  split; [|split; [|split; [|split; [|split]]]].
  - exists (sample_job None posted None). by repeat split.
  - vm_compute. by repeat constructor.
  - vm_compute. reflexivity.
  - exists (sample_job None posted None). split; [by vm_compute|]. by split.
  - vm_compute. reflexivity.
  - vm_compute. reflexivity.
Qed.

(** C1 (amended). Among any number of accept requests that race for the
    same posted job, at every instant no two distinct workers hold the
    job, at most one request is past a conditional update that matched,
    at most one request has been answered 200, and every other answer is
    400, 404 or 409.  When every requesting worker is registered, has the
    job's skill and holds no other job, then once all requests are
    answered exactly one has been answered 200, the others 400 or 409,
    and the job is held. *)
Theorem accept_race (st : Store) (jobId : ObjectId) (job : Job.t)
    (ws : list ObjectId) (sched : list nat) :
  jobs st !! jobId = Some job → Job.status job = posted → Job.workerId job = None →
  (∀ w1 w2, holds (db (run sched (fire st jobId ws))) w1 jobId →
            holds (db (run sched (fire st jobId ws))) w2 jobId → w1 = w2)
  ∧ (count claimed (run sched (fire st jobId ws)) ≤ 1)%nat
  ∧ (count answered_ok (run sched (fire st jobId ws)) ≤ 1)%nat
  ∧ Forall (λ r, ∀ resp, rq_pc r = Responded resp →
                 is_ok resp = true ∨ status_code resp ∈ [400%Z; 404%Z; 409%Z])
           (requests (run sched (fire st jobId ws)))
  ∧ (ws ≠ [] → Forall (eligible st job) ws →
     Forall (λ r, answered r = true) (requests (run sched (fire st jobId ws))) →
     count answered_ok (run sched (fire st jobId ws)) = 1%nat
     ∧ Forall (λ r, ∀ resp, rq_pc r = Responded resp →
                    is_ok resp = true ∨ status_code resp ∈ [400%Z; 409%Z])
              (requests (run sched (fire st jobId ws)))
     ∧ ∃ w, holds (db (run sched (fire st jobId ws))) w jobId).
Proof.
  intros Hj Hs Hw.
  pose proof (accept_inv_run jobId sched st ws) as (Hall & Hle & _).
  pose proof (race_inv_run st jobId job ws sched Hj Hs Hw) as Hrace.
  pose proof (run_length sched (fire st jobId ws)) as Hlen.
  simpl in Hlen. rewrite length_fmap in Hlen.
  set (s := run sched (fire st jobId ws)) in *.
  split; [intros w1 w2; apply holds_unique|]. split; [done|]. split.
  { etrans; [|exact Hle]. apply count_le, Forall_true.
    intros r. apply answered_ok_claimed. }
  split.
  { eapply Forall_impl; [exact Hall|]. intros r [_ Hpc] resp E.
    rewrite E in Hpc. exact Hpc. }
  intros Hne Hel Hans.
  destruct (Hrace Hel) as (_ & _ & [[_ HA] | ((w & Hjobs) & Hcount & HB)]).
  - exfalso.
    destruct (requests s) as [|r l] eqn:E.
    + destruct ws; [done | discriminate].
    + apply Forall_cons in HA as [HA _]. apply Forall_cons in Hans as [Hans _].
      unfold answered in Hans. by destruct HA as [HA|HA]; rewrite HA in Hans.
  - split; [|split].
    + rewrite <- Hcount. apply count_ext.
      eapply Forall_impl; [exact Hans|]. intros r Hr.
      unfold answered in Hr. unfold answered_ok, claimed.
      by destruct (rq_pc r).
    + eapply Forall_impl; [exact HB|]. intros r Hr resp E. simpl in Hr.
      by rewrite E in Hr.
    + exists w, (Job.set_status assigned (Job.set_workerId (Some w) job)).
      rewrite Hjobs, lookup_insert_eq. done.
Qed.

Lemma sample_eligible :
  eligible (store_with None posted None) (sample_job None posted None) 20%positive.
Proof.
  split.
  - exists plumber. split; reflexivity.
  - intros id (job & [-> ->]%store_with_lookup & Hw & _). discriminate.
Qed.

Lemma accept_race_witness :
  count answered_ok
    (run [0; 1; 1; 0; 0; 1; 1; 0]%nat
       (fire (store_with None posted None) 1%positive [20%positive; 20%positive]))
  = 1%nat
  ∧ ∃ w, holds (db (run [0; 1; 1; 0; 0; 1; 1; 0]%nat
                      (fire (store_with None posted None) 1%positive
                            [20%positive; 20%positive]))) w 1%positive.
Proof.
  destruct (accept_race (store_with None posted None) 1%positive
              (sample_job None posted None) [20%positive; 20%positive]
              [0; 1; 1; 0; 0; 1; 1; 0]%nat)
    as (_ & _ & _ & _ & Hone); try reflexivity.
  destruct Hone as (H1 & _ & Hheld).
  - discriminate.
  - repeat constructor; apply sample_eligible.
  - vm_compute. repeat constructor.
  - split; assumption.
Defined.

(** * Further properties of the job controller *)

(** ** The life cycle *)

Lemma serve_snoc workers0 ops op :
  serve workers0 (ops ++ [op]) = exec (serve workers0 ops) op.
Proof. unfold serve. by rewrite foldl_app. Qed.

(** X1. When requests are served one after the other, each request changes
    at most one job document, and changes it by one transition of the
    life cycle: creation of a posted job, claim of a posted and
    unclaimed job, start of an assigned job, a new code on an active
    job, completion of an active job, release of an assigned or active
    job, deletion of a posted or assigned job. *)
Theorem requests_follow_the_life_cycle (workers0 : gmap ObjectId Worker.t)
    (ops : list Op) (op : Op) :
  ∃ id, job_step (jobs (serve workers0 ops) !! id)
                 (jobs (serve workers0 (ops ++ [op])) !! id)
        ∧ ∀ id', id' ≠ id →
                 jobs (serve workers0 (ops ++ [op])) !! id'
                 = jobs (serve workers0 ops) !! id'.
Proof. rewrite serve_snoc. apply exec_touches. Qed.

Lemma completed_stays st op id job :
  jobs st !! id = Some job → Job.status job = completed →
  jobs (exec st op) !! id = Some job.
Proof.
  intros Hj Hs. destruct (exec_touches st op) as (id0 & Hstep & Hother).
  destruct (decide (id = id0)) as [->|Hne]; [|by rewrite Hother].
  rewrite Hj in Hstep.
  inversion Hstep; subst; try done; try congruence.
  - match goal with H : held _ = true |- _ => rewrite Hs in H; discriminate end.
  - match goal with H : _ ∈ _ |- _ => rewrite Hs, elem_of_2 in H; naive_solver end.
Qed.

(** X2. When requests are served one after the other, a completed job is
    final: no later request changes or deletes it. *)
Theorem completed_is_final (workers0 : gmap ObjectId Worker.t) (ops ops' : list Op)
    (id : ObjectId) (job : Job.t) :
  jobs (serve workers0 ops) !! id = Some job → Job.status job = completed →
  jobs (serve workers0 (ops ++ ops')) !! id = Some job.
Proof.
  intros Hj Hs. induction ops' as [|op ops' IH] using rev_ind.
  - by rewrite app_nil_r.
  - rewrite app_assoc, serve_snoc. by apply completed_stays.
Qed.

Lemma completed_is_final_witness :
  jobs (serve sample_workers
          (take 5 sample_history
           ++ [OpCancelJob 1%positive 10%positive;
               OpAcceptJob 1%positive 21%positive;
               OpCancelJobByWorker 1%positive 20%positive])) !! 1%positive
  = Some (Job.mk 10%positive (Some 20%positive) "Fix the tap" "The tap drips"
                 None None "plumber" false (mkAddress (Some "Pune") None)
                 completed None None pay_completed (Some "pay_0001") 1000%Z).
Proof.
  apply (completed_is_final sample_workers (take 5 sample_history));
    by vm_compute.
Defined.

Lemma job_step_same_posting a b :
  job_step (Some a) (Some b) → same_posting a b.
Proof.
  inversion 1; subst; by repeat split.
Qed.

(** X3. While a job exists, its client, title, description, image, skill,
    urgency, address, payment and creation date stay as created. *)
Theorem posting_is_kept (st : Store) (op : Op) (id : ObjectId) (job job' : Job.t) :
  jobs st !! id = Some job → jobs (exec st op) !! id = Some job' →
  same_posting job job'.
Proof.
  intros Hj Hj'. destruct (exec_touches st op) as (id0 & Hstep & Hother).
  destruct (decide (id = id0)) as [->|Hne].
  - rewrite Hj, Hj' in Hstep. by apply job_step_same_posting.
  - rewrite Hother, Hj in Hj' by done. injection Hj' as <-.
    by repeat split.
Qed.

Lemma posting_is_kept_witness :
  same_posting (sample_job None posted None)
               (sample_job (Some 20%positive) assigned None).
Proof.
  apply (posting_is_kept (store_with None posted None)
           (OpAcceptJob 1%positive 20%positive) 1%positive); reflexivity.
Defined.

(** ** Who may change a job *)

Lemma startJob_cases st jobId c :
  (startJob st jobId c).1 = st
  ∨ ∃ job, jobs st !! jobId = Some job ∧ Job.clientId job = c
           ∧ Job.status job = assigned
           ∧ startJob st jobId c
             = (set_jobs (<[jobId := Job.set_status active job]> (jobs st)) st,
                Ok (Job.workerId job)).
Proof.
  unfold startJob.
  destruct (findOne_client st jobId c) as [job|] eqn:F; [|by left].
  apply findOne_client_Some in F as [F1 F2].
  destruct (bool_decide (Job.status job = assigned)) eqn:B; simpl; [|by left].
  apply bool_decide_eq_true in B. right. by exists job.
Qed.

Lemma getCompletionOTP_cases st jobId w r :
  (getCompletionOTP st jobId w r).1 = st
  ∨ ∃ job, jobs st !! jobId = Some job ∧ Job.workerId job = Some w
           ∧ Job.status job = active
           ∧ getCompletionOTP st jobId w r
             = (set_jobs (<[jobId := Job.set_completionOTP (Some (mint r)) job]>
                            (jobs st)) st, Ok (mint r)).
Proof.
  unfold getCompletionOTP.
  destruct (findOne_worker st jobId w) as [job|] eqn:F; [|by left].
  apply findOne_worker_Some in F as [F1 F2].
  destruct (bool_decide (Job.status job = active)) eqn:B; simpl; [|by left].
  apply bool_decide_eq_true in B. right. by exists job.
Qed.

Lemma createJob_cases st req :
  (∃ code msg, createJob st req = (st, Fail code msg) ∧ (code = 400 ∨ code = 500)%Z)
  ∨ ∃ job a,
      createJob st req
      = (set_jobs (<[cj_newId req := job]> (jobs st)) st,
         Ok (mkCreatedJob (cj_newId req) (Job.title job) posted (Job.image job)))
      ∧ jobs st !! cj_newId req = None
      ∧ cj_address req = addr_value a
      ∧ job = Job.set_payment pay_completed (Some ("pay_" +:+ cj_uuid req))
                (match cj_file req with
                 | Some (Some (url, pid)) => Job.set_image (Some url) (Some pid)
                 | _ => id
                 end
                   (Job.mk (cj_clientId req) None
                           (trim (default EmptyString (cj_title req)))
                           (default EmptyString (cj_description req))
                           None None (default EmptyString (cj_skill req))
                           (default false (cj_urgency req)) a
                           posted None None pay_pending None (cj_now req)))
      ∧ includes SKILLS (Job.skill job) = true
      ∧ Job.title job ≠ EmptyString
      ∧ truthy (cj_description req) = true.
Proof.
  unfold createJob.
  destruct (negb (truthy (cj_skill req)) || negb (truthy (cj_title req))
            || negb (truthy (cj_description req))) eqn:B1; [left; eauto|].
  apply orb_false_iff in B1 as [_ Hd%negb_false_iff].
  destruct (cj_address req) as [| |a]; [left; eauto..|].
  destruct (_ && _); [left; eauto|].
  destruct (negb (includes SKILLS _) || negb (truthy (Some _)) || bool_decide _)
    eqn:B2; [left; eauto|].
  apply orb_false_iff in B2 as [[Hsk%negb_false_iff Ht%negb_false_iff]%orb_false_iff
                                Hid%bool_decide_eq_false].
  right. eexists _, a. split; [|split; [|split; [done|split; [reflexivity|]]]].
  - by destruct (cj_file req) as [[[? ?]|]|].
  - destruct (jobs st !! cj_newId req); [destruct Hid; eauto | done].
  - split; [by destruct (cj_file req) as [[[? ?]|]|]|].
    split; [|done]. apply truthy_Some in Ht. by destruct (cj_file req) as [[[? ?]|]|].
Qed.

Lemma acceptJob_cases st jobId w :
  (acceptJob st jobId w).1 = st
  ∨ ∃ job worker,
      jobs st !! jobId = Some job ∧ Job.status job = posted
      ∧ Job.workerId job = None
      ∧ (∀ id, ¬ holds st w id)
      ∧ workers st !! w = Some worker
      ∧ includes (Worker.skills worker) (Job.skill job) = true
      ∧ acceptJob st jobId w
        = (set_jobs (<[jobId := Job.set_status assigned
                                  (Job.set_workerId (Some w) job)]> (jobs st)) st,
           accepted jobId (Job.set_status assigned (Job.set_workerId (Some w) job))).
Proof.
  unfold acceptJob.
  destruct (0 <? length (activeJobs st w))%nat eqn:P; [by left|].
  pose proof (proj1 (precheck_false st w) P) as Hidle.
  destruct (claim st jobId w) as [st1 [job'|]] eqn:C.
  - pose proof (rollback_claim _ _ _ _ _ C) as Hrb.
    apply claim_Some in C as (job & H1 & H2 & H3 & -> & ->).
    cbn [workers set_jobs].
    destruct (workers st !! w) as [worker|] eqn:W; [|left; exact Hrb].
    destruct (includes (Worker.skills worker) _) eqn:I; simpl; [|left; exact Hrb].
    right. exists job, worker. auto 10.
  - apply claim_None in C as [-> _]. by left.
Qed.


Lemma exec_party (st : Store) (op : Op) (id : ObjectId) :
  jobs (exec st op) !! id ≠ jobs st !! id →
  (∃ job, jobs st !! id = Some job ∧ party (actor op) job)
  ∨ (∃ job, jobs (exec st op) !! id = Some job ∧ party (actor op) job).
Proof.
  destruct op; simpl; intros Hch.
  - destruct (createJob_cases st req) as [(c & m & E & _)|(job & a & E & Hf & _ & -> & _)];
      rewrite E in *; simpl in *; [done|].
    destruct (decide (id = cj_newId req)) as [->|Hne];
      [|by rewrite lookup_insert_ne in Hch].
    right. rewrite lookup_insert_eq. eexists. split; [done|].
    by destruct (cj_file req) as [[[? ?]|]|].
  - destruct (cancelJob st jobId clientId) as [st' [body|code msg]] eqn:E; simpl in *.
    + apply cancelJob_Ok in E as (job & H1 & H2 & _ & H4). rewrite H4 in Hch.
      destruct (decide (id = jobId)) as [->|Hne];
        [|by rewrite lookup_delete_ne in Hch].
      left. by exists job.
    + apply cancelJob_Fail in E as ->. done.
  - destruct (startJob_cases st jobId clientId) as [E|(job & H1 & H2 & _ & E)];
      rewrite E in *; [done|]. simpl in *.
    destruct (decide (id = jobId)) as [->|Hne];
      [|by rewrite lookup_insert_ne in Hch].
    left. by exists job.
  - destruct (completeJob st jobId clientId otp now) as [st' [body|code msg]] eqn:E;
      simpl in *.
    + apply completeJob_Ok in E as (job & code & H1 & H2 & _ & _ & _ & _ & -> & _).
      simpl in Hch.
      destruct (decide (id = jobId)) as [->|Hne];
        [|by rewrite lookup_insert_ne in Hch].
      left. by exists job.
    + apply completeJob_Fail in E as ->. done.
  - by rewrite rateWorker_jobs in Hch.
  - destruct (acceptJob_cases st jobId workerId)
      as [E|(job & worker & _ & _ & _ & _ & _ & _ & E)]; rewrite E in *; [done|].
    simpl in *.
    destruct (decide (id = jobId)) as [->|Hne];
      [|by rewrite lookup_insert_ne in Hch].
    right. rewrite lookup_insert_eq. eexists. by split.
  - destruct (getCompletionOTP_cases st jobId workerId r) as [E|(job & H1 & H2 & _ & E)];
      rewrite E in *; [done|]. simpl in *.
    destruct (decide (id = jobId)) as [->|Hne];
      [|by rewrite lookup_insert_ne in Hch].
    left. by exists job.
  - destruct (cancelJobByWorker st jobId workerId) as [st' [body|code msg]] eqn:E;
      simpl in *.
    + apply cancelJobByWorker_Ok in E as (job & H1 & H2 & _ & ->). simpl in Hch.
      destruct (decide (id = jobId)) as [->|Hne];
        [|by rewrite lookup_insert_ne in Hch].
      left. by exists job.
    + apply cancelJobByWorker_Fail in E as [-> _]. done.
  - by rewrite rateClient_jobs in Hch.
Qed.

(** X4. When requests are served one after the other, a request changes a
    job only when its actor is a party of the job: the client who owns
    it, or the worker assigned to it before or after the request. *)
Theorem only_parties_change_a_job (workers0 : gmap ObjectId Worker.t)
    (ops : list Op) (op : Op) (id : ObjectId) :
  jobs (serve workers0 (ops ++ [op])) !! id ≠ jobs (serve workers0 ops) !! id →
  (∃ job, jobs (serve workers0 ops) !! id = Some job ∧ party (actor op) job)
  ∨ (∃ job, jobs (serve workers0 (ops ++ [op])) !! id = Some job
            ∧ party (actor op) job).
Proof. rewrite serve_snoc. apply exec_party. Qed.

Lemma only_parties_change_a_job_witness :
  (∃ job, jobs (serve sample_workers (take 1 sample_history)) !! 1%positive = Some job
          ∧ party (actor (OpAcceptJob 1%positive 20%positive)) job)
  ∨ (∃ job, jobs (serve sample_workers
                    (take 1 sample_history ++ [OpAcceptJob 1%positive 20%positive]))
              !! 1%positive = Some job
            ∧ party (actor (OpAcceptJob 1%positive 20%positive)) job).
Proof.
  apply only_parties_change_a_job. vm_compute. discriminate.
Defined.

(** ** Posting a job *)

(** X5. [createJob] either fails with 400 or 500 and leaves the store as it
    was, or stores one new document under an id that was free: posted,
    without worker and code, paid, with a skill of [SKILLS] and a
    non-empty trimmed title; no other document, worker or review
    changes. *)
Theorem createJob_posts_one_job (st : Store) (req : CreateJobReq) :
  match (createJob st req).2 with
  | Fail code _ => (createJob st req).1 = st ∧ (code = 400 ∨ code = 500)%Z
  | Ok body =>
    cr_id body = cj_newId req ∧ cr_status body = posted
    ∧ jobs st !! cj_newId req = None
    ∧ (∃ job, jobs (createJob st req).1 !! cj_newId req = Some job
              ∧ Job.clientId job = cj_clientId req
              ∧ Job.status job = posted ∧ Job.workerId job = None
              ∧ Job.completionOTP job = None
              ∧ Job.paymentStatus job = pay_completed
              ∧ Job.skill job ∈ SKILLS
              ∧ Job.title job = trim (default EmptyString (cj_title req))
              ∧ Job.title job ≠ EmptyString
              ∧ cr_title body = Job.title job)
    ∧ (∀ id, id ≠ cj_newId req →
             jobs (createJob st req).1 !! id = jobs st !! id)
    ∧ workers (createJob st req).1 = workers st
    ∧ reviews (createJob st req).1 = reviews st
  end.
Proof.
  destruct (createJob_cases st req)
    as [(c & m & -> & Hc)|(job & a & -> & Hf & _ & Hjob & Hsk & Ht & _)]; simpl; [done|].
  repeat split; try done.
  - exists job. rewrite lookup_insert_eq.
    split; [done|]. apply includes_elem_of in Hsk.
    rewrite Hjob in *. by destruct (cj_file req) as [[[? ?]|]|].
  - intros id Hne. by rewrite lookup_insert_ne.
Qed.

Lemma trim_blank s : blank s = true → trim s = EmptyString.
Proof.
  intros H. unfold trim.
  assert (trim_start s = EmptyString) as ->; [|done].
  induction s as [|a s IH]; simpl in *; [done|].
  apply andb_true_iff in H as [-> H]. auto.
Qed.

(** X6. A title of white space only passes the check for a missing title and
    fails the validation of the schema: the answer is 500, not 400, and
    nothing is stored. *)
Theorem createJob_blank_title (st : Store) (req : CreateJobReq) (title : string) (a : Address) :
  cj_title req = Some title → title ≠ EmptyString → blank title = true →
  truthy (cj_skill req) = true → truthy (cj_description req) = true →
  cj_address req = addr_value a →
  truthy (city a) = true ∨ is_Some (location a) →
  createJob st req = (st, Fail 500 "Server error while creating job").
Proof.
  intros Ht Hne Hb Hs Hd Ha Hloc. unfold createJob.
  rewrite Hs, Hd, Ht, (proj2 (truthy_Some title) Hne), Ha. simpl.
  assert (negb (truthy (city a)) && negb (bool_decide (is_Some (location a))) = false)
    as ->.
  { destruct Hloc as [->|H]; [done|]. rewrite (bool_decide_eq_true_2 _ H).
    apply andb_false_r. }
  rewrite (trim_blank title Hb). simpl. by rewrite orb_true_r.
Qed.

Lemma createJob_blank_title_witness :
  createJob (store_with None posted None) (sample_req "   " 2%positive)
  = (store_with None posted None, Fail 500 "Server error while creating job").
Proof.
  apply (createJob_blank_title _ _ "   " (mkAddress (Some "Pune") None));
    try reflexivity; try discriminate.
  left. reflexivity.
Defined.

(** ** Accepting and giving back *)



Lemma acceptJob_accepts st jobId w job worker :
  jobs st !! jobId = Some job → Job.status job = posted → Job.workerId job = None →
  (∀ id, ¬ holds st w id) →
  workers st !! w = Some worker →
  includes (Worker.skills worker) (Job.skill job) = true →
  acceptJob st jobId w
  = (set_jobs (<[jobId := Job.set_status assigned (Job.set_workerId (Some w) job)]>
                 (jobs st)) st,
     Ok (mkAcceptedBody jobId (Job.title job) assigned (Some w))).
Proof.
  intros Hj Hs Hw Hidle Hwk Hsk. unfold acceptJob.
  rewrite (proj2 (precheck_false st w) Hidle), (claim_claimable st jobId w job) by done.
  cbn [workers set_jobs]. rewrite Hwk. simpl. by rewrite Hsk.
Qed.

Lemma startJob_starts st jobId job :
  jobs st !! jobId = Some job → Job.status job = assigned →
  startJob st jobId (Job.clientId job)
  = (set_jobs (<[jobId := Job.set_status active job]> (jobs st)) st,
     Ok (Job.workerId job)).
Proof.
  intros Hj Hs. unfold startJob.
  rewrite (proj2 (findOne_client_Some st jobId _ job)) by done.
  by rewrite bool_decide_eq_true_2.
Qed.

(** ** From posting to completion *)

(** X8. Once a job is posted, a registered worker with its skill and no job
    in hand can accept it, the client can start it, the worker obtains a
    code and the client completes the job with that code; the job ends
    completed, assigned to that worker, with the code cleared. *)
Theorem posted_job_can_be_completed (st st1 : Store) (req : CreateJobReq)
    (created : CreatedJob) (w : ObjectId) (worker : Worker.t) (r : Q) (now : Date) :
  createJob st req = (st1, Ok created) →
  workers st !! w = Some worker →
  includes (Worker.skills worker) (default EmptyString (cj_skill req)) = true →
  (∀ id, ¬ holds st w id) →
  ∃ st2 st3 st4 st5 accepted_body,
    acceptJob st1 (cj_newId req) w = (st2, Ok accepted_body)
    ∧ startJob st2 (cj_newId req) (cj_clientId req) = (st3, Ok (Some w))
    ∧ getCompletionOTP st3 (cj_newId req) w r = (st4, Ok (mint r))
    ∧ completeJob st4 (cj_newId req) (cj_clientId req) (Some (mint r)) now
      = (st5, Ok (mkCompletedBody (cj_newId req) completed now))
    ∧ ∃ job, jobs st5 !! cj_newId req = Some job
             ∧ Job.status job = completed ∧ Job.workerId job = Some w
             ∧ Job.completionOTP job = None
             ∧ Job.clientId job = cj_clientId req.
Proof.
  intros Hcr Hwk Hsk Hidle.
  destruct (createJob_cases st req)
    as [(c & m & E & _)|(job & a & E & Hfresh & _ & Hjob & _)];
    rewrite E in Hcr; [discriminate|].
  injection Hcr as <- _.
  set (id := cj_newId req) in *.
  assert (Job.status job = posted ∧ Job.workerId job = None
          ∧ Job.clientId job = cj_clientId req
          ∧ Job.skill job = default EmptyString (cj_skill req))
    as (Hs & Hw & Hc & Hk).
  { rewrite Hjob. by destruct (cj_file req) as [[[? ?]|]|]. }
  set (st1 := set_jobs (<[id := job]> (jobs st)) st).
  assert (∀ id', ¬ holds st1 w id') as Hidle1.
  { intros id' (j & Hj & Hjw & Hjh). simpl in Hj.
    destruct (decide (id' = id)) as [->|Hne].
    - rewrite lookup_insert_eq in Hj. injection Hj as <-. congruence.
    - rewrite lookup_insert_ne in Hj by done. apply (Hidle id'). by exists j. }
  set (job2 := Job.set_status assigned (Job.set_workerId (Some w) job)).
  set (job3 := Job.set_status active job2).
  set (job4 := Job.set_completionOTP (Some (mint r)) job3).
  eexists _, _, _, _, _. split; [|split; [|split; [|split]]].
  - apply (acceptJob_accepts st1 id w job worker); try done.
    + apply lookup_insert_eq.
    + by rewrite Hk.
  - rewrite <- Hc. change (Job.clientId job) with (Job.clientId job2).
    apply (startJob_starts _ id job2); [apply lookup_insert_eq | done].
  - apply (getCompletionOTP_active _ id w r job3); [apply lookup_insert_eq|done..].
  - rewrite <- Hc. change (Job.clientId job) with (Job.clientId job4).
    apply (completeJob_accepts _ id now job4 (mint r));
      [apply lookup_insert_eq | done | done | apply mint_nonempty].
  - eexists. split; [apply lookup_insert_eq|]. by repeat split.
Qed.

Lemma posted_job_can_be_completed_witness :
  ∃ st2 st3 st4 st5 accepted_body,
    acceptJob (createJob (store_with (Some 21%positive) completed None)
                         (sample_req "Fix the tap" 2%positive)).1
              2%positive 20%positive = (st2, Ok accepted_body)
    ∧ startJob st2 2%positive 10%positive = (st3, Ok (Some 20%positive))
    ∧ getCompletionOTP st3 2%positive 20%positive (1 # 2) = (st4, Ok (mint (1 # 2)))
    ∧ completeJob st4 2%positive 10%positive (Some (mint (1 # 2))) 5000%Z
      = (st5, Ok (mkCompletedBody 2%positive completed 5000%Z))
    ∧ ∃ job, jobs st5 !! 2%positive = Some job
             ∧ Job.status job = completed ∧ Job.workerId job = Some 20%positive
             ∧ Job.completionOTP job = None
             ∧ Job.clientId job = 10%positive.
Proof.
  eapply (posted_job_can_be_completed
            (store_with (Some 21%positive) completed None) _
            (sample_req "Fix the tap" 2%positive) _ 20%positive plumber).
  - reflexivity.
  - reflexivity.
  - reflexivity.
  - intros id (job & [-> ->]%store_with_lookup & Hw & _). discriminate.
Defined.

(** ** From the list to the claim *)

Section ListedThenAccepted.
Variable dist : Q → Q → Q → Q → Q.

(** X9. A job that [getAvailableJobs] lists under ["For you"] is one the
    worker can take: if the worker holds no job, [acceptJob] on it
    succeeds and assigns it. *)
Theorem listed_job_can_be_accepted (st : Store) (w : ObjectId) (q : AvailableQuery)
    (body : AvailableBody) (j : JobWithDistance) :
  getAvailableJobs dist st w q = Ok body →
  q_skill q = Some "For you" →
  j ∈ av_jobs body →
  (∀ id, ¬ holds st w id) →
  ∃ st', acceptJob st (jd_id j) w
         = (st', Ok (mkAcceptedBody (jd_id j) (Job.title (jd_job j)) assigned (Some w)))
         ∧ holds st' w (jd_id j).
Proof.
  unfold getAvailableJobs. destruct (workers st !! w) as [worker|] eqn:W; [|discriminate].
  intros [= <-] Hq Hin Hidle. simpl in Hin.
  apply elem_of_slice, jobsWithDistance_elem_of in Hin as (Hj & Hav & _).
  apply available_query_true in Hav as (Hs & Hw & Hk).
  eexists. split.
  - apply (acceptJob_accepts st (jd_id j) w (jd_job j) worker); auto.
  - eexists. simpl. rewrite lookup_insert_eq. by repeat split.
Qed.
End ListedThenAccepted.

Lemma listed_job_can_be_accepted_witness :
  ∃ st', acceptJob store_near_far 1%positive 20%positive
         = (st', Ok (mkAcceptedBody 1%positive "Fix the kitchen tap" assigned
                                    (Some 20%positive)))
         ∧ holds st' 20%positive 1%positive.
Proof.
  pose proof (listed_job_can_be_accepted grid_distance store_near_far 20%positive
                (mkAvailableQuery None None (Some "For you") None None None)) as H.
  destruct (getAvailableJobs grid_distance store_near_far 20%positive
              (mkAvailableQuery None None (Some "For you") None None None))
    as [body|c m] eqn:E; [|vm_compute in E; discriminate].
  assert (∃ j l, av_jobs body = j :: l ∧ jd_id j = 1%positive
                 ∧ Job.title (jd_job j) = "Fix the kitchen tap")
    as (j & l & L & Hid & Ht).
  { vm_compute in E. injection E as <-. eexists _, _. by repeat split. }
  destruct (H body j eq_refl eq_refl) as (st' & Hacc & Hheld).
  - rewrite L. left.
  - intros id (job & Hj & Hw & _). unfold store_near_far in Hj. simpl in Hj.
    destruct (decide (id = 1%positive)) as [->|?];
      [rewrite lookup_insert_eq in Hj; injection Hj as <-; discriminate|].
    rewrite lookup_insert_ne in Hj by done.
    destruct (decide (id = 2%positive)) as [->|?];
      [rewrite lookup_insert_eq in Hj; injection Hj as <-; discriminate|].
    by rewrite lookup_insert_ne, lookup_empty in Hj.
  - rewrite Hid, Ht in Hacc. rewrite Hid in Hheld. exists st'. by split.
Defined.

(** ** One job per worker *)

Lemma holds_after st op w id :
  holds (exec st op) w id →
  holds st w id ∨ ((∀ id', ¬ holds st w id') ∧ op = OpAcceptJob id w).
Proof.
  unfold holds at 1. intros (job' & Hj' & Hw' & Hh').
  assert (jobs (exec st op) !! id = jobs st !! id → holds st w id) as Hsame.
  { intros E. rewrite E in Hj'. by exists job'. }
  destruct op; simpl in *.
  - destruct (createJob_cases st req) as [(c & m & E & _)|(job & a & E & _ & _ & -> & _)];
      rewrite E in *; simpl in *; [left; by apply Hsame|].
    destruct (decide (id = cj_newId req)) as [->|Hne];
      [|left; apply Hsame; by rewrite lookup_insert_ne].
    rewrite lookup_insert_eq in Hj'. injection Hj' as <-.
    by destruct (cj_file req) as [[[? ?]|]|].
  - destruct (cancelJob st jobId clientId) as [st' [body|code msg]] eqn:E; simpl in *.
    + apply cancelJob_Ok in E as (job & _ & _ & _ & H4). rewrite H4 in *.
      destruct (decide (id = jobId)) as [->|Hne];
        [by rewrite lookup_delete_eq in Hj'|].
      left. apply Hsame. by rewrite lookup_delete_ne.
    + apply cancelJob_Fail in E as ->. left. by apply Hsame.
  - destruct (startJob_cases st jobId clientId) as [E|(job & H1 & _ & H3 & E)];
      rewrite E in *; simpl in *; [left; by apply Hsame|].
    destruct (decide (id = jobId)) as [->|Hne];
      [|left; apply Hsame; by rewrite lookup_insert_ne].
    rewrite lookup_insert_eq in Hj'. injection Hj' as <-. simpl in *.
    left. exists job. by rewrite H3.
  - destruct (completeJob st jobId clientId otp now) as [st' [body|code msg]] eqn:E;
      simpl in *.
    + apply completeJob_Ok in E as (job & code & _ & _ & _ & _ & _ & _ & -> & _).
      simpl in *.
      destruct (decide (id = jobId)) as [->|Hne];
        [|left; apply Hsame; by rewrite lookup_insert_ne].
      rewrite lookup_insert_eq in Hj'. by injection Hj' as <-.
    + apply completeJob_Fail in E as ->. left. by apply Hsame.
  - left. apply Hsame. by rewrite rateWorker_jobs.
  - destruct (acceptJob_cases st jobId workerId)
      as [E|(job & worker & _ & _ & _ & Hidle & _ & _ & E)]; rewrite E in *;
      simpl in *; [left; by apply Hsame|].
    destruct (decide (id = jobId)) as [->|Hne];
      [|left; apply Hsame; by rewrite lookup_insert_ne].
    rewrite lookup_insert_eq in Hj'. injection Hj' as <-. simpl in Hw'.
    injection Hw' as <-. by right.
  - destruct (getCompletionOTP_cases st jobId workerId r) as [E|(job & H1 & _ & _ & E)];
      rewrite E in *; simpl in *; [left; by apply Hsame|].
    destruct (decide (id = jobId)) as [->|Hne];
      [|left; apply Hsame; by rewrite lookup_insert_ne].
    rewrite lookup_insert_eq in Hj'. injection Hj' as <-. simpl in *.
    left. by exists job.
  - destruct (cancelJobByWorker st jobId workerId) as [st' [body|code msg]] eqn:E;
      simpl in *.
    + apply cancelJobByWorker_Ok in E as (job & _ & _ & _ & ->). simpl in *.
      destruct (decide (id = jobId)) as [->|Hne];
        [|left; apply Hsame; by rewrite lookup_insert_ne].
      rewrite lookup_insert_eq in Hj'. by injection Hj' as <-.
    + apply cancelJobByWorker_Fail in E as [-> _]. left. by apply Hsame.
  - left. apply Hsame. by rewrite rateClient_jobs.
Qed.

Lemma one_job_per_worker_exec st op :
  one_job_per_worker st → one_job_per_worker (exec st op).
Proof.
  intros Hinv w id1 id2 H1 H2.
  apply holds_after in H1 as [H1|[Hidle1 E1]], H2 as [H2|[Hidle2 E2]].
  - by apply (Hinv w).
  - destruct (Hidle2 _ H1).
  - destruct (Hidle1 _ H2).
  - congruence.
Qed.

(** X10. When requests are served one after the other, a worker never holds
    two jobs that are assigned or active: the pre-check of [acceptJob]
    turns the second acceptance away, and no other request gives a
    worker a job. *)
Theorem a_worker_holds_one_job (workers0 : gmap ObjectId Worker.t) (ops : list Op)
    (w id1 id2 : ObjectId) :
  holds (serve workers0 ops) w id1 → holds (serve workers0 ops) w id2 → id1 = id2.
Proof.
  revert w id1 id2. change (one_job_per_worker (serve workers0 ops)).
  unfold serve. induction ops as [|op ops IH] using rev_ind.
  - intros w id1 id2 (job & H & _). simpl in H. by rewrite lookup_empty in H.
  - rewrite foldl_app. simpl. by apply one_job_per_worker_exec.
Qed.

Lemma a_worker_holds_one_job_witness :
  holds (serve sample_workers (take 2 sample_history)) 20%positive 1%positive
  ∧ 1%positive = 1%positive.
Proof.
  assert (holds (serve sample_workers (take 2 sample_history)) 20%positive 1%positive)
    as H.
  { eexists. split; [reflexivity|]. split; reflexivity. }
  split; [exact H|].
  exact (a_worker_holds_one_job sample_workers (take 2 sample_history)
           20%positive 1%positive 1%positive H H).
Defined.

(** ** Reviews *)

Lemma rateWorker_Ok_full st jobId c rating review st' body :
  rateWorker st jobId c rating review = (st', Ok body) →
  ∃ q w job r,
    rating = Some q
    ∧ jobs st !! jobId = Some job ∧ Job.clientId job = c
    ∧ Job.status job = completed ∧ Job.workerId job = Some w
    ∧ findOne_review st (λ r,
        bool_decide (Review.jobId r = jobId)
        && bool_decide (Review.clientId r = c)
        && bool_decide (Review.reviewType r = client_to_worker)) = None
    ∧ Review.clientId r = c ∧ Review.workerId r = w ∧ Review.jobId r = jobId
    ∧ Review.reviewType r = client_to_worker ∧ Review.rating r = q
    ∧ review_valid r = true
    ∧ st' = add_review r st.
Proof.
  unfold rateWorker.
  destruct (rating_rejected rating) eqn:R; [discriminate|].
  apply rating_rejected_false in R as (q & -> & _).
  destruct (findOne_client st jobId c) as [job|] eqn:F; [|discriminate].
  apply findOne_client_Some in F as [F1 F2].
  destruct (bool_decide (Job.status job = completed)) eqn:B; simpl; [|discriminate].
  apply bool_decide_eq_true in B.
  destruct (Job.workerId job) as [w|] eqn:W; [|discriminate].
  destruct (findOne_review _ _) eqn:Fr; [discriminate|].
  destruct (review_valid _) eqn:V; simpl; [|discriminate].
  intros [= <- _]. eexists q, w, job, _. by repeat split.
Qed.

Lemma rateClient_Ok_full st jobId w rating review st' body :
  rateClient st jobId w rating review = (st', Ok body) →
  ∃ q job r,
    rating = Some q
    ∧ jobs st !! jobId = Some job ∧ Job.workerId job = Some w
    ∧ Job.status job = completed
    ∧ findOne_review st (λ r,
        bool_decide (Review.jobId r = jobId)
        && bool_decide (Review.workerId r = w)
        && bool_decide (Review.reviewType r = worker_to_client)) = None
    ∧ Review.clientId r = Job.clientId job ∧ Review.workerId r = w
    ∧ Review.jobId r = jobId
    ∧ Review.reviewType r = worker_to_client ∧ Review.rating r = q
    ∧ review_valid r = true
    ∧ st' = add_review r st.
Proof.
  unfold rateClient.
  destruct (rating_rejected rating) eqn:R; [discriminate|].
  apply rating_rejected_false in R as (q & -> & _).
  destruct (findOne_worker st jobId w) as [job|] eqn:F; [|discriminate].
  apply findOne_worker_Some in F as [F1 F2].
  destruct (bool_decide (Job.status job = completed)) eqn:B; simpl; [|discriminate].
  apply bool_decide_eq_true in B.
  destruct (findOne_review _ _) eqn:Fr; [discriminate|].
  destruct (review_valid _) eqn:V; simpl; [|discriminate].
  intros [= <- _]. eexists q, job, _. by repeat split.
Qed.

Lemma rateWorker_Fail st jobId c rating review st' code msg :
  rateWorker st jobId c rating review = (st', Fail code msg) → st' = st.
Proof.
  unfold rateWorker.
  repeat (match goal with
          | |- context [if ?b then _ else _] => destruct b
          | |- context [match ?o with Some _ => _ | None => _ end] => destruct o
          end; try congruence).
Qed.

Lemma rateClient_Fail st jobId w rating review st' code msg :
  rateClient st jobId w rating review = (st', Fail code msg) → st' = st.
Proof.
  unfold rateClient.
  repeat (match goal with
          | |- context [if ?b then _ else _] => destruct b
          | |- context [match ?o with Some _ => _ | None => _ end] => destruct o
          end; try congruence).
Qed.

(** The requests other than the two ratings leave the reviews alone. *)
Lemma exec_reviews st op :
  match op with
  | OpRateWorker _ _ _ _ | OpRateClient _ _ _ _ => True
  | _ => reviews (exec st op) = reviews st
  end.
Proof.
  destruct op; simpl; try done.
  - by destruct (createJob_cases st req) as [(c & m & -> & _)|(job & a & -> & _)].
  - unfold cancelJob. destruct (findOne_client _ _ _); [|done]. by destruct (negb _).
  - by destruct (startJob_cases st jobId clientId) as [->|(job & _ & _ & _ & ->)].
  - destruct (completeJob st jobId clientId otp now) as [st' [body|code msg]] eqn:E.
    + by apply completeJob_Ok in E as (job & code & _ & _ & _ & _ & _ & _ & -> & _).
    + by apply completeJob_Fail in E as ->.
  - by destruct (acceptJob_cases st jobId workerId)
      as [->|(job & worker & _ & _ & _ & _ & _ & _ & ->)].
  - by destruct (getCompletionOTP_cases st jobId workerId r)
      as [->|(job & _ & _ & _ & ->)].
  - destruct (cancelJobByWorker st jobId workerId) as [st' [body|code msg]] eqn:E.
    + by apply cancelJobByWorker_Ok in E as (job & _ & _ & _ & ->).
    + by apply cancelJobByWorker_Fail in E as [-> _].
Qed.

Lemma find_None_elem_of {A} (p : A → bool) l x :
  List.find p l = None → x ∈ l → p x = false.
Proof. intros H Hin. apply (find_none p l H). by apply list_elem_of_In. Qed.

Lemma reviews_sound_exec st op : reviews_sound st → reviews_sound (exec st op).
Proof.
  intros Hinv.
  assert (∀ r, r ∈ reviews st →
            review_valid r = true
            ∧ ∃ job, jobs (exec st op) !! Review.jobId r = Some job
                     ∧ Job.status job = completed
                     ∧ Job.clientId job = Review.clientId r
                     ∧ Job.workerId job = Some (Review.workerId r)) as Hold.
  { intros r (Hv & job & H1 & H2 & H3 & H4)%Hinv. split; [done|].
    exists job. split; [by apply completed_stays|done]. }
  pose proof (exec_reviews st op) as Hrev.
  destruct op as [req|jobId clientId|jobId clientId|jobId clientId otp now|jobId clientId rating review|jobId workerId|jobId workerId r|jobId workerId|jobId workerId rating review];
    try (intros rv Hrv; rewrite Hrev in Hrv; by apply Hold); clear Hrev.
  - simpl in *.
    destruct (rateWorker st jobId clientId rating review) as [st' [body|c m]] eqn:E;
      simpl in *.
    + apply rateWorker_Ok_full in E
        as (q & w & job & r0 & _ & H1 & H2 & H3 & H4 & _ & R1 & R2 & R3 & _ & _ & V & ->).
      intros r [Hr|Hr]%elem_of_app; [by apply Hold|].
      apply list_elem_of_singleton in Hr as ->.
      split; [done|]. exists job. simpl. rewrite R1, R2, R3. done.
    + apply rateWorker_Fail in E as ->. done.
  - simpl in *.
    destruct (rateClient st jobId workerId rating review) as [st' [body|c m]] eqn:E;
      simpl in *.
    + apply rateClient_Ok_full in E
        as (q & job & r0 & _ & H1 & H2 & H3 & _ & R1 & R2 & R3 & _ & _ & V & ->).
      intros r [Hr|Hr]%elem_of_app; [by apply Hold|].
      apply list_elem_of_singleton in Hr as ->.
      split; [done|]. exists job. simpl. rewrite R1, R2, R3. done.
    + apply rateClient_Fail in E as ->. done.
Qed.

Lemma reviews_unique_exec st op :
  reviews_sound st → reviews_unique st → reviews_unique (exec st op).
Proof.
  intros Hsound Huniq. unfold reviews_unique in *.
  pose proof (exec_reviews st op) as Hrev.
  destruct op as [req|jobId clientId|jobId clientId|jobId clientId otp now|jobId clientId rating review|jobId workerId|jobId workerId r|jobId workerId|jobId workerId rating review];
    try (by rewrite Hrev); clear Hrev; simpl.
  - destruct (rateWorker st jobId clientId rating review) as [st' [body|c m]] eqn:E;
      simpl.
    + apply rateWorker_Ok_full in E
        as (q & w & job & r0 & _ & H1 & H2 & H3 & H4 & Hfind & R1 & R2 & R3 & R4 & _ & _ & ->).
      simpl. rewrite fmap_app. apply NoDup_app. split; [done|].
      split; [|apply NoDup_singleton].
      intros key Hin Hkey0. apply list_elem_of_singleton in Hkey0 as ->.
      apply list_elem_of_fmap in Hin as (r & Hkey & Hr).
      injection Hkey as Hk1 Hk2.
      pose proof (find_None_elem_of _ _ r Hfind Hr) as Hp. simpl in Hp.
      destruct (Hsound r Hr) as (_ & job' & J1 & _ & J3 & _).
      rewrite <- Hk1, R3 in J1. assert (job' = job) as -> by congruence.
      rewrite !bool_decide_eq_true_2 in Hp by congruence. discriminate.
    + by apply rateWorker_Fail in E as ->.
  - destruct (rateClient st jobId workerId rating review) as [st' [body|c m]] eqn:E;
      simpl.
    + apply rateClient_Ok_full in E
        as (q & job & r0 & _ & H1 & H2 & H3 & Hfind & R1 & R2 & R3 & R4 & _ & _ & ->).
      simpl. rewrite fmap_app. apply NoDup_app. split; [done|].
      split; [|apply NoDup_singleton].
      intros key Hin Hkey0. apply list_elem_of_singleton in Hkey0 as ->.
      apply list_elem_of_fmap in Hin as (r & Hkey & Hr).
      injection Hkey as Hk1 Hk2.
      pose proof (find_None_elem_of _ _ r Hfind Hr) as Hp. simpl in Hp.
      destruct (Hsound r Hr) as (_ & job' & J1 & _ & _ & J4).
      rewrite <- Hk1, R3 in J1. assert (job' = job) as -> by congruence.
      rewrite !bool_decide_eq_true_2 in Hp by congruence. discriminate.
    + by apply rateClient_Fail in E as ->.
Qed.

(** X11. When requests are served one after the other, every stored review
    is about a completed job, between the client and the worker of that
    job, with a rating from 1 to 5 and a text of at most 500 characters;
    and each job has at most one review in each direction. *)
Theorem reviews_are_sound_and_unique (workers0 : gmap ObjectId Worker.t) (ops : list Op) :
  reviews_sound (serve workers0 ops) ∧ reviews_unique (serve workers0 ops).
Proof.
  unfold serve. induction ops as [|op ops [IH1 IH2]] using rev_ind.
  - split; [intros r Hr; by apply elem_of_nil in Hr | apply NoDup_nil_2].
  - rewrite foldl_app. simpl. split.
    + by apply reviews_sound_exec.
    + by apply reviews_unique_exec.
Qed.

(** X12. A job is rated once in each direction: after [rateWorker] (or
    [rateClient]) has succeeded, every further rating of that job by the
    same client (or worker) is answered 400 and stores nothing. *)
Theorem a_job_is_rated_once (st st' : Store) (jobId actor : ObjectId)
    (rating : option Q) (review : option string) (body : RatedBody) :
  (rateWorker st jobId actor rating review = (st', Ok body) →
   ∀ rating' review', ∃ msg,
     rateWorker st' jobId actor rating' review' = (st', Fail 400 msg))
  ∧ (rateClient st jobId actor rating review = (st', Ok body) →
     ∀ rating' review', ∃ msg,
       rateClient st' jobId actor rating' review' = (st', Fail 400 msg)).
Proof.
  split.
  - intros (q & w & job & r & _ & H1 & H2 & H3 & H4 & _ & R1 & R2 & R3 & R4 & _ & _ & ->)
           %rateWorker_Ok_full rating' review'.
    unfold rateWorker. destruct (rating_rejected rating'); [eauto|].
    rewrite (proj2 (findOne_client_Some _ jobId actor job)) by done.
    rewrite bool_decide_eq_true_2 by done. simpl. rewrite H4.
    destruct (findOne_review _ _) eqn:F; [eauto|]. exfalso.
    assert (r ∈ reviews (add_review r st)) as Hin
      by (simpl; apply elem_of_app; right; by apply list_elem_of_singleton).
    pose proof (find_None_elem_of _ _ r F Hin) as Hp. simpl in Hp.
    rewrite !bool_decide_eq_true_2 in Hp by done. discriminate.
  - intros (q & job & r & _ & H1 & H2 & H3 & _ & R1 & R2 & R3 & R4 & _ & _ & ->)
           %rateClient_Ok_full rating' review'.
    unfold rateClient. destruct (rating_rejected rating'); [eauto|].
    rewrite (proj2 (findOne_worker_Some _ jobId actor job)) by done.
    rewrite bool_decide_eq_true_2 by done. simpl.
    destruct (findOne_review _ _) eqn:F; [eauto|]. exfalso.
    assert (r ∈ reviews (add_review r st)) as Hin
      by (simpl; apply elem_of_app; right; by apply list_elem_of_singleton).
    pose proof (find_None_elem_of _ _ r F Hin) as Hp. simpl in Hp.
    rewrite !bool_decide_eq_true_2 in Hp by done. discriminate.
Qed.

Lemma a_job_is_rated_once_witness :
  ∃ msg,
    rateWorker
      (rateWorker (store_with (Some 20%positive) completed None)
                  1%positive 10%positive (Some 4%Q) None).1
      1%positive 10%positive (Some 5%Q) (Some "Again")
    = ((rateWorker (store_with (Some 20%positive) completed None)
                   1%positive 10%positive (Some 4%Q) None).1,
       Fail 400 msg).
Proof.
  destruct (a_job_is_rated_once (store_with (Some 20%positive) completed None)
              (rateWorker (store_with (Some 20%positive) completed None)
                          1%positive 10%positive (Some 4%Q) None).1
              1%positive 10%positive (Some 4%Q) None (mkRatedBody 4%Q)) as [H _].
  apply H. reflexivity.
Defined.

(** ** Pages of the list of available jobs *)



Section Pages.
Variable dist : Q → Q → Q → Q → Q.

End Pages.


(** ** The cache of road distances *)

Section RoadDistanceFacts.
Context {K : Type} `{Countable K}.
Variable cacheKey : Q → Q → Q → Q → K.
Variable haversine : Q → Q → Q → Q → Q.
Variable route : nat → option Q.

Local Notation "'road'" := (Distance.calculateRoadDistance cacheKey haversine route).
Local Notation "'step'" := (Distance.job_distance_step cacheKey haversine route).
Local Notation "'cache'" := Distance.distanceCache.
Local Notation "'pure_step' dist w" :=
  (λ (distances : gmap ObjectId Q) (kv : ObjectId * Job.t),
     match valid_location (Job.address kv.2) with
     | Some (la, lo) => <[kv.1 := dist w.1 w.2 la lo]> distances
     | None => distances
     end) (at level 10, dist, w at level 9).

Lemma road_spec r lat1 lon1 lat2 lon2 :
  cache r ⊆ cache (road r lat1 lon1 lat2 lon2).1
  ∧ cache (road r lat1 lon1 lat2 lon2).1 !! cacheKey lat1 lon1 lat2 lon2
    = Some (road r lat1 lon1 lat2 lon2).2
  ∧ (Distance.requests r ≤ Distance.requests (road r lat1 lon1 lat2 lon2).1
     ≤ S (Distance.requests r))%nat.
Proof.
  unfold Distance.calculateRoadDistance.
  destruct (cache r !! cacheKey lat1 lon1 lat2 lon2) as [d|] eqn:E; simpl.
  - split_and!; [done|done|lia..].
  - split_and!; [by apply insert_subseteq|apply lookup_insert_eq|lia..].
Qed.

Lemma road_cached r lat1 lon1 lat2 lon2 d :
  cache r !! cacheKey lat1 lon1 lat2 lon2 = Some d →
  road r lat1 lon1 lat2 lon2 = (r, d).
Proof. intros E. unfold Distance.calculateRoadDistance. by rewrite E. Qed.

(** X14. A distance is computed once for each key: after
    [calculateRoadDistance] has answered, every later call with the same
    coordinates returns the same distance, sends no request and leaves
    the cache as it is, whatever the routing service would answer by
    then. *)
Theorem road_distance_is_remembered (r r' : Distance.Routing)
    (lat1 lon1 lat2 lon2 : Q) :
  cache (road r lat1 lon1 lat2 lon2).1 ⊆ cache r' →
  road r' lat1 lon1 lat2 lon2 = (r', (road r lat1 lon1 lat2 lon2).2).
Proof.
  intros Hsub. apply road_cached.
  eapply lookup_weaken; [|done]. apply road_spec.
Qed.

Lemma distances_run w js acc :
  cache acc.1 ⊆ cache (foldl (step w) acc js).1
  ∧ (Distance.requests acc.1 ≤ Distance.requests (foldl (step w) acc js).1
     ≤ Distance.requests acc.1 + length js)%nat
  ∧ (∀ c, cache (foldl (step w) acc js).1 ⊆ c →
          (foldl (step w) acc js).2
          = foldl (pure_step (Distance.cached cacheKey c) w) acc.2 js)
  ∧ (∀ kv la lo, kv ∈ js → valid_location (Job.address kv.2) = Some (la, lo) →
       is_Some (cache (foldl (step w) acc js).1 !! cacheKey w.1 w.2 la lo)).
Proof.
  revert acc. induction js as [|kv js IH]; intros acc; simpl.
  { split_and!; [done|lia|lia|done|].
    intros kv la lo Hin. by apply elem_of_nil in Hin. }
  destruct (IH (step w acc kv)) as (Hsub & Hreq & Hpure & Hkeys).
  assert (cache acc.1 ⊆ cache (step w acc kv).1
          ∧ (Distance.requests acc.1 ≤ Distance.requests (step w acc kv).1
             ≤ S (Distance.requests acc.1))%nat
          ∧ (∀ c, cache (step w acc kv).1 ⊆ c →
                  (step w acc kv).2
                  = pure_step (Distance.cached cacheKey c) w acc.2 kv)
          ∧ (∀ la lo, valid_location (Job.address kv.2) = Some (la, lo) →
               is_Some (cache (step w acc kv).1 !! cacheKey w.1 w.2 la lo)))
    as (Hsub1 & Hreq1 & Hpure1 & Hkey1).
  { unfold Distance.job_distance_step.
    destruct (valid_location (Job.address kv.2)) as [[la lo]|] eqn:V.
    - destruct (road_spec acc.1 w.1 w.2 la lo) as (S1 & S2 & S3).
      destruct (road acc.1 w.1 w.2 la lo) as [r1 d] eqn:R; simpl in *.
      split_and!; [done|lia|lia| |].
      + intros c Hc. unfold Distance.cached.
        by rewrite (lookup_weaken _ _ _ _ S2 Hc).
      + intros la' lo' [= <- <-]. by exists d.
    - split_and!; [done|lia|lia|done|done]. }
  split; [by etrans|]. split; [lia|]. split.
  - intros c Hc. rewrite (Hpure c Hc). f_equal. apply Hpure1. by etrans.
  - intros kv' la lo [->|Hin]%elem_of_cons V.
    + destruct (Hkey1 la lo V) as [d Hd]. exists d. by eapply lookup_weaken.
    + by eapply Hkeys.
Qed.

Lemma distances_cached w js r acc :
  (∀ kv la lo, kv ∈ js → valid_location (Job.address kv.2) = Some (la, lo) →
     is_Some (cache r !! cacheKey w.1 w.2 la lo)) →
  foldl (step w) (r, acc) js
  = (r, foldl (pure_step (Distance.cached cacheKey (cache r)) w) acc js).
Proof.
  revert acc. induction js as [|kv js IH]; intros acc Hkeys; simpl; [done|].
  assert (step w (r, acc) kv
          = (r, pure_step (Distance.cached cacheKey (cache r)) w acc kv)) as ->.
  { unfold Distance.job_distance_step. simpl.
    destruct (valid_location (Job.address kv.2)) as [[la lo]|] eqn:V; [|done].
    destruct (Hkeys kv la lo) as [d Hd]; [apply elem_of_cons; by left|done|].
    rewrite (road_cached _ _ _ _ _ _ Hd). unfold Distance.cached. by rewrite Hd. }
  apply IH. intros kv' la lo Hin. apply Hkeys. apply elem_of_cons. by right.
Qed.

(** X15. [calculateJobDistances] keeps what the cache held, sends at most one
    request for each job, and answers with the distances that the cache
    holds when it returns: its answer is that of the loop over an
    estimator without state, taken to be the cache.  Without valid
    coordinates of the worker it answers with the empty object and
    touches nothing. *)
Theorem job_distances_read_the_cache (r : Distance.Routing)
    (workerLocation : option Location) (js : list (ObjectId * Job.t)) :
  cache r
  ⊆ cache (Distance.calculateJobDistances cacheKey haversine route r workerLocation js).1
  ∧ (Distance.requests r
     ≤ Distance.requests
         (Distance.calculateJobDistances cacheKey haversine route r workerLocation js).1
     ≤ Distance.requests r + length js)%nat
  ∧ match valid_coordinates workerLocation with
    | Some w =>
      (Distance.calculateJobDistances cacheKey haversine route r workerLocation js).2
      = calculateJobDistances
          (Distance.cached cacheKey
             (cache (Distance.calculateJobDistances cacheKey haversine route r
                       workerLocation js).1))
          w js
    | None =>
      Distance.calculateJobDistances cacheKey haversine route r workerLocation js
      = (r, ∅)
    end.
Proof.
  unfold Distance.calculateJobDistances.
  destruct (valid_coordinates workerLocation) as [w|]; simpl.
  - destruct (distances_run w js (r, ∅)) as (Hsub & Hreq & Hpure & _).
    simpl in Hreq. split_and!; [done|lia|lia|]. by apply Hpure.
  - split_and!; [done|lia|lia|done].
Qed.

(** X16. A listing that is repeated sends no request: running
    [calculateJobDistances] again for the same worker and jobs, from the
    cache that the first run left, gives the same distances and leaves
    the cache and the count of requests as they are. *)
Theorem repeated_distances_send_no_request (r : Distance.Routing)
    (workerLocation : option Location) (js : list (ObjectId * Job.t)) :
  Distance.calculateJobDistances cacheKey haversine route
    (Distance.calculateJobDistances cacheKey haversine route r workerLocation js).1
    workerLocation js
  = Distance.calculateJobDistances cacheKey haversine route r workerLocation js.
Proof.
  unfold Distance.calculateJobDistances.
  destruct (valid_coordinates workerLocation) as [w|]; [|done].
  destruct (distances_run w js (r, ∅)) as (_ & _ & Hpure & Hkeys).
  destruct (foldl (step w) (r, ∅) js) as [r1 ds] eqn:E; simpl in *.
  rewrite (distances_cached w js r1 ∅ Hkeys). f_equal.
  symmetry. by apply Hpure.
Qed.

End RoadDistanceFacts.

Lemma road_distance_is_remembered_witness :
  let route := λ n : nat, if decide (n = 0%nat) then None else Some 5000%Q in
  let first :=
    Distance.calculateRoadDistance sample_key grid_distance route
      (Distance.mkRouting ∅ 0) (185 # 10) (738 # 10) (185 # 10) (739 # 10) in
  Distance.calculateRoadDistance sample_key grid_distance route
    (Distance.mkRouting (Distance.distanceCache first.1) 7)
    (185 # 10) (738 # 10) (185 # 10) (739 # 10)
  = (Distance.mkRouting (Distance.distanceCache first.1) 7, first.2).
Proof.
  intros route first.
  apply (road_distance_is_remembered sample_key grid_distance route
           (Distance.mkRouting ∅ 0)
           (Distance.mkRouting (Distance.distanceCache first.1) 7)).
  reflexivity.
Defined.

(** ** Who gets past the middleware *)

Section AuthFacts.
Variable verify : string → Auth.Verified.
Variable verify_refresh : string → Auth.Verified.

Lemma find_user_Some accts r id usr :
  Auth.find_user accts r id = Some usr →
  (r = "client" ∧ Auth.clients accts !! id = Some usr)
  ∨ (r = "worker" ∧ Auth.workers accts !! id = Some usr).
Proof.
  unfold Auth.find_user.
  destruct (String.eqb_spec r "client") as [->|_]; [by left|].
  destruct (String.eqb_spec r "worker") as [->|_]; [by right|done].
Qed.

Lemma authenticateToken_Next accts req u cs :
  Auth.authenticateToken verify verify_refresh accts req = Auth.Next u cs →
  ∃ usr, Auth.find_user accts (Auth.role u) (Auth.userId u) = Some usr
         ∧ Auth.isTemporary usr = false
         ∧ Auth.user_name u = Auth.name usr
         ∧ Auth.user_email u = Auth.email usr
         ∧ (Auth.blocked usr = false
            ∨ verify (default EmptyString (Auth.token_of req))
              = Auth.TokenExpiredError).
Proof.
  unfold Auth.authenticateToken, Auth.refreshAndContinue.
  destruct (truthy (Auth.token_of req)); simpl; [|done].
  destruct (verify _) as [id r| |]; [| |done].
  - destruct (Auth.find_user accts r id) as [usr|] eqn:F; [|done].
    destruct (Auth.isTemporary usr) eqn:T; [done|].
    destruct (Auth.blocked usr) eqn:B; [done|].
    intros [= <- <-]. exists usr. simpl. split_and!; try done. by left.
  - destruct (truthy (Auth.refresh_token req)); simpl; [|done].
    destruct (verify_refresh _) as [id r| |]; [|done..].
    destruct (Auth.find_user accts r id) as [usr|] eqn:F; [|done].
    destruct (Auth.isTemporary usr) eqn:T; [done|].
    intros [= <- <-]. exists usr. simpl. split_and!; try done. by right.
Qed.

(** X17. A handler behind [authenticateToken, requireRole(role)] runs only
    for a user of that role who is stored in the collection of the role
    and is no longer temporary; [req.user] carries the id, name and
    e-mail of that document.  No role other than client and worker gets
    through. *)
Theorem guard_lets_in_registered_users (role : string) (accts : Auth.Accounts)
    (req : Auth.Req) (u : Auth.ReqUser) (cs : list string) :
  Auth.guard verify verify_refresh role accts req = Auth.Next u cs →
  Auth.role u = role
  ∧ ∃ usr,
      ((role = "client" ∧ Auth.clients accts !! Auth.userId u = Some usr)
       ∨ (role = "worker" ∧ Auth.workers accts !! Auth.userId u = Some usr))
      ∧ Auth.isTemporary usr = false
      ∧ Auth.user_name u = Auth.name usr
      ∧ Auth.user_email u = Auth.email usr.
Proof.
  unfold Auth.guard, Auth.requireRole.
  destruct (Auth.authenticateToken _ _ accts req) as [u' cs'|] eqn:A; [|done].
  destruct (String.eqb_spec (Auth.role u') role) as [Hr|]; simpl; [|done].
  intros [= <- <-]. split; [done|].
  apply authenticateToken_Next in A as (usr & F & T & N & E & _).
  exists usr. rewrite Hr in F. apply find_user_Some in F. by split_and!.
Qed.

(** X18. The token in the header wins: when [authorization] starts with
    ["Bearer "], the cookies [access_token] and [token] are not read,
    even when the header carries an empty or invalid token and a cookie
    a valid one. *)
Theorem bearer_header_wins (accts : Auth.Accounts) (authHeader : string)
    (access_token token access_token' token' refresh_token : option string) :
  String.prefix "Bearer " authHeader = true →
  Auth.authenticateToken verify verify_refresh accts
    (Auth.mkReq (Some authHeader) access_token token refresh_token)
  = Auth.authenticateToken verify verify_refresh accts
      (Auth.mkReq (Some authHeader) access_token' token' refresh_token).
Proof.
  intros Hp. unfold Auth.authenticateToken, Auth.refreshAndContinue, Auth.token_of.
  simpl. by rewrite Hp.
Qed.

Lemma find_user_blocked b accts id r :
  Auth.find_user (Admin.set_user_blocked b EmptyString accts (Some id) (Some r)).1 r id
  = Auth.set_blocked b <$> Auth.find_user accts r id.
Proof.
  unfold Admin.set_user_blocked, Auth.find_user, Admin.findByIdAndUpdate_blocked.
  destruct (String.eqb_spec r "client") as [->|Hc].
  { rewrite bool_decide_eq_true_2 by done. simpl.
    destruct (Auth.clients accts !! id) as [u|] eqn:E; simpl.
    - by rewrite lookup_insert_eq.
    - by rewrite E. }
  rewrite bool_decide_eq_false_2 by congruence.
  destruct (String.eqb_spec r "worker") as [->|Hw]; [|done].
  rewrite bool_decide_eq_true_2 by done. simpl.
  destruct (Auth.workers accts !! id) as [u|] eqn:E; simpl.
  - by rewrite lookup_insert_eq.
  - by rewrite E.
Qed.

Lemma set_user_blocked_accounts b failure failure' accts id role :
  (Admin.set_user_blocked b failure accts id role).1
  = (Admin.set_user_blocked b failure' accts id role).1.
Proof.
  unfold Admin.set_user_blocked.
  repeat case_bool_decide; by destruct id.
Qed.

(** X19. After [blockUser] has blocked the account [id] of [role], a request
    whose access token is valid and names that account is turned away:
    with 403 and the notice of restriction when the account exists and
    is verified, with 401 otherwise. *)
Theorem blocked_user_is_locked_out (accts : Auth.Accounts) (id : ObjectId)
    (role : string) (req : Auth.Req) :
  verify (default EmptyString (Auth.token_of req)) = Auth.Decoded id role →
  Auth.authenticateToken verify verify_refresh
    (Admin.blockUser accts (Some id) (Some role)).1 req
  = match Auth.find_user accts role id with
    | Some usr =>
      if truthy (Auth.token_of req) && negb (Auth.isTemporary usr)
      then Auth.Deny 403 Auth.restricted
      else Auth.Deny 401
             (if truthy (Auth.token_of req) then "Invalid token."
              else "Access denied. No token provided.")
    | None =>
      Auth.Deny 401
        (if truthy (Auth.token_of req) then "Invalid token."
         else "Access denied. No token provided.")
    end.
Proof.
  intros V. unfold Auth.authenticateToken, Admin.blockUser.
  rewrite V, (set_user_blocked_accounts _ _ EmptyString), find_user_blocked.
  destruct (truthy (Auth.token_of req)); simpl;
    destruct (Auth.find_user accts role id) as [usr|]; simpl; try done.
  by destruct (Auth.isTemporary usr).
Qed.

(** X20. The flag [blocked] is read only while the access token is valid:
    once it has expired and the request carries a valid refresh token of
    the account, the request gets through and receives new tokens,
    although [blockUser] has just blocked the account. *)
Theorem blocked_user_passes_with_refresh_token (accts : Auth.Accounts)
    (id : ObjectId) (role : string) (req : Auth.Req) (usr : Auth.User) :
  truthy (Auth.token_of req) = true →
  verify (default EmptyString (Auth.token_of req)) = Auth.TokenExpiredError →
  truthy (Auth.refresh_token req) = true →
  verify_refresh (default EmptyString (Auth.refresh_token req))
  = Auth.Decoded id role →
  Auth.find_user accts role id = Some usr →
  Auth.isTemporary usr = false →
  Auth.guard verify verify_refresh role
    (Admin.blockUser accts (Some id) (Some role)).1 req
  = Auth.Next (Auth.mkReqUser id role (Auth.email usr) (Auth.name usr))
              ["access_token"; "refresh_token"].
Proof.
  intros Ht V Hr Vr F T.
  unfold Auth.guard, Auth.authenticateToken, Auth.refreshAndContinue, Admin.blockUser.
  rewrite Ht, V, Hr, Vr. simpl.
  rewrite (set_user_blocked_accounts _ _ EmptyString), find_user_blocked, F. simpl.
  rewrite T. unfold Auth.requireRole. simpl. by rewrite String.eqb_refl.
Qed.

End AuthFacts.

Lemma bearer_header_wins_witness :
  Auth.authenticateToken sample_verify sample_verify sample_accounts
    (Auth.mkReq (Some "Bearer ") (Some "worker:20") None None)
  = Auth.authenticateToken sample_verify sample_verify sample_accounts
      (Auth.mkReq (Some "Bearer ") None None None).
Proof.
  apply (bearer_header_wins sample_verify sample_verify sample_accounts "Bearer ").
  reflexivity.
Defined.

Lemma guard_lets_in_registered_users_witness :
  Auth.role (Auth.mkReqUser 20%positive "worker" "ravi@example.com" "Ravi") = "worker"
  ∧ ∃ usr,
      (("worker" = "client"
        ∧ Auth.clients sample_accounts !! 20%positive = Some usr)
       ∨ ("worker" = "worker"
          ∧ Auth.workers sample_accounts !! 20%positive = Some usr))
      ∧ Auth.isTemporary usr = false
      ∧ "Ravi" = Auth.name usr
      ∧ "ravi@example.com" = Auth.email usr.
Proof.
  apply (guard_lets_in_registered_users sample_verify sample_verify "worker"
           sample_accounts
           (Auth.mkReq (Some "Bearer worker:20") None None None)
           (Auth.mkReqUser 20%positive "worker" "ravi@example.com" "Ravi")
           ["access_token"]).
  reflexivity.
Defined.

Lemma blocked_user_is_locked_out_witness :
  Auth.authenticateToken sample_verify sample_verify
    (Admin.blockUser sample_accounts (Some 20%positive) (Some "worker")).1
    (Auth.mkReq None (Some "worker:20") None None)
  = Auth.Deny 403 Auth.restricted.
Proof.
  apply (blocked_user_is_locked_out sample_verify sample_verify sample_accounts
           20%positive "worker" (Auth.mkReq None (Some "worker:20") None None)).
  reflexivity.
Defined.

Lemma blocked_user_passes_with_refresh_token_witness :
  Auth.guard sample_verify sample_verify "worker"
    (Admin.blockUser sample_accounts (Some 20%positive) (Some "worker")).1
    (Auth.mkReq None (Some "old:worker:20") None (Some "worker:20"))
  = Auth.Next (Auth.mkReqUser 20%positive "worker" "ravi@example.com" "Ravi")
              ["access_token"; "refresh_token"].
Proof.
  apply (blocked_user_passes_with_refresh_token sample_verify sample_verify
           sample_accounts 20%positive "worker"
           (Auth.mkReq None (Some "old:worker:20") None (Some "worker:20"))
           (Auth.mkUser "Ravi" "ravi@example.com" false false));
    reflexivity.
Defined.



(** ** The completion code *)

Lemma pretty_N_six_digits (x : N) :
  (100000 ≤ x ≤ 999999)%N → String.length (pretty x) = 6%nat.
Proof.
  intros Hx. unfold pretty, pretty_N. rewrite decide_False by lia.
  assert (∀ k, (0 < k)%N → (k ≤ 100000)%N → (0 < x `div` k)%N) as Hpos.
  { intros k Hk1 Hk2. apply N.div_str_pos. lia. }
  rewrite pretty_N_go_step by lia.
  rewrite pretty_N_go_step by (apply (Hpos 10%N); lia).
  rewrite N.Div0.div_div. change (10 * 10)%N with 100%N.
  rewrite pretty_N_go_step by (apply (Hpos 100%N); lia).
  rewrite N.Div0.div_div. change (100 * 10)%N with 1000%N.
  rewrite pretty_N_go_step by (apply (Hpos 1000%N); lia).
  rewrite N.Div0.div_div. change (1000 * 10)%N with 10000%N.
  rewrite pretty_N_go_step by (apply (Hpos 10000%N); lia).
  rewrite N.Div0.div_div. change (10000 * 10)%N with 100000%N.
  rewrite pretty_N_go_step by (apply (Hpos 100000%N); lia).
  rewrite N.Div0.div_div. change (100000 * 10)%N with 1000000%N.
  assert (x `div` 1000000 = 0)%N as -> by (apply N.div_small; lia).
  by rewrite pretty_N_go_0.
Qed.

(** *** Rounding to doubles *)

Lemma pow2_pos e : (0 < pow2 e)%Q.
Proof. apply Qpower_0_lt. reflexivity. Qed.

Lemma pow2_le a b : (a ≤ b)%Z → (pow2 a <= pow2 b)%Q.
Proof. intros. apply Qpower_le_compat_l; [done|]. by compute. Qed.

Lemma pow2_lt a b : (a < b)%Z → (pow2 a < pow2 b)%Q.
Proof. intros. apply Qpower_lt_compat_l; [done|]. reflexivity. Qed.

Lemma pow2_lt_inv a b : (pow2 a < pow2 b)%Q → (a < b)%Z.
Proof. intros. eapply Qpower_lt_compat_l_inv; [done|]. reflexivity. Qed.

Lemma pow2_add a b : (pow2 (a + b) == pow2 a * pow2 b)%Q.
Proof. apply Qpower_plus. by compute. Qed.

Lemma pow2_Z n : (0 ≤ n)%Z → (inject_Z (2 ^ n) == pow2 n)%Q.
Proof. intros. by rewrite Zpower_Qpower. Qed.

Lemma binade_spec x :
  (0 < x)%Q → (pow2 (binade x) <= x)%Q ∧ (x < pow2 (binade x + 1))%Q.
Proof.
  intros Hx. unfold binade. destruct x as [a b]. cbn [Qnum Qden].
  assert (0 < a)%Z as Ha by (unfold Qlt in Hx; simpl in Hx; lia).
  pose proof (Z.log2_spec a Ha) as [La1 La2].
  pose proof (Z.log2_spec (Z.pos b) (Pos2Z.is_pos b)) as [Lb1 Lb2].
  pose proof (Z.log2_nonneg a) as Hla. pose proof (Z.log2_nonneg (Z.pos b)) as Hlb.
  set (la := Z.log2 a) in *. set (lb := Z.log2 (Z.pos b)) in *.
  rewrite Zle_Qle, pow2_Z in La1, Lb1 by lia.
  rewrite Zlt_Qlt, pow2_Z in La2, Lb2 by lia.
  replace (Z.succ la) with (la + 1)%Z in La2 by lia.
  replace (Z.succ lb) with (lb + 1)%Z in Lb2 by lia.
  rewrite pow2_add in La2, Lb2. change (pow2 1) with 2%Q in La2, Lb2.
  pose proof (pow2_pos la) as Pa. pose proof (pow2_pos lb) as Pb.
  assert (pow2 la == pow2 (la - lb) * pow2 lb)%Q as Ee.
  { rewrite <- pow2_add. by replace (la - lb + lb)%Z with la by lia. }
  pose proof (pow2_pos (la - lb)) as Pe.
  assert (a # b == inject_Z a / inject_Z (Z.pos b))%Q as Ex by apply Qmake_Qdiv.
  assert (0 < inject_Z (Z.pos b))%Q as HB by (by rewrite <- (Zlt_Qlt 0)).
  set (A := inject_Z a) in *. set (B := inject_Z (Z.pos b)) in *.
  set (E := pow2 (la - lb)) in *. set (PB := pow2 lb) in *. set (PA := pow2 la) in *.
  assert (E * B < 2 * (A))%Q as Hlow.
  { apply Qlt_le_trans with (E * (PB * 2))%Q.
    - apply Qmult_lt_l; [done|]. done.
    - rewrite Qmult_assoc, <- Ee. lra. }
  assert (A < 2 * E * B)%Q as Hup.
  { apply Qlt_le_trans with (PA * 2)%Q; [done|].
    rewrite Ee. 
    assert (E * PB * 2 == 2 * E * PB)%Q as -> by ring.
    apply Qmult_le_l; [lra|done]. }
  destruct (Qle_bool E (a # b)) eqn:C.
  - apply Qle_bool_iff in C. split; [done|].
    rewrite pow2_add. change (pow2 1) with 2%Q. fold E.
    rewrite Ex. apply Qlt_shift_div_r; [done|]. lra.
  - assert (a # b < E)%Q as C'.
    { apply Qnot_le_lt. intros H. apply Qle_bool_iff in H. congruence. }
    replace (la - lb - 1 + 1)%Z with (la - lb)%Z by lia. split; [|done].
    assert (pow2 (la - lb - 1) == E / 2)%Q as ->.
    { unfold E. replace (la - lb)%Z with ((la - lb - 1) + 1)%Z at 2 by lia.
      rewrite pow2_add. change (pow2 1) with 2%Q. field. }
    rewrite Ex. apply Qle_shift_div_l; [done|].
    assert (E / 2 * B == E * B / 2)%Q as -> by field.
    apply Qle_shift_div_r; [reflexivity|]. rewrite (Qmult_comm A 2).
    by apply Qlt_le_weak.
Qed.

Lemma binade_unique x e :
  (pow2 e <= x)%Q → (x < pow2 (e + 1))%Q → binade x = e.
Proof.
  intros H1 H2.
  assert (0 < x)%Q as Hx by (eapply Qlt_le_trans; [apply (pow2_pos e)|done]).
  destruct (binade_spec x Hx) as [B1 B2].
  assert (binade x < e + 1)%Z.
  { apply pow2_lt_inv. eapply Qle_lt_trans; done. }
  assert (e < binade x + 1)%Z.
  { apply pow2_lt_inv. eapply Qle_lt_trans; done. }
  lia.
Qed.

Lemma binade_mono x y : (0 < x)%Q → (x <= y)%Q → (binade x ≤ binade y)%Z.
Proof.
  intros Hx Hxy.
  assert (0 < y)%Q as Hy by (eapply Qlt_le_trans; done).
  destruct (binade_spec x Hx) as [B1 _]. destruct (binade_spec y Hy) as [_ B2].
  assert (binade x < binade y + 1)%Z; [|lia].
  apply pow2_lt_inv. eapply Qle_lt_trans; [|done]. by eapply Qle_trans.
Qed.

Lemma round_even_bounds x :
  (Qfloor x ≤ round_even x ≤ Qfloor x + 1)%Z.
Proof.
  unfold round_even. destruct (_ ?= _)%Q; [destruct (Z.even _)|..]; lia.
Qed.

Lemma round_even_Z x n : (x == inject_Z n)%Q → round_even x = n.
Proof.
  intros E. unfold round_even. rewrite (Qfloor_comp _ _ E), Qfloor_Z.
  assert ((x - inject_Z n ?= 1 # 2)%Q = Lt) as ->; [|done].
  apply Qlt_alt. rewrite E. unfold Qminus. rewrite Qplus_opp_r. reflexivity.
Qed.

Lemma round_even_mono x y : (x <= y)%Q → (round_even x ≤ round_even y)%Z.
Proof.
  intros Hxy. pose proof (Qfloor_resp_le x y Hxy) as Hf.
  pose proof (round_even_bounds x). pose proof (round_even_bounds y).
  destruct (decide (Qfloor x = Qfloor y)) as [E|Hne]; [|lia].
  unfold round_even. rewrite <- E.
  destruct (Qcompare_spec (x - inject_Z (Qfloor x)) (1 # 2)) as [X|X|X];
    destruct (Qcompare_spec (y - inject_Z (Qfloor x)) (1 # 2)) as [Y|Y|Y];
    try destruct (Z.even _); try lia; lra.
Qed.

Lemma pow2_sub a b : (pow2 a / pow2 b == pow2 (a - b))%Q.
Proof. symmetry. apply Qpower_minus. by compute. Qed.

Lemma ulp_pos x : (0 < ulp x)%Q.
Proof. apply pow2_pos. Qed.

Lemma Qdiv_le_compat_r a b c : (0 < c)%Q → (a <= b)%Q → (a / c <= b / c)%Q.
Proof.
  intros Hc Hab. unfold Qdiv. apply Qmult_le_compat_r; [done|].
  apply Qinv_le_0_compat. by apply Qlt_le_weak.
Qed.

(** Rounding a positive number stays within its binade, ends included. *)
Lemma round_pos_below x e :
  (0 < x)%Q → (x <= pow2 e)%Q → (Z.max (binade x - 52) (-1074) ≤ e)%Z →
  (round_pos x <= pow2 e)%Q.
Proof.
  intros Hx Hxe Hk. unfold round_pos, ulp.
  set (k := Z.max (binade x - 52) (-1074)) in *.
  assert (pow2 e == inject_Z (2 ^ (e - k)) * pow2 k)%Q as E.
  { rewrite pow2_Z by lia. rewrite <- pow2_add. by replace (e - k + k)%Z with e by lia. }
  rewrite E. apply Qmult_le_compat_r; [|apply Qlt_le_weak, pow2_pos].
  rewrite <- Zle_Qle.
  rewrite <- (round_even_Z (inject_Z (2 ^ (e - k))) (2 ^ (e - k))) by reflexivity.
  apply round_even_mono. apply Qle_shift_div_r; [apply pow2_pos|]. by rewrite <- E.
Qed.

Lemma round_pos_above x e :
  (pow2 e <= x)%Q → (Z.max (binade x - 52) (-1074) ≤ e)%Z →
  (pow2 e <= round_pos x)%Q.
Proof.
  intros Hxe Hk. unfold round_pos, ulp.
  set (k := Z.max (binade x - 52) (-1074)) in *.
  assert (pow2 e == inject_Z (2 ^ (e - k)) * pow2 k)%Q as E.
  { rewrite pow2_Z by lia. rewrite <- pow2_add. by replace (e - k + k)%Z with e by lia. }
  rewrite E. apply Qmult_le_compat_r; [|apply Qlt_le_weak, pow2_pos].
  rewrite <- Zle_Qle.
  rewrite <- (round_even_Z (inject_Z (2 ^ (e - k))) (2 ^ (e - k))) by reflexivity.
  apply round_even_mono. apply Qle_shift_div_l; [apply pow2_pos|]. by rewrite <- E.
Qed.

Lemma round_pos_mono x y :
  (0 < x)%Q → (x <= y)%Q → (round_pos x <= round_pos y)%Q.
Proof.
  intros Hx Hxy.
  assert (0 < y)%Q as Hy by (eapply Qlt_le_trans; done).
  pose proof (binade_mono x y Hx Hxy) as Hb.
  destruct (binade_spec x Hx) as [X1 X2]. destruct (binade_spec y Hy) as [Y1 Y2].
  destruct (decide (Z.max (binade x - 52) (-1074) = Z.max (binade y - 52) (-1074)))
    as [E|Hne].
  - unfold round_pos, ulp. rewrite E.
    apply Qmult_le_compat_r; [|apply Qlt_le_weak, pow2_pos].
    rewrite <- Zle_Qle. apply round_even_mono.
    apply Qdiv_le_compat_r; [apply pow2_pos|done].
  - apply Qle_trans with (pow2 (binade y)).
    + apply round_pos_below; [done| |lia].
      apply Qlt_le_weak. eapply Qlt_le_trans; [exact X2|]. apply pow2_le. lia.
    + apply round_pos_above; [done|lia].
Qed.

Lemma round_double_pos x : (0 < x)%Q → round_double x = round_pos x.
Proof. intros Hx. unfold round_double. by rewrite (proj1 (Qgt_alt _ _) Hx). Qed.

Lemma round_double_0 x : (x == 0)%Q → round_double x = 0%Q.
Proof. intros Hx. unfold round_double. by rewrite (proj1 (Qeq_alt _ _) Hx). Qed.

Lemma round_pos_nonneg x : (0 < x)%Q → (0 <= round_pos x)%Q.
Proof.
  intros Hx. unfold round_pos. apply Qmult_le_0_compat; [|apply Qlt_le_weak, ulp_pos].
  change 0%Q with (inject_Z 0). rewrite <- Zle_Qle.
  etrans; [|apply round_even_bounds].
  rewrite <- (Qfloor_Z 0). apply Qfloor_resp_le.
  apply Qle_shift_div_l; [apply ulp_pos|]. rewrite Qmult_0_l. by apply Qlt_le_weak.
Qed.

Lemma round_double_mono x y :
  (0 <= x)%Q → (x <= y)%Q → (round_double x <= round_double y)%Q.
Proof.
  intros Hx Hxy.
  assert (∀ z, 0 <= z → 0 <= round_double z)%Q as Hnn.
  { intros z Hz. destruct (Qlt_le_dec 0 z) as [Hp|Hn].
    - rewrite round_double_pos by done. by apply round_pos_nonneg.
    - rewrite round_double_0; [done|]. by apply Qle_antisym. }
  destruct (Qlt_le_dec 0 x) as [Hp|Hn].
  - rewrite !round_double_pos; [by apply round_pos_mono| |done].
    eapply Qlt_le_trans; done.
  - rewrite (round_double_0 x) by (by apply Qle_antisym).
    apply Hnn. by eapply Qle_trans.
Qed.

(** The largest double below 1 is [1 - 2^-53]. *)
Lemma double_below_one r :
  is_double r → (r < 1)%Q → (r <= 1 - pow2 (-53))%Q.
Proof.
  intros Hd H1. destruct (Qlt_le_dec r (1 # 2)) as [Hs|Hh].
  { apply Qlt_le_weak. eapply Qlt_le_trans; [exact Hs|]. by vm_compute. }
  assert (0 < r)%Q as Hr by (eapply Qlt_le_trans; [|exact Hh]; reflexivity).
  unfold is_double in Hd. rewrite round_double_pos in Hd by done.
  unfold round_pos, ulp in Hd.
  rewrite (binade_unique r (-1)) in Hd by done.
  change (Z.max (-1 - 52) (-1074)) with (-53)%Z in Hd.
  set (n := round_even (r / pow2 (-53))) in *.
  assert (n < 2 ^ 53)%Z as Hn.
  { rewrite Zlt_Qlt. apply Qmult_lt_r with (pow2 (-53)); [apply pow2_pos|].
    rewrite Hd. eapply Qlt_le_trans; [exact H1|]. by vm_compute. }
  rewrite <- Hd.
  apply Qle_trans with (inject_Z (2 ^ 53 - 1) * pow2 (-53))%Q; [|by vm_compute].
  apply Qmult_le_compat_r; [|apply Qlt_le_weak, pow2_pos].
  rewrite <- Zle_Qle. lia.
Qed.

Lemma code_in_range r :
  is_double r → (0 <= r)%Q → (r < 1)%Q →
  (100000 ≤ Qfloor (round_double (100000 + round_double (r * 900000))) ≤ 999999)%Z.
Proof.
  intros Hd H0 H1.
  pose proof (double_below_one r Hd H1) as Hmax.
  assert (0 <= r * 900000)%Q as Hp0 by (apply Qmult_le_0_compat; [done|by compute]).
  assert (round_double (r * 900000) <= 900000 - pow2 (-33))%Q as Hp.
  { eapply Qle_trans; [apply (round_double_mono _ ((1 - pow2 (-53)) * 900000)); [done|]|].
    - apply Qmult_le_compat_r; [done|by compute].
    - apply Qle_bool_iff. by vm_compute. }
  assert (0 <= round_double (r * 900000))%Q as Hp'.
  { eapply Qle_trans; [|apply (round_double_mono 0); [by compute|done]]. by vm_compute. }
  set (p := round_double (r * 900000)) in *.
  assert (inject_Z 100000 <= round_double (100000 + p))%Q as Hlo.
  { eapply Qle_trans; [|apply (round_double_mono 100000); [by compute|]].
    - apply Qle_bool_iff. by vm_compute.
    - rewrite <- (Qplus_0_r 100000) at 1. by apply Qplus_le_r. }
  assert (round_double (100000 + p) <= 1000000 - pow2 (-33))%Q as Hhi.
  { eapply Qle_trans;
      [apply (round_double_mono _ (100000 + (900000 - pow2 (-33))))|].
    - apply Qle_trans with 100000%Q; [by compute|].
      rewrite <- (Qplus_0_r 100000) at 1. by apply Qplus_le_r.
    - by apply Qplus_le_r.
    - apply Qle_bool_iff. by vm_compute. }
  split.
  - rewrite <- (Qfloor_Z 100000). by apply Qfloor_resp_le.
  - apply Z.lt_succ_r. rewrite Zlt_Qlt.
    eapply Qle_lt_trans; [apply Qfloor_le|].
    eapply Qle_lt_trans; [exact Hhi|]. by vm_compute.
Qed.

(** X22. For every draw [r] of [Math.random()], a double in [0, 1), the code
    that [getCompletionOTP] mints is the decimal print of a whole number
    from 100000 to 999999: six digits, the first not 0.  The product and
    the sum are rounded to doubles; the largest draw, [1 - 2^-53], gives
    [1000000 - 2^-33] and so 999999. *)
Theorem completion_code_has_six_digits (r : Q) :
  is_double r → (0 <= r)%Q → (r < 1)%Q →
  String.length (mint r) = 6%nat
  ∧ ∃ n : Z, (100000 ≤ n ≤ 999999)%Z ∧ mint r = pretty n.
Proof.
  intros Hd H0 H1. unfold mint.
  pose proof (code_in_range r Hd H0 H1) as Hn.
  split; [|by eexists].
  destruct (Qfloor _) as [|p|p] eqn:E; [lia| |lia].
  apply (pretty_N_six_digits (N.pos p)). lia.
Qed.

Lemma completion_code_has_six_digits_witness :
  String.length (mint (1 - pow2 (-53))) = 6%nat
  ∧ ∃ n : Z, (100000 ≤ n ≤ 999999)%Z ∧ mint (1 - pow2 (-53)) = pretty n.
Proof.
  apply (completion_code_has_six_digits (1 - pow2 (-53))); by vm_compute.
Defined.

(** ** The public id of an image *)

Lemma prefix_app sub a b :
  String.prefix sub a = true → String.prefix sub (a +:+ b) = true.
Proof.
  revert sub. induction a as [|c' a IH]; intros [|c sub]; simpl; try done.
  - by destruct b.
  - destruct (Ascii.ascii_dec c c'); [apply IH|done].
Qed.

Lemma str_includes_app sub a b :
  Cloudinary.str_includes sub a = true →
  Cloudinary.str_includes sub (a +:+ b) = true.
Proof.
  induction a as [|c a IH].
  - simpl. rewrite orb_false_r. intros Hp.
    destruct sub; [by destruct b|done].
  - cbn [Cloudinary.str_includes String.append].
    intros [Hp|Hi]%orb_true_iff; apply orb_true_iff.
    + left. by apply (prefix_app sub (String c a) b).
    + right. by apply IH.
Qed.

Lemma split_cons sep s : ∃ part parts, Cloudinary.split sep s = part :: parts.
Proof.
  destruct s as [|c s]; simpl; [by eexists _, _|].
  destruct (Ascii.eqb c sep); [by eexists _, _|].
  destruct (Cloudinary.split sep s); by eexists _, _.
Qed.

Lemma split_app sep a b :
  Cloudinary.split sep (a +:+ String sep b)
  = Cloudinary.split sep a ++ Cloudinary.split sep b.
Proof.
  induction a as [|c a IH]; simpl.
  - by rewrite Ascii.eqb_refl.
  - destruct (Ascii.eqb c sep); [by rewrite IH|].
    rewrite IH. by destruct (split_cons sep a) as (part & parts & ->).
Qed.

Lemma split_one sep s :
  has_char sep s = false → Cloudinary.split sep s = [s].
Proof.
  induction s as [|c s IH]; simpl; [done|].
  intros [Hc Hs]%orb_false_iff. rewrite Hc. by rewrite IH.
Qed.

Lemma join_cons sep x y l :
  Cloudinary.join sep (x :: y :: l) = x +:+ sep +:+ Cloudinary.join sep (y :: l).
Proof. done. Qed.

Lemma join_split sep s :
  Cloudinary.join (String sep EmptyString) (Cloudinary.split sep s) = s.
Proof.
  induction s as [|c s IH]; [done|].
  cbn [Cloudinary.split].
  destruct (split_cons sep s) as (part & parts & E). rewrite E in IH |- *.
  destruct (Ascii.eqb c sep) eqn:C.
  - apply Ascii.eqb_eq in C as ->. by rewrite join_cons, IH.
  - destruct parts as [|part' parts].
    + simpl in *. by rewrite IH.
    + rewrite join_cons in *. by rewrite <- IH.
Qed.

Lemma findIndex_app (p : string → bool) l1 x l2 :
  (∀ y, y ∈ l1 → p y = false) → p x = true →
  Cloudinary.findIndex p (l1 ++ x :: l2) = Some (length l1).
Proof.
  intros Hl Hx. induction l1 as [|y l1 IH]; simpl; [by rewrite Hx|].
  rewrite Hl by (apply elem_of_cons; by left).
  rewrite IH; [done|]. intros z Hz. apply Hl. apply elem_of_cons. by right.
Qed.

Lemma lastIndexOf_None c s :
  has_char c s = false → Cloudinary.lastIndexOf c s = None.
Proof.
  induction s as [|a s IH]; simpl; [done|].
  intros [Ha Hs]%orb_false_iff. by rewrite IH, Ha by done.
Qed.

Lemma lastIndexOf_app c p s :
  has_char c s = false →
  Cloudinary.lastIndexOf c (p +:+ String c s) = Some (String.length p).
Proof.
  intros Hs. induction p as [|a p IH]; simpl.
  - by rewrite lastIndexOf_None, Ascii.eqb_refl.
  - by rewrite IH.
Qed.

Lemma substring_app p s : String.substring 0 (String.length p) (p +:+ s) = p.
Proof.
  induction p as [|a p IH]; simpl; [by destruct s|by rewrite IH].
Qed.

(** X23. [extractPublicId] recovers the public id from a delivery URL
    [<base>/upload/<version>/<publicId>.<format>]: when the base names
    [cloudinary.com] and has no path segment [upload], the version has
    no slash and the format no dot, the answer is [publicId], whatever
    folders and dots the public id itself has. *)
Theorem extractPublicId_of_delivery_url (base version publicId format : string) :
  Cloudinary.str_includes "cloudinary.com" base = true →
  "upload" ∉ Cloudinary.split Cloudinary.slash base →
  has_char Cloudinary.slash version = false →
  has_char Cloudinary.dot format = false →
  Cloudinary.extractPublicId (Some (delivery_url base version publicId format))
  = Some publicId.
Proof.
  intros Hb Hu Hv Hf. unfold Cloudinary.extractPublicId, delivery_url.
  assert (truthy (Some (base +:+ "/upload/" +:+ version +:+ "/" +:+ publicId
                        +:+ "." +:+ format)) = true) as ->.
  { by destruct base. }
  rewrite str_includes_app by done. simpl negb. cbn [orb].
  change (base +:+ "/upload/" +:+ version +:+ "/" +:+ publicId +:+ "." +:+ format)
    with (base +:+ String Cloudinary.slash
            ("upload" +:+ String Cloudinary.slash
               (version +:+ String Cloudinary.slash
                  (publicId +:+ String Cloudinary.dot format)))).
  rewrite !split_app, (split_one _ version) by done.
  change (Cloudinary.split Cloudinary.slash "upload") with ["upload"].
  cbn [app].
  rewrite findIndex_app; [| |done].
  - rewrite drop_app_add. cbn [drop].
    change "/" with (String Cloudinary.slash EmptyString).
    rewrite drop_0, join_split, lastIndexOf_app by done.
    by rewrite substring_app.
  - intros y Hy. apply String.eqb_neq. by intros <-.
Qed.

Lemma extractPublicId_of_delivery_url_witness :
  Cloudinary.extractPublicId
    (Some (delivery_url "https://res.cloudinary.com/demo/image" "v1712"
             "kaamsetu/jobs/1/tap.v2" "jpg"))
  = Some "kaamsetu/jobs/1/tap.v2".
Proof.
  apply (extractPublicId_of_delivery_url "https://res.cloudinary.com/demo/image"
           "v1712" "kaamsetu/jobs/1/tap.v2" "jpg"); try reflexivity.
  apply (bool_decide_unpack _). by vm_compute.
Defined.

(** ** After completion *)

(** X24. Completing a job frees its worker: when no worker holds two jobs,
    the worker of a job that [completeJob] has completed holds no job
    any more, so the pre-check of [acceptJob] lets the worker take the
    next one. *)
Theorem completion_frees_the_worker (st st' : Store) (jobId c w : ObjectId)
    (otp : option string) (now : Date) (body : CompletedBody) (job : Job.t) :
  one_job_per_worker st →
  completeJob st jobId c otp now = (st', Ok body) →
  jobs st !! jobId = Some job → Job.workerId job = Some w →
  (∀ id, ¬ holds st' w id) ∧ activeJobs st' w = [].
Proof.
  intros Hone Hc Hj Hw.
  apply completeJob_Ok in Hc as (job' & code & Hj' & _ & Hs & _ & _ & _ & -> & _).
  rewrite Hj in Hj'. injection Hj' as <-.
  assert (∀ id, ¬ holds (set_jobs (<[jobId := Job.set_completionOTP None
                                      (Job.set_status completed job)]> (jobs st)) st)
                        w id) as Hfree.
  { intros id (j & Hl & Hjw & Hh). simpl in Hl.
    destruct (decide (id = jobId)) as [->|Hne].
    - rewrite lookup_insert_eq in Hl. injection Hl as <-. done.
    - rewrite lookup_insert_ne in Hl by done.
      apply Hne. apply (Hone w); [by exists j|].
      exists job. by rewrite Hs. }
  split; [done|]. apply precheck_false in Hfree.
  destruct (activeJobs _ w); [done|discriminate].
Qed.

Lemma completion_frees_the_worker_witness :
  (∀ id, ¬ holds (completeJob (store_with (Some 20%positive) active (Some "482913"))
                    1%positive 10%positive (Some "482913") 5000%Z).1
                 20%positive id)
  ∧ activeJobs (completeJob (store_with (Some 20%positive) active (Some "482913"))
                  1%positive 10%positive (Some "482913") 5000%Z).1
               20%positive = [].
Proof.
  apply (completion_frees_the_worker
           (store_with (Some 20%positive) active (Some "482913")) _
           1%positive 10%positive 20%positive (Some "482913") 5000%Z
           (mkCompletedBody 1%positive completed 5000%Z)
           (sample_job (Some 20%positive) active (Some "482913")));
    try reflexivity.
  intros w id1 id2 (j1 & [-> _]%store_with_lookup & _)
         (j2 & [-> _]%store_with_lookup & _). reflexivity.
Defined.

(** ** The gate of [completeJob] *)

(** X25. [completeJob] succeeds exactly when the job exists and belongs to
    the client, is active, carries a generated [completionOTP] and the
    supplied [otp] equals it.  On success the status is completed, the
    body carries [completedAt], the code is cleared and a second attempt
    fails with 400.  With no code generated the answer is 400, and so it
    is for a code that a later generation has replaced, while the latest
    code is accepted. *)
Theorem completeJob_otp_gate :
  (∀ st jobId clientId otp now,
     otps_minted st →
     is_ok (completeJob st jobId clientId otp now).2 = true ↔
     ∃ job, jobs st !! jobId = Some job ∧ Job.clientId job = clientId
            ∧ Job.status job = active
            ∧ is_Some (Job.completionOTP job) ∧ otp = Job.completionOTP job)
  ∧ (∀ st jobId clientId otp now st' body,
       completeJob st jobId clientId otp now = (st', Ok body) →
       cb_status body = completed ∧ cb_completedAt body = now
       ∧ (∃ job', jobs st' !! jobId = Some job' ∧ Job.status job' = completed
                  ∧ Job.completionOTP job' = None)
       ∧ ∀ now', ∃ msg, completeJob st' jobId clientId otp now' = (st', Fail 400 msg))
  ∧ (∀ st jobId otp now job,
       jobs st !! jobId = Some job → Job.completionOTP job = None →
       ∃ msg, completeJob st jobId (Job.clientId job) otp now = (st, Fail 400 msg))
  ∧ (∀ st jobId w r1 r2 now job,
       jobs st !! jobId = Some job → Job.workerId job = Some w →
       Job.status job = active → mint r1 ≠ mint r2 →
       let st2 := (getCompletionOTP (getCompletionOTP st jobId w r1).1 jobId w r2).1 in
       (∃ msg, completeJob st2 jobId (Job.clientId job) (Some (mint r1)) now
               = (st2, Fail 400 msg))
       ∧ is_ok (completeJob st2 jobId (Job.clientId job) (Some (mint r2)) now).2 = true).
Proof.
  split; [|split; [|split]].
  - intros st jobId clientId otp now Hm. split.
    + destruct (completeJob st jobId clientId otp now) as [st' [body|code msg]] eqn:E;
        [|discriminate].
      intros _.
      apply completeJob_Ok in E as (job & code & H1 & H2 & H3 & H4 & H5 & _).
      exists job. rewrite H4. eauto 10.
    + intros (job & H1 & <- & H3 & [code Hc] & ->).
      destruct (Hm _ _ _ H1 Hc) as [r ->].
      rewrite Hc, (completeJob_accepts st jobId now job (mint r)); auto.
      apply mint_nonempty.
  - intros st jobId clientId otp now st' body E.
    apply completeJob_Ok in E as (job & code & H1 & H2 & H3 & H4 & -> & H6 & -> & ->).
    split; [done|]. split; [done|]. split.
    + eexists. simpl. rewrite lookup_insert_eq. eauto.
    + intros now'. unfold completeJob.
      rewrite (proj2 (truthy_Some code) H6). simpl.
      erewrite (proj2 (findOne_client_Some _ jobId clientId _)).
      2:{ split; [apply lookup_insert_eq | done]. }
      simpl. eauto.
  - intros st jobId otp now job Hj Ho. unfold completeJob.
    destruct (truthy otp); simpl; [|eauto].
    rewrite (proj2 (findOne_client_Some st jobId _ job)) by done.
    destruct (bool_decide (Job.status job = active)); simpl; [|eauto].
    rewrite Ho. simpl. eauto.
  - intros st jobId w r1 r2 now job Hj Hw Hs Hne st2.
    subst st2.
    rewrite (getCompletionOTP_active st jobId w r1 job) by done. simpl.
    erewrite (getCompletionOTP_active _ jobId w r2);
      [|apply lookup_insert_eq | done | done].
    simpl. rewrite insert_insert_eq.
    set (job2 := Job.set_completionOTP (Some (mint r2))
                   (Job.set_completionOTP (Some (mint r1)) job)).
    set (st2 := set_jobs _ _).
    assert (jobs st2 !! jobId = Some job2) as Hj2 by apply lookup_insert_eq.
    split.
    + change (Job.clientId job) with (Job.clientId job2). eexists.
      apply completeJob_wrong_code with (code := mint r2);
        auto using mint_nonempty.
    + change (Job.clientId job) with (Job.clientId job2).
      erewrite (completeJob_accepts st2 jobId now job2 (mint r2)); auto.
      apply mint_nonempty.
Qed.

Lemma store_with_minted w s r : otps_minted (store_with w s (Some (mint r))).
Proof. intros id job c [-> ->]%store_with_lookup [= <-]. eauto. Qed.

Lemma completeJob_otp_gate_witness :
  is_ok (completeJob (store_with (Some 20%positive) active (Some (mint (382913 # 900000))))
                     1%positive 10%positive (Some "482913") 5000%Z).2 = true
  ∧ mint (382913 # 900000) = "482913"
  ∧ ∃ msg,
      completeJob
        (getCompletionOTP
           (getCompletionOTP (store_with (Some 20%positive) active None)
                             1%positive 20%positive (382913 # 900000)).1
           1%positive 20%positive (1 # 2)).1
        1%positive 10%positive (Some "482913") 5000%Z
      = ((getCompletionOTP
            (getCompletionOTP (store_with (Some 20%positive) active None)
                              1%positive 20%positive (382913 # 900000)).1
            1%positive 20%positive (1 # 2)).1,
         Fail 400 msg).
Proof.
  destruct completeJob_otp_gate as (Hiff & _ & _ & Hsup).
  split; [|split; [reflexivity|]].
  - apply Hiff; [apply store_with_minted|].
    exists (sample_job (Some 20%positive) active (Some (mint (382913 # 900000)))).
    repeat split; try reflexivity. simpl. eauto.
  - destruct (Hsup (store_with (Some 20%positive) active None) 1%positive 20%positive
                (382913 # 900000)%Q (1 # 2)%Q 5000%Z
                (sample_job (Some 20%positive) active None)) as [Hold _];
      try reflexivity.
    + vm_compute. discriminate.
    + exact Hold.
Defined.
